(** * Pitch-Deck-Verifier: company-name resolution, JSON completion and
      web-evidence search, embedded from [src/pdf_parser.py],
      [src/llm_client.py] and [src/web_search.py].

    Python [str] values are modelled as lists of characters.  The embedding
    covers the ASCII fragment of Python text: the character classes of [re]
    and of the [str] methods ([\s], [\w], [\d], [upper], [lower], [strip],
    [split]) are those Python uses on code points below 128; the remaining
    values of the eight-bit character type are outside the modelled fragment
    and are treated as caseless symbols. *)

From Stdlib Require Import Ascii String List Bool Arith NArith ZArith QArith Lia.
From Stdlib Require Import Permutation Sorted.
From stdpp Require Import base option list strings gmap.

Import ListNotations.
Local Open Scope bool_scope.
Local Open Scope list_scope.

(** ** Python strings *)

Module PyStr.

Definition str := list ascii.

(** A Python string literal. *)
Definition lit (s : string) : str := list_ascii_of_string s.

Definition code (c : ascii) : N := N_of_ascii c.

Definition in_range (lo hi : N) (c : ascii) : bool :=
  (lo <=? code c)%N && (code c <=? hi)%N.

Definition is_upper (c : ascii) : bool := in_range 65 90 c.
Definition is_lower (c : ascii) : bool := in_range 97 122 c.
Definition is_digit (c : ascii) : bool := in_range 48 57 c.
Definition is_alnum (c : ascii) : bool := is_upper c || is_lower c || is_digit c.

(** [\w] *)
Definition is_word (c : ascii) : bool := is_alnum c || (code c =? 95)%N.

(** [\s] and [str.isspace]: tab, newline, vertical tab, form feed, carriage
    return, the four separators 0x1c-0x1f and the blank. *)
Definition is_space (c : ascii) : bool :=
  in_range 9 13 c || in_range 28 31 c || (code c =? 32)%N.

Definition to_lower (c : ascii) : ascii :=
  if is_upper c then ascii_of_N (code c + 32) else c.
Definition to_upper (c : ascii) : ascii :=
  if is_lower c then ascii_of_N (code c - 32) else c.

Definition lower (s : str) : str := map to_lower s.
Definition upper (s : str) : str := map to_upper s.

Definition chr_eqb (a b : ascii) : bool := Ascii.eqb a b.

Fixpoint str_eqb (a b : str) : bool :=
  match a, b with
  | [], [] => true
  | x :: a', y :: b' => chr_eqb x y && str_eqb a' b'
  | _, _ => false
  end.

(** [s.startswith(p)] *)
Fixpoint startswith (s p : str) {struct p} : bool :=
  match p, s with
  | [], _ => true
  | x :: p', y :: s' => chr_eqb x y && startswith s' p'
  | _ :: _, [] => false
  end.

(** [s.endswith(p)] *)
Definition endswith (s p : str) : bool := startswith (rev s) (rev p).

(** [sub in s] *)
Fixpoint contains (sub s : str) : bool :=
  startswith s sub ||
  match s with
  | [] => false
  | _ :: s' => contains sub s'
  end.

(** [x in xs] for a collection of strings *)
Definition str_in (x : str) (xs : list str) : bool := existsb (str_eqb x) xs.

Fixpoint lstrip (s : str) : str :=
  match s with
  | c :: t => if is_space c then lstrip t else s
  | [] => []
  end.

(** [s.rstrip()]: a blank is kept only if something is kept after it. *)
Fixpoint rstrip (s : str) : str :=
  match s with
  | [] => []
  | c :: t =>
      match rstrip t with
      | [] => if is_space c then [] else [c]
      | r => c :: r
      end
  end.

(** [s.strip()] *)
Definition strip (s : str) : str := rstrip (lstrip s).

(** [s.split()]: the maximal runs of non-blank characters.  [cur] holds the
    run being read, reversed. *)
Fixpoint split_ws_aux (cur : str) (s : str) : list str :=
  match s with
  | [] => match cur with [] => [] | _ => [rev cur] end
  | c :: t =>
      if is_space c
      then match cur with [] => split_ws_aux [] t | _ => rev cur :: split_ws_aux [] t end
      else split_ws_aux (c :: cur) t
  end.

Definition split_ws (s : str) : list str := split_ws_aux [] s.

(** [s.split(sep)] for a one-character separator: always at least one
    piece. *)
Fixpoint split_chr_aux (sep : ascii) (cur : str) (s : str) : list str :=
  match s with
  | [] => [rev cur]
  | c :: t =>
      if chr_eqb c sep then rev cur :: split_chr_aux sep [] t
      else split_chr_aux sep (c :: cur) t
  end.

Definition split_chr (sep : ascii) (s : str) : list str := split_chr_aux sep [] s.

(** [sep.join(parts)] *)
Fixpoint join (sep : str) (parts : list str) : str :=
  match parts with
  | [] => []
  | [p] => p
  | p :: rest => p ++ sep ++ join sep rest
  end.

(** [s.find(c)] for a one-character needle; [None] stands for [-1]. *)
Fixpoint find_chr (c : ascii) (s : str) : option nat :=
  match s with
  | [] => None
  | x :: t => if chr_eqb x c then Some 0 else option_map S (find_chr c t)
  end.

(** [s.rfind(c)] *)
Fixpoint rfind_chr (c : ascii) (s : str) : option nat :=
  match s with
  | [] => None
  | x :: t =>
      match rfind_chr c t with
      | Some i => Some (S i)
      | None => if chr_eqb x c then Some 0 else None
      end
  end.

(** [s[a:b]] for non-negative indices *)
Definition slice (a b : nat) (s : str) : str := firstn (b - a) (skipn a s).

(** [s.replace(c, '')] for a one-character [c] *)
Definition remove_chr (c : ascii) (s : str) : str :=
  List.filter (fun x => negb (chr_eqb x c)) s.

Definition nl : ascii := "010"%char.
Definition blank : ascii := " "%char.

End PyStr.

Import PyStr.

(** ** The regular expressions of the sources

    Each pattern used by the sources is embedded as a deterministic matcher.
    A matcher reads the input at one position, knowing the character before
    that position (for [\b]), and returns the character before and the input
    after the match. *)

Module Re.

Definition matcher := option ascii -> str -> option (option ascii * str).

Definition word_at (o : option ascii) : bool :=
  match o with Some c => is_word c | None => false end.

(** [\b]: exactly one side is a word character. *)
Definition at_boundary (prev : option ascii) (rest : str) : bool :=
  xorb (word_at prev) (word_at (head rest)).

Definition m_boundary : matcher :=
  fun prev s => if at_boundary prev s then Some (prev, s) else None.

(** [re.escape(lit)] under [re.IGNORECASE] *)
Fixpoint m_literal_ci (l : str) : matcher :=
  fun prev s =>
    match l with
    | [] => Some (prev, s)
    | x :: l' =>
        match s with
        | c :: s' =>
            if chr_eqb (to_lower x) (to_lower c) then m_literal_ci l' (Some c) s'
            else None
        | [] => None
        end
    end.

(** The longest run of characters of one class. *)
Fixpoint m_many (cls : ascii -> bool) (prev : option ascii) (s : str)
  : option ascii * str :=
  match s with
  | c :: t => if cls c then m_many cls (Some c) t else (prev, s)
  | [] => (prev, s)
  end.

(** [C+] followed by something that cannot start with a character of [C]:
    the run is taken whole (a shorter run would leave a character of [C] in
    front of the rest of the pattern). *)
Definition m_many1 (cls : ascii -> bool) : matcher :=
  fun prev s =>
    match s with
    | c :: t => if cls c then Some (m_many cls (Some c) t) else None
    | [] => None
    end.

Definition m_many0 (cls : ascii -> bool) : matcher :=
  fun prev s => Some (m_many cls prev s).

Definition m_seq (a b : matcher) : matcher :=
  fun prev s =>
    match a prev s with
    | Some (prev', s') => b prev' s'
    | None => None
    end.

Definition m_end : matcher :=
  fun prev s => match s with [] => Some (prev, s) | _ => None end.

(** [C{n}]: exactly [n] characters of the class. *)
Fixpoint m_exactly (cls : ascii -> bool) (n : nat) : matcher :=
  fun prev s =>
    match n with
    | O => Some (prev, s)
    | S k =>
        match s with
        | c :: t => if cls c then m_exactly cls k (Some c) t else None
        | [] => None
        end
    end.

(** [C{0,n}] followed by something that cannot start with a character of
    [C]: as many characters of the class as there are, up to [n]. *)
Fixpoint m_at_most (cls : ascii -> bool) (n : nat) : matcher :=
  fun prev s =>
    match n with
    | O => Some (prev, s)
    | S k =>
        match s with
        | c :: t => if cls c then m_at_most cls k (Some c) t else Some (prev, s)
        | [] => Some (prev, s)
        end
    end.

Definition matches (m : matcher) (prev : option ascii) (s : str) : bool :=
  match m prev s with Some _ => true | None => false end.

(** [re.fullmatch(p, s)] for a pattern closed by [m_end] *)
Definition fullmatch (m : matcher) (s : str) : bool := matches (m_seq m m_end) None s.

(** [re.search(p, s)]: some position matches. *)
Fixpoint search (m : matcher) (prev : option ascii) (s : str) : bool :=
  matches m prev s ||
  match s with
  | [] => false
  | c :: t => search m (Some c) t
  end.

(** [len(re.findall(p, s))] for a pattern that never matches the empty
    string: matches are taken left to right and do not overlap; [skip]
    counts the characters of the last match still to be passed. *)
Fixpoint findall_count (m : matcher) (skip : nat) (prev : option ascii) (s : str) : nat :=
  match s with
  | [] => 0
  | c :: t =>
      match skip with
      | S k => findall_count m k (Some c) t
      | O =>
          match m prev s with
          | Some (_, rest) =>
              S (findall_count m (length s - length rest - 1) (Some c) t)
          | None => findall_count m 0 (Some c) t
          end
      end
  end.

(** [re.sub(r"\s+", " ", s)]: [in_run] tells that the previous character
    belonged to a run already replaced. *)
Fixpoint sub_ws (blankc : ascii -> bool) (in_run : bool) (s : str) : str :=
  match s with
  | [] => []
  | c :: t =>
      if blankc c
      then (if in_run then sub_ws blankc true t else blank :: sub_ws blankc true t)
      else c :: sub_ws blankc false t
  end.

End Re.

Import Re.

(** ** Exceptions *)

Module Result.

(** A raised exception: its class and its message ([str(e)]). *)
Record exn := mkExn { exn_class : string; exn_msg : str }.

Inductive result (A : Type) : Type :=
| Ok (a : A)
| Raise (e : exn).
Arguments Ok {A} a.
Arguments Raise {A} e.

Definition bind {A B} (r : result A) (k : A -> result B) : result B :=
  match r with Ok a => k a | Raise e => Raise e end.

(** [try: body  except Exception as e: handler(e)] *)
Definition try_except {A} (body : result A) (handler : exn -> result A) : result A :=
  match body with Ok a => Ok a | Raise e => handler e end.

End Result.

Import Result.

(** ** Stable sorting ([sorted], [Counter.most_common]) *)

Section StableSort.
Context {A : Type} (le : A -> A -> bool).

Fixpoint sort_insert (x : A) (l : list A) : list A :=
  match l with
  | [] => [x]
  | y :: r => if le x y then x :: l else y :: sort_insert x r
  end.

(** Insertion from the right keeps equal keys in their original order. *)
Definition stable_sort (l : list A) : list A := fold_right sort_insert [] l.

End StableSort.

(** ** [pdf_parser.py] *)

Module PdfParser.

Record PageContent := mkPage {
  page_number : nat;
  text : str;
  tables : list (list (list str));
  has_images : bool
}.

(** [metadata] is the dictionary built by [parse]: string keys, string
    values. *)
Record ParsedPitchDeck := mkDeck {
  filename : str;
  total_pages : nat;
  pages : list PageContent;
  metadata : gmap string str;
  full_text : str
}.

(** [d.get(k) or ''] *)
Definition get_or_empty (d : gmap string str) (k : string) : str :=
  default [] (d !! k).

Definition GENERIC_COVER_PHRASES : list str :=
  map lit
    [ "FOR BUSINESS"; "INVESTOR DECK"; "PITCH DECK"; "PRESENTATION";
      "COMPANY OVERVIEW"; "CONFIDENTIAL"; "PRIVATE & CONFIDENTIAL"; "DECK" ]%string.

Definition GENERIC_SUBSTRINGS : list str :=
  map lit
    [ "for business"; "investor"; "pitch deck"; "presentation";
      "company overview"; "confidential"; "private"; "do not distribute";
      "all rights reserved" ]%string.

(** [re.sub(r"\s+", " ", s).strip()] *)
Definition normalize_ws (s : str) : str := strip (sub_ws is_space false s).

Definition _is_generic_phrase (s : str) : bool :=
  match s with
  | [] => true
  | _ =>
      let s_clean := normalize_ws s in
      if str_in (upper s_clean) GENERIC_COVER_PHRASES then true
      else
        let low := lower s_clean in
        existsb (fun sub => contains sub low) GENERIC_SUBSTRINGS
  end.

(** [r"\b" + re.escape(needle) + r"\b"] *)
Definition re_whole_word (needle : str) : matcher :=
  m_seq m_boundary (m_seq (m_literal_ci needle) m_boundary).

Definition _count_occurrences (haystack needle : str) : nat :=
  match haystack, needle with
  | [], _ => 0
  | _, [] => 0
  | _, _ => findall_count (re_whole_word needle) 0 None haystack
  end.

(** [[\W_]+] *)
Definition re_symbols : matcher :=
  m_many1 (fun c => negb (is_word c) || chr_eqb c "_"%char).

(** [\d{1,4}] *)
Definition re_short_number : matcher :=
  m_seq (m_exactly is_digit 1) (m_at_most is_digit 3).

Definition _is_plausible_company_name (s : str) : bool :=
  let s := strip s in
  match s with
  | [] => false
  | _ =>
      if (length s <? 2) || (60 <? length s) then false
      else if 6 <? length (split_ws s) then false
      else if fullmatch re_symbols s then false
      else if fullmatch re_short_number s then false
      else true
  end.

Definition _is_valid_company_candidate
  (candidate early_text : str) (require_occurrences : nat) : bool :=
  let candidate := strip candidate in
  if negb (_is_plausible_company_name candidate) then false
  else if _is_generic_phrase candidate then false
  else if 0 <? require_occurrences
       then require_occurrences <=? _count_occurrences early_text candidate
       else true.

Definition _get_early_pages_text (parsed_deck : ParsedPitchDeck) (max_pages : nat) : str :=
  let ps := firstn max_pages (pages parsed_deck) in
  join [nl]
    (map text (List.filter (fun p => match text p with [] => false | _ => true end) ps)).

(** [(\d{4}|\w+\s+\d{4}|\w+\s+\d{1,2},\s*\d{4})]: the three alternatives
    of the date pattern. *)
Definition re_year : matcher := m_exactly is_digit 4.
Definition re_month_year : matcher :=
  m_seq (m_many1 is_word) (m_seq (m_many1 is_space) (m_exactly is_digit 4)).
Definition re_month_day_year : matcher :=
  m_seq (m_many1 is_word)
    (m_seq (m_many1 is_space)
       (m_seq (m_exactly is_digit 1)
          (m_seq (m_at_most is_digit 1)
             (m_seq (m_exactly (fun c => chr_eqb c ","%char) 1)
                (m_seq (m_many0 is_space) (m_exactly is_digit 4)))))).

Definition is_date_like (line : str) : bool :=
  fullmatch re_year line || fullmatch re_month_year line
  || fullmatch re_month_day_year line.

Definition nonempty (s : str) : bool := match s with [] => false | _ => true end.

(** The sort key [(len(s.split()), len(s))], compared lexicographically. *)
Definition cover_key_le (a b : str) : bool :=
  let wa := length (split_ws a) in
  let wb := length (split_ws b) in
  (wa <? wb) || ((wa =? wb) && (length a <=? length b)).

Definition _company_name_from_cover_text (first_page_text : str) : str :=
  match first_page_text with
  | [] => []
  | _ =>
      let lines :=
        List.filter nonempty (map strip (split_chr nl first_page_text)) in
      let candidates :=
        List.filter
          (fun line =>
             negb (80 <? length line)
             && negb (_is_generic_phrase line)
             && negb (is_date_like line)
             && negb (8 <? length (split_ws line)))
          (firstn 15 lines) in
      match stable_sort cover_key_le candidates with
      | [] => []
      | c :: _ => strip c
      end
  end.

(** *** The cover slide's largest text *)

Record PdfWord := mkWord {
  w_text : str;
  w_size : Q;
  w_top : Q;
  w_x0 : Q
}.

(** What pdfplumber answers for one page. *)
Record PdfPage := mkPdfPage {
  extract_text : result (option str);
  extract_tables : result (list (list (list (option str))));
  images : bool;
  extract_words : result (list PdfWord)
}.

Definition Qmax_b (a b : Q) : Q := if Qle_bool a b then b else a.

(** The sort key [(top, x0)], compared lexicographically. *)
Definition word_pos_le (a b : PdfWord) : bool :=
  negb (Qle_bool (w_top b) (w_top a))
  || (Qeq_bool (w_top a) (w_top b) && Qle_bool (w_x0 a) (w_x0 b)).

Definition _company_name_from_largest_text (page : PdfPage) : option str :=
  match extract_words page with
  | Raise _ => None
  | Ok words =>
      let words := List.filter (fun w => nonempty (strip (w_text w))) words in
      match words with
      | [] => None
      | w0 :: rest =>
          let max_size := fold_left Qmax_b (map w_size rest) (w_size w0) in
          if Qle_bool max_size 0 then None
          else
            let tol := (92 # 100)%Q in
            let big_words :=
              List.filter (fun w => Qle_bool (max_size * tol) (w_size w)) words in
            let big_words := stable_sort word_pos_le big_words in
            let candidate := strip (join [blank] (map w_text big_words)) in
            let candidate := normalize_ws candidate in
            match candidate with [] => None | _ => Some candidate end
      end
  end.

(** *** The proper-noun frequency heuristic *)

(** [[a-zA-Z0-9&.\-]] *)
Definition tok_class (c : ascii) : bool :=
  is_alnum c || chr_eqb c "&"%char || chr_eqb c "."%char || chr_eqb c "-"%char.

(** [[a-zA-Z0-9&.\-]{2,}\b] after the capital: the run is read greedily and
    given back character by character until it ends at a word boundary.
    [n] characters of the run precede [t]; [prev] is the last of them (or the
    capital). *)
Fixpoint tok_tail (prev : ascii) (t : str) (n : nat) : option nat :=
  let stop := if (2 <=? n) && at_boundary (Some prev) t then Some n else None in
  match t with
  | c :: t' =>
      if tok_class c
      then match tok_tail c t' (S n) with Some k => Some k | None => stop end
      else stop
  | [] => stop
  end.

(** [\b[A-Z][a-zA-Z0-9&.\-]{2,}\b] at one position: the length of the match. *)
Definition re_token_len (prev : option ascii) (s : str) : option nat :=
  if at_boundary prev s then
    match s with
    | c :: t => if is_upper c then option_map S (tok_tail c t 0) else None
    | [] => None
    end
  else None.

(** [re.findall] for the token pattern *)
Fixpoint findall_tokens (skip : nat) (prev : option ascii) (s : str) : list str :=
  match s with
  | [] => []
  | c :: t =>
      match skip with
      | S k => findall_tokens k (Some c) t
      | O =>
          match re_token_len prev s with
          | Some n => firstn n s :: findall_tokens (n - 1) (Some c) t
          | None => findall_tokens 0 (Some c) t
          end
      end
  end.

(** [collections.Counter]: the counts, in order of first occurrence. *)
Fixpoint counter_add (x : str) (cs : list (str * nat)) : list (str * nat) :=
  match cs with
  | [] => [(x, 1)]
  | (y, n) :: r => if str_eqb x y then (y, S n) :: r else (y, n) :: counter_add x r
  end.

Definition Counter (tokens : list str) : list (str * nat) :=
  fold_left (fun cs x => counter_add x cs) tokens [].

(** [counts.most_common(n)]: by decreasing count, equal counts in order of
    first occurrence. *)
Definition most_common (n : nat) (counts : list (str * nat)) : list (str * nat) :=
  firstn n (stable_sort (fun a b => snd b <=? snd a) counts).

Definition blacklist : list str :=
  map lit
    [ "Snaps"; "Snap"; "Stories"; "Story";
      "Confidential"; "July"; "America"; "Age"; "People"; "They"; "Our";
      "Business"; "Investor"; "Deck"; "Presentation"; "Overview";
      "Snap"; "SNAP"; "FOR"; "BUSINESS"; "GET"; "KNOW"; "HISTORY"; "OUR" ]%string.

(** [\b{n}\b\s+was\s+created\b] *)
Definition re_was_created (name : str) : matcher :=
  m_seq (re_whole_word name)
    (m_seq (m_many1 is_space)
       (m_seq (m_literal_ci (lit "was"))
          (m_seq (m_many1 is_space)
             (m_seq (m_literal_ci (lit "created")) m_boundary)))).

(** [\bAt\s+{n}\b] *)
Definition re_at_name (name : str) : matcher :=
  m_seq m_boundary
    (m_seq (m_literal_ci (lit "At"))
       (m_seq (m_many1 is_space) (m_seq (m_literal_ci name) m_boundary))).

(** [\b{n}\b\s+is\b] *)
Definition re_name_is (name : str) : matcher :=
  m_seq (re_whole_word name)
    (m_seq (m_many1 is_space) (m_seq (m_literal_ci (lit "is")) m_boundary)).

Definition pattern_bonus (early_text name : str) : Z :=
  ((if search (re_was_created name) None early_text then 8 else 0)
   + (if search (re_at_name name) None early_text then 5 else 0)
   + (if search (re_name_is name) None early_text then 3 else 0))%Z.

Definition hint_bonus (filename_low title_low name : str) : Z :=
  let low := lower name in
  ((if nonempty low && contains low filename_low then 10 else 0)
   + (if nonempty low && contains low title_low then 4 else 0))%Z.

Definition plural_penalty (name : str) : Z :=
  if endswith name (lit "s") then 2%Z else 0%Z.

Definition survives (name : str) : bool :=
  negb (str_in name blacklist)
  && _is_plausible_company_name name
  && negb (_is_generic_phrase name).

Definition score (early_text filename_low title_low name : str) (freq : nat) : Z :=
  (Z.of_nat freq * 2
   + pattern_bonus early_text name
   + hint_bonus filename_low title_low name
   - plural_penalty name)%Z.

(** One turn of the loop over [counts.most_common(30)]. *)
Definition consider (early_text filename_low title_low : str)
  (best : str * Z) (item : str * nat) : str * Z :=
  let '(name, freq) := item in
  if negb (survives name) then best
  else
    let sc := score early_text filename_low title_low name freq in
    if (snd best <? sc)%Z then (name, sc) else best.

Definition _company_name_from_proper_noun_frequency
  (early_text filename_hint title_hint : str) : str :=
  match early_text with
  | [] => []
  | _ =>
      match findall_tokens 0 None early_text with
      | [] => []
      | tokens =>
          let counts := Counter tokens in
          let filename_low := lower filename_hint in
          let title_low := lower title_hint in
          fst (fold_left (consider early_text filename_low title_low)
                 (most_common 30 counts) ([], (- 10 ^ 9)%Z))
      end
  end.

(** *** The language-model fallback *)

(** [llm_client.complete(prompt, max_tokens=50)]: the answer of the model
    (possibly [None]) or an exception. *)
Definition LLMClient := str -> result (option str).

Definition company_prompt (first_page_text : str) : str :=
  lit "Extract the company name from this pitch deck. Return ONLY the company name, nothing else."
  ++ [nl; nl] ++ lit "PITCH DECK TEXT (first page):" ++ [nl]
  ++ first_page_text ++ [nl; nl]
  ++ lit "What is the name of the company this pitch deck is for? Return only the company name (1-4 words), no explanations.".

Definition prefixes : list str :=
  map lit [ "the company name is"; "company:"; "name:"; "the company is" ]%string.

(** The loop over [prefixes]: the first prefix of [low] is cut off. *)
Fixpoint cut_prefix (ps : list str) (low company_name : str) : str :=
  match ps with
  | [] => company_name
  | prefix :: ps' =>
      if startswith low prefix then strip (skipn (length prefix) company_name)
      else cut_prefix ps' low company_name
  end.

Definition _extract_company_name_with_llm
  (llm_client : LLMClient) (parsed_deck : ParsedPitchDeck) : result str :=
  let first_page_text :=
    match pages parsed_deck with
    | p :: _ => firstn 2000 (text p)
    | [] => []
    end in
  let prompt := company_prompt first_page_text in
  try_except
    (bind (llm_client prompt) (fun response =>
       let company_name := strip (default [] response) in
       let company_name :=
         strip (remove_chr "'"%char (remove_chr "034"%char company_name)) in
       Ok (cut_prefix prefixes (lower company_name) company_name)))
    (fun _ => Ok (lit "Unknown Company")).

Definition extract_company_name
  (llm_client : option LLMClient) (parsed_deck : ParsedPitchDeck) : result str :=
  let early_text := _get_early_pages_text parsed_deck 5 in
  let guess := strip (get_or_empty (metadata parsed_deck) "company_name_guess") in
  if _is_valid_company_candidate guess early_text 2 then Ok guess
  else
    let found :=
      match pages parsed_deck with
      | p :: _ =>
          let cover_candidate := _company_name_from_cover_text (text p) in
          if _is_valid_company_candidate cover_candidate early_text 2
          then Some cover_candidate else None
      | [] => None
      end in
    match found with
    | Some c => Ok c
    | None =>
        let freq_candidate :=
          _company_name_from_proper_noun_frequency early_text
            (filename parsed_deck) (get_or_empty (metadata parsed_deck) "title") in
        if _is_valid_company_candidate freq_candidate early_text 1 then Ok freq_candidate
        else
          let title := strip (get_or_empty (metadata parsed_deck) "title") in
          if _is_valid_company_candidate title early_text 0 then Ok title
          else
            match llm_client with
            | Some llm =>
                try_except
                  (bind (_extract_company_name_with_llm llm parsed_deck)
                     (fun company_name =>
                        if _is_valid_company_candidate company_name early_text 0
                        then Ok company_name
                        else Ok (lit "Unknown Company")))
                  (fun _ => Ok (lit "Unknown Company"))
            | None => Ok (lit "Unknown Company")
            end
    end.

(** *** Ingestion *)

Definition cr : ascii := "013"%char.

(** [text.replace('\r\n', '\n')] *)
Fixpoint replace_crlf (s : str) : str :=
  match s with
  | [] => []
  | c :: r =>
      match r with
      | d :: t =>
          if chr_eqb c cr && chr_eqb d nl then nl :: replace_crlf t
          else c :: replace_crlf r
      | [] => [c]
      end
  end.

(** [text.replace('\r', '\n')] *)
Definition replace_cr (s : str) : str :=
  map (fun c => if chr_eqb c cr then nl else c) s.

(** [[\x00-\x08\x0b\x0c\x0e-\x1f\x7f-\x9f]] *)
Definition is_control (c : ascii) : bool :=
  in_range 0 8 c || in_range 11 12 c || in_range 14 31 c || in_range 127 159 c.

(** [[ \t\f\v]] *)
Definition is_inline_blank (c : ascii) : bool :=
  chr_eqb c blank || chr_eqb c "009"%char || chr_eqb c "012"%char
  || chr_eqb c "011"%char.

Definition _clean_text (text : str) : str :=
  let text := replace_cr (replace_crlf text) in
  let text := List.filter (fun c => negb (is_control c)) text in
  let cleaned_lines :=
    List.filter nonempty
      (map (fun line => strip (sub_ws is_inline_blank false line))
         (split_chr nl text)) in
  strip (join [nl] cleaned_lines).

(** What PyPDF2 answers for the document information. *)
Record PdfInfo := mkInfo {
  info_title : option str;
  info_author : option str;
  info_creator : option str;
  info_creation_date : option str
}.

(** The file behind [pdf_path], as the two libraries see it:
    [PdfReader(pdf_path)] with its [metadata] (possibly absent), and
    [pdfplumber.open(pdf_path)] with its pages. *)
Record PdfFile := mkFile {
  pdf_reader : result (option PdfInfo);
  pdf_open : result (list PdfPage)
}.

Definition clean_table (table : list (list (option str))) : list (list str) :=
  map (map (default []))
    (List.filter (fun row => match row with [] => false | _ => true end) table).

(** The body of the loop over [enumerate(pdf.pages)]. *)
Fixpoint parse_pages (i : nat) (raw : list PdfPage)
  (pages : list PageContent) (metadata : gmap string str)
  : result (list PageContent * gmap string str) :=
  match raw with
  | [] => Ok (pages, metadata)
  | page :: raw' =>
      bind (extract_text page) (fun raw_text =>
        let text := _clean_text (default [] raw_text) in
        let tables :=
          match extract_tables page with
          | Ok raw_tables => map clean_table raw_tables
          | Raise _ => []
          end in
        let has_images := images page in
        let pages := pages ++ [mkPage (i + 1) text tables has_images] in
        let metadata :=
          if i =? 0 then
            match _company_name_from_largest_text page with
            | Some guess => <["company_name_guess" := guess]> metadata
            | None => metadata
            end
          else metadata in
        parse_pages (S i) raw' pages metadata)
  end.

Definition slash : ascii := "/"%char.

Definition parse (pdf_path : str) (file : PdfFile) : result ParsedPitchDeck :=
  let metadata : gmap string str :=
    match pdf_reader file with
    | Ok (Some info) =>
        {[ "title" := strip (default [] (info_title info));
           "author" := strip (default [] (info_author info));
           "creator" := strip (default [] (info_creator info));
           "creation_date" := default [] (info_creation_date info) ]}
    | Ok None => ∅
    | Raise e => {[ "error" := exn_msg e ]}
    end in
  bind (pdf_open file) (fun raw_pages =>
    bind (parse_pages 0 raw_pages [] metadata) (fun '(pages, metadata) =>
      let full_text := join [nl; nl] (map text pages) in
      Ok (mkDeck (List.last (split_chr slash pdf_path) []) (length pages)
            pages metadata full_text))).

End PdfParser.

Import PdfParser.

(** ** [llm_client.py]: structured completion *)

Module LLM.

Definition backtick : ascii := "`"%char.
Definition fence : str := [backtick; backtick; backtick].
Definition lbrace : ascii := "{"%char.
Definition rbrace : ascii := "}"%char.

Definition json_instruction : str :=
  lit "IMPORTANT: Return ONLY valid JSON, no other text or markdown formatting.".

(** [lines[1:-1] if lines[-1].startswith('```') else lines[1:]] *)
Definition unfence_lines (lines : list str) : list str :=
  if startswith (List.last lines []) fence then removelast (tl lines) else tl lines.

(** The cleaning of the response between [self.complete] and [json.loads]. *)
Definition clean_response (response : str) : str :=
  let response := strip response in
  let response :=
    if startswith response fence
    then join [nl] (unfence_lines (split_chr nl response))
    else response in
  match find_chr lbrace response, rfind_chr rbrace response with
  | Some start, Some last_brace =>
      let end_ := last_brace + 1 in
      if start <? end_ then slice start end_ response else response
  | _, _ => response
  end.

Section CompleteWithJson.

(** [json.loads] belongs to the Python library and [self.complete] to the
    configured provider: both are parameters here. *)
Context {value : Type}.
Variable json_loads : str -> result value.
Variable complete : str -> option str -> result str.

Definition complete_with_json (prompt : str) (system_prompt : option str)
  : result value :=
  let json_prompt := prompt ++ [nl; nl] ++ json_instruction in
  bind (complete json_prompt system_prompt) (fun response =>
    json_loads (clean_response response)).

End CompleteWithJson.

End LLM.

Import LLM.

(** ** A reference JSON reader

    Used where a theorem needs [json.loads] on a given text: the JSON grammar
    with numbers kept as their lexemes and the one-character escapes of
    strings. *)

Module Json.

#[warnings="-register-all"]
Inductive json : Type :=
| JNull
| JBool (b : bool)
| JNumber (lexeme : str)
| JString (s : str)
| JArray (items : list json)
| JObject (members : list (str * json)).

Definition dquote : ascii := "034"%char.
Definition backslash : ascii := "\"%char.

Definition is_json_ws (c : ascii) : bool :=
  chr_eqb c blank || chr_eqb c "009"%char || chr_eqb c nl || chr_eqb c "013"%char.

Fixpoint skip_ws (s : str) : str :=
  match s with
  | c :: t => if is_json_ws c then skip_ws t else s
  | [] => []
  end.

Definition unescape (c : ascii) : option ascii :=
  if chr_eqb c dquote then Some dquote
  else if chr_eqb c backslash then Some backslash
  else if chr_eqb c "/"%char then Some "/"%char
  else if chr_eqb c "n"%char then Some nl
  else if chr_eqb c "t"%char then Some "009"%char
  else if chr_eqb c "r"%char then Some "013"%char
  else if chr_eqb c "b"%char then Some "008"%char
  else if chr_eqb c "f"%char then Some "012"%char
  else None.

(** The characters of a string after its opening quote. *)
Fixpoint read_string (acc : str) (s : str) : option (str * str) :=
  match s with
  | [] => None
  | c :: t =>
      if chr_eqb c dquote then Some (rev acc, t)
      else if chr_eqb c backslash then
        match t with
        | e :: t' =>
            match unescape e with
            | Some x => read_string (x :: acc) t'
            | None => None
            end
        | [] => None
        end
      else if (code c <? 32)%N then None
      else read_string (c :: acc) t
  end.

Fixpoint take_digits (s : str) : str * str :=
  match s with
  | c :: t => if is_digit c then let '(d, r) := take_digits t in (c :: d, r) else ([], s)
  | [] => ([], [])
  end.

(** [-?digits(.digits)?([eE][+-]?digits)?] *)
Definition read_number (s : str) : option (str * str) :=
  let '(sign, s1) :=
    match s with
    | c :: t => if chr_eqb c "-"%char then ([c], t) else ([], s)
    | [] => ([], s)
    end in
  match take_digits s1 with
  | ([], _) => None
  | (int, s2) =>
      let '(frac, s3) :=
        match s2 with
        | c :: t =>
            if chr_eqb c "."%char then
              match take_digits t with
              | ([], _) => ([], s2)
              | (d, r) => (c :: d, r)
              end
            else ([], s2)
        | [] => ([], s2)
        end in
      let '(ex, s4) :=
        match s3 with
        | c :: t =>
            if chr_eqb c "e"%char || chr_eqb c "E"%char then
              let '(sg, t') :=
                match t with
                | g :: u =>
                    if chr_eqb g "+"%char || chr_eqb g "-"%char then ([g], u) else ([], t)
                | [] => ([], t)
                end in
              match take_digits t' with
              | ([], _) => ([], s3)
              | (d, r) => (c :: sg ++ d, r)
              end
            else ([], s3)
        | [] => ([], s3)
        end in
      Some (sign ++ int ++ frac ++ ex, s4)
  end.

Definition strip_prefix (p s : str) : option str :=
  if startswith s p then Some (skipn (length p) s) else None.

Fixpoint read_value (fuel : nat) (s : str) : option (json * str) :=
  match fuel with
  | O => None
  | S f =>
      match skip_ws s with
      | [] => None
      | c :: r =>
          if chr_eqb c lbrace then
            match skip_ws r with
            | d :: r' => if chr_eqb d rbrace then Some (JObject [], r') else read_members f [] r
            | [] => None
            end
          else if chr_eqb c "["%char then
            match skip_ws r with
            | d :: r' => if chr_eqb d "]"%char then Some (JArray [], r') else read_items f [] r
            | [] => None
            end
          else if chr_eqb c dquote then
            match read_string [] r with
            | Some (x, r') => Some (JString x, r')
            | None => None
            end
          else
            match strip_prefix (lit "null") (c :: r) with
            | Some r' => Some (JNull, r')
            | None =>
            match strip_prefix (lit "true") (c :: r) with
            | Some r' => Some (JBool true, r')
            | None =>
            match strip_prefix (lit "false") (c :: r) with
            | Some r' => Some (JBool false, r')
            | None =>
            match read_number (c :: r) with
            | Some (x, r') => Some (JNumber x, r')
            | None => None
            end end end end
      end
  end
with read_items (fuel : nat) (acc : list json) (s : str) : option (json * str) :=
  match fuel with
  | O => None
  | S f =>
      match read_value f s with
      | Some (v, r) =>
          match skip_ws r with
          | c :: r' =>
              if chr_eqb c ","%char then read_items f (v :: acc) r'
              else if chr_eqb c "]"%char then Some (JArray (rev (v :: acc)), r')
              else None
          | [] => None
          end
      | None => None
      end
  end
with read_members (fuel : nat) (acc : list (str * json)) (s : str) : option (json * str) :=
  match fuel with
  | O => None
  | S f =>
      match skip_ws s with
      | q :: r =>
          if chr_eqb q dquote then
            match read_string [] r with
            | Some (k, r1) =>
                match skip_ws r1 with
                | c :: r2 =>
                    if chr_eqb c ":"%char then
                      match read_value f r2 with
                      | Some (v, r3) =>
                          match skip_ws r3 with
                          | d :: r4 =>
                              if chr_eqb d ","%char then read_members f ((k, v) :: acc) r4
                              else if chr_eqb d rbrace then
                                Some (JObject (rev ((k, v) :: acc)), r4)
                              else None
                          | [] => None
                          end
                      | None => None
                      end
                    else None
                | [] => None
                end
            | None => None
            end
          else None
      | [] => None
      end
  end.

Definition JSONDecodeError (msg : string) : exn := mkExn "JSONDecodeError" (lit msg).

Definition loads (s : str) : result json :=
  match read_value (S (length s)) s with
  | Some (v, rest) =>
      match skip_ws rest with
      | [] => Ok v
      | _ => Raise (JSONDecodeError "Extra data")
      end
  | None => Raise (JSONDecodeError "Expecting value")
  end.

End Json.

(** ** [web_search.py]

    Time is the reading of [time.time()] in milliseconds; [time.sleep(d)]
    advances it by [d], and a provider call advances it by the latency the
    provider takes to answer.  The class attribute
    [WebSearchClient._last_ddg_search_time] lives in the world shared by all
    clients, the instance attributes in [Client]. *)

Module WebSearch.

Local Open Scope Z_scope.

(** One entry of a provider's answer. *)
Record RawHit := mkRawHit { hit_url : str; hit_title : str; hit_body : str }.

Record Hit := mkHit {
  url : str;
  title : str;
  snippet : str;
  source : str;
  timestamp : Z
}.

Record Reply := mkReply { outcome : result (list RawHit); latency : Z }.

(** The surroundings of the client: the configuration, the two provider
    libraries (the [n]-th call of a process gets the [n]-th reply) and
    [urlparse(url).netloc], which raises on an address it cannot parse. *)
Record Env := mkEnv {
  tavily_api_key : bool;
  tavily_new : result unit;
  tavily_search : nat -> str -> Reply;
  ddgs_new : result unit;
  ddg_text : nat -> str -> Reply;
  netloc : str -> result str
}.

Inductive Event : Type :=
| TavilyCall (at_ : Z) (query : str)
| DdgCall (at_ : Z) (handle : nat) (query : str)
| Sleep (at_ : Z) (duration : Z).

Record World := mkWorld {
  clock : Z;
  _last_ddg_search_time : Z;
  tavily_calls : nat;
  ddg_calls : nat;
  handles : nat;
  trace : list Event
}.

Record Client := mkClient {
  max_results : nat;
  _tavily_client : option nat;
  _ddg : option nat;
  _use_tavily : bool
}.

Definition _min_ddg_delay : Z := 2500.

Definition sleep (d : Z) (w : World) : World :=
  mkWorld (clock w + d) (_last_ddg_search_time w) (tavily_calls w) (ddg_calls w)
    (handles w) (trace w ++ [Sleep (clock w) d]).

Definition new_handle (w : World) : nat * World :=
  (handles w,
   mkWorld (clock w) (_last_ddg_search_time w) (tavily_calls w) (ddg_calls w)
     (S (handles w)) (trace w)).

Definition set_last_ddg_search_time (w : World) : World :=
  mkWorld (clock w) (clock w) (tavily_calls w) (ddg_calls w) (handles w) (trace w).

Definition set_use_tavily (b : bool) (self : Client) : Client :=
  mkClient (max_results self) (_tavily_client self) (_ddg self) b.
Definition set_ddg (h : option nat) (self : Client) : Client :=
  mkClient (max_results self) (_tavily_client self) h (_use_tavily self).
Definition set_tavily_client (h : option nat) (self : Client) : Client :=
  mkClient (max_results self) h (_ddg self) (_use_tavily self).

Definition ImportError (msg : str) : exn := mkExn "ImportError" msg.

(** [WebSearchClient(max_results)] *)
Definition __init__ (env : Env) (max_results : nat) (w : World) : Client * World :=
  let self := mkClient max_results None None false in
  if tavily_api_key env then
    match tavily_new env with
    | Ok _ =>
        let '(h, w) := new_handle w in
        (set_use_tavily true (set_tavily_client (Some h) self), w)
    | Raise _ => (self, w)
    end
  else (self, w).

Definition _get_tavily_client (env : Env) (self : Client) (w : World)
  : result (option nat) * Client * World :=
  match _tavily_client self with
  | None =>
      if tavily_api_key env then
        match tavily_new env with
        | Ok _ =>
            let '(h, w) := new_handle w in
            (Ok (Some h), set_tavily_client (Some h) self, w)
        | Raise e =>
            if String.eqb (exn_class e) "ImportError"
            then (Raise (ImportError
                     (lit "tavily-python package not installed." ++ [nl]
                      ++ lit "Run: pip install tavily-python" ++ [nl]
                      ++ lit "Get free API key at: https://tavily.com")), self, w)
            else (Raise (mkExn "Exception" (lit "Tavily initialization failed: " ++ exn_msg e)),
                  self, w)
        end
      else (Ok None, self, w)
  | Some h => (Ok (Some h), self, w)
  end.

Definition _get_ddg_client (env : Env) (self : Client) (w : World)
  : result nat * Client * World :=
  match _ddg self with
  | None =>
      match ddgs_new env with
      | Ok _ =>
          let '(h, w) := new_handle w in
          (Ok h, set_ddg (Some h) self, w)
      | Raise e =>
          if String.eqb (exn_class e) "ImportError"
          then (Raise (ImportError
                     (lit "duckduckgo-search package not installed." ++ [nl]
                      ++ lit "Run: pip install duckduckgo-search")), self, w)
          else (Raise e, self, w)
      end
  | Some h => (Ok h, self, w)
  end.

Definition _extract_source (env : Env) (u : str) : str :=
  match netloc env u with
  | Ok parsed_netloc =>
      let domain := lower parsed_netloc in
      if startswith domain (lit "www.") then skipn 4 domain else domain
  | Raise _ => u
  end.

Definition process (env : Env) (now : Z) (r : RawHit) : Hit :=
  mkHit (hit_url r) (hit_title r) (hit_body r) (_extract_source env (hit_url r)) now.

Definition call_tavily (env : Env) (query : str) (w : World) : Reply * World :=
  let reply := tavily_search env (tavily_calls w) query in
  (reply,
   mkWorld (clock w + latency reply) (_last_ddg_search_time w) (S (tavily_calls w))
     (ddg_calls w) (handles w) (trace w ++ [TavilyCall (clock w) query])).

Definition call_ddg (env : Env) (h : nat) (query : str) (w : World) : Reply * World :=
  let reply := ddg_text env (ddg_calls w) query in
  (reply,
   mkWorld (clock w + latency reply) (_last_ddg_search_time w) (tavily_calls w)
     (S (ddg_calls w)) (handles w) (trace w ++ [DdgCall (clock w) h query])).

Definition _search_tavily (env : Env) (self : Client) (query : str) (w : World)
  : result (list Hit) * Client * World :=
  match _get_tavily_client env self w with
  | (Raise e, self, w) => (Raise e, self, w)
  | (Ok client, self, w) =>
      let '(body, w) :=
        match client with
        | None =>
            (Raise (mkExn "AttributeError"
                      (lit "'NoneType' object has no attribute 'search'")), w)
        | Some _ =>
            let '(reply, w) := call_tavily env query w in
            match outcome reply with
            | Ok results => (Ok (map (process env (clock w)) results), w)
            | Raise e => (Raise e, w)
            end
        end in
      match body with
      | Ok processed_results => (Ok processed_results, self, w)
      | Raise e =>
          let error_str := lower (exn_msg e) in
          let self :=
            if contains (lit "quota") error_str || contains (lit "limit") error_str
            then set_use_tavily false self else self in
          (Raise e, self, w)
      end
  end.

Definition is_rate_limit (error_str : str) : bool :=
  contains (lit "ratelimit") error_str || contains (lit "rate limit") error_str
  || contains (lit "429") error_str.

Definition is_connection_issue (error_str : str) : bool :=
  contains (lit "timeout") error_str || contains (lit "connection") error_str.

(** The [try] block of one turn of the loop
    [for attempt in range(retry_count + 1)]. *)
Definition ddg_try (env : Env) (query : str) (attempt : nat)
  (self : Client) (w : World) : result (list Hit) * Client * World :=
  let current_time := clock w in
  let time_since_last := current_time - _last_ddg_search_time w in
  let w :=
    if time_since_last <? _min_ddg_delay
    then sleep (_min_ddg_delay - time_since_last) w else w in
  let w := if (0 <? attempt)%nat then sleep 3000 w else w in
  match _get_ddg_client env self w with
  | (Raise e, self, w) => (Raise e, self, w)
  | (Ok ddg, self, w) =>
      let '(reply, w) := call_ddg env ddg query w in
      match outcome reply with
      | Raise e => (Raise e, self, w)
      | Ok results =>
          let processed_results := map (process env (clock w)) results in
          let w := set_last_ddg_search_time w in
          let w := sleep 500 w in
          (Ok processed_results, self, w)
      end
  end.

(** The [except Exception as e] block: [Some r] when the turn returns [r],
    [None] when the loop goes on. *)
Definition ddg_except (retry_count attempt : nat) (e : exn)
  (self : Client) (w : World) : option (list Hit) * Client * World :=
  let error_str := lower (exn_msg e) in
  if is_rate_limit error_str && (attempt <? retry_count)%nat then
    let wait_time := (Z.of_nat attempt + 1) * 5 in
    (None, set_ddg None self, sleep (wait_time * 1000) w)
  else if is_connection_issue error_str then
    let wait_time := (Z.of_nat attempt + 1) * 3 in
    (None, set_ddg None self, sleep (wait_time * 1000) w)
  else (Some [], self, w).

(** One turn of the loop. *)
Definition ddg_attempt (env : Env) (query : str) (retry_count attempt : nat)
  (self : Client) (w : World) : option (list Hit) * Client * World :=
  match ddg_try env query attempt self w with
  | (Ok processed_results, self, w) => (Some processed_results, self, w)
  | (Raise e, self, w) => ddg_except retry_count attempt e self w
  end.

(** The loop, with [left] turns to go. *)
Fixpoint ddg_loop (env : Env) (query : str) (retry_count attempt left : nat)
  (self : Client) (w : World) : list Hit * Client * World :=
  match left with
  | O => ([], self, w)
  | S left' =>
      match ddg_attempt env query retry_count attempt self w with
      | (Some r, self, w) => (r, self, w)
      | (None, self, w) => ddg_loop env query retry_count (S attempt) left' self w
      end
  end.

Definition _search_duckduckgo (env : Env) (self : Client) (query : str)
  (retry_count : nat) (w : World) : list Hit * Client * World :=
  ddg_loop env query retry_count 0 (retry_count + 1) self w.

Definition search (env : Env) (self : Client) (query : str) (retry_count : nat)
  (w : World) : list Hit * Client * World :=
  if _use_tavily self && tavily_api_key env then
    match _search_tavily env self query w with
    | (Ok r, self, w) => (r, self, w)
    | (Raise _, self, w) =>
        let self := set_use_tavily false self in
        _search_duckduckgo env self query retry_count w
    end
  else _search_duckduckgo env self query retry_count w.

(** A session: the searches one client issues in turn. *)
Fixpoint session (env : Env) (self : Client) (queries : list (str * nat))
  (w : World) : Client * World :=
  match queries with
  | [] => (self, w)
  | (q, rc) :: rest =>
      let '(_, self, w) := search env self q rc w in
      session env self rest w
  end.

Definition ddg_call_times (t : list Event) : list Z :=
  flat_map (fun e => match e with DdgCall at_ _ _ => [at_] | _ => [] end) t.

Definition tavily_call_count (t : list Event) : nat :=
  length (List.filter (fun e => match e with TavilyCall _ _ => true | _ => false end) t).

(** What the fallback path leaves untouched: the flag of the primary
    provider and the calls made to it. *)
Definition same_primary (self : Client) (w : World) (self' : Client) (w' : World) : Prop :=
  _use_tavily self' = _use_tavily self
  /\ tavily_call_count (trace w') = tavily_call_count (trace w).

(** [w'] continues [w], and every fallback call made in between was issued
    at or after [bound]. *)
Definition calls_since (bound : Z) (w w' : World) : Prop :=
  exists evs,
    trace w' = trace w ++ evs
    /\ forall at_ h q, In (DdgCall at_ h q) evs -> bound <= at_.

End WebSearch.

Import WebSearch.

(** ** The cascade of [extract_company_name], as the specification words it:
    an ordered list of candidates, each with the number of occurrences its
    stage requires; the first one that passes the validation gate wins. *)

Module NameCascade.

Definition sentinel : str := lit "Unknown Company".

Definition cascade_candidates (llm_client : option LLMClient)
  (parsed_deck : ParsedPitchDeck) : list (str * nat) :=
  let early_text := _get_early_pages_text parsed_deck 5 in
  [(strip (get_or_empty (metadata parsed_deck) "company_name_guess"), 2)]
  ++ match pages parsed_deck with
     | p :: _ => [(_company_name_from_cover_text (text p), 2)]
     | [] => []
     end
  ++ [(_company_name_from_proper_noun_frequency early_text (filename parsed_deck)
         (get_or_empty (metadata parsed_deck) "title"), 1);
      (strip (get_or_empty (metadata parsed_deck) "title"), 0)]
  ++ match llm_client with
     | Some llm =>
         match _extract_company_name_with_llm llm parsed_deck with
         | Ok c => [(c, 0)]
         | Raise _ => []
         end
     | None => []
     end.

Definition passes (early_text : str) (c : str * nat) : bool :=
  _is_valid_company_candidate (fst c) early_text (snd c).

Definition first_passing (llm_client : option LLMClient)
  (parsed_deck : ParsedPitchDeck) : option str :=
  option_map fst
    (List.find (passes (_get_early_pages_text parsed_deck 5))
       (cascade_candidates llm_client parsed_deck)).

(** The raw occurrence count of a token among the tokens of the text. *)
Definition occurrences (tokens : list str) (t : str) : nat :=
  length (List.filter (str_eqb t) tokens).

(** The counts agree with the tokens read so far. *)
Definition counts_of (cs : list (str * nat)) (ts : list str) : Prop :=
  List.NoDup (map fst cs)
  /\ (forall t n, In (t, n) cs -> n = occurrences ts t)
  /\ (forall t, In t ts -> In t (map fst cs)).

End NameCascade.

(** ** The shape of a response that carries one JSON object, as the
    specification words it: the object runs from the first opening brace to
    the last closing brace of the text, possibly inside one fenced block. *)

Module ResponseShape.

Definition object_text (j : str) : Prop := exists mid, j = lbrace :: mid ++ [rbrace].

(** [j] is what lies between the first [{] and the last [}] of [body]. *)
Definition embeds (body j : str) : Prop :=
  exists pre post, body = pre ++ j ++ post /\ ~ In lbrace pre /\ ~ In rbrace post.


End ResponseShape.

(** ** What ingestion makes of one page that can be read *)

Module PageSpec.

Definition page_text (p : PdfPage) : str :=
  match extract_text p with
  | Ok t => _clean_text (default [] t)
  | Raise _ => []
  end.

Definition readable (p : PdfPage) : Prop := exists t, extract_text p = Ok t.

End PageSpec.

Import PageSpec.

Import ResponseShape.

Import NameCascade.

(** ** Concrete documents and texts used by the examples *)

Module Examples.


(** A document without pages titled [Acme Robotics]. *)
Definition deck_titled_acme : ParsedPitchDeck :=
  mkDeck (lit "deck.pdf") 0 [] {[ "title" := lit "Acme Robotics" ]} [].

(** Thirty capitalised words, each written twice, and the name [Acme] once;
    the file is named after the company. *)
Definition crowded_text : str :=
  lit "Alpha Alpha Bravo Bravo Charlie Charlie Delta Delta Echo Echo Foxtrot Foxtrot Golf Golf Hotel Hotel India India Juliet Juliet Kilo Kilo Lima Lima Mike Mike November November Oscar Oscar Papa Papa Quebec Quebec Romeo Romeo Sierra Sierra Tango Tango Uniform Uniform Victor Victor Whiskey Whiskey Xray Xray Yankee Yankee Zulu Zulu Gamma Gamma Theta Theta Sigma Sigma Omega Omega Acme".

Definition crowded_filename : str := lit "Acme_pitch.pdf".

(** [Acme was created in 2015], three times. *)
Definition acme_text : str :=
  lit "Acme was created in 2015" ++ [nl] ++ lit "Acme was created in 2015" ++ [nl]
  ++ lit "Acme was created in 2015".

(** The text [{"a":1}]. *)
Definition object_a1 : str :=
  [lbrace; Json.dquote] ++ lit "a" ++ [Json.dquote] ++ lit ":1" ++ [rbrace].



(** A model that always gives the same answer. *)
Definition answering (response : str) : str -> option str -> result str :=
  fun _ _ => Ok response.

(** A path that cannot be opened: both libraries raise. *)
Definition missing_error : exn :=
  mkExn "FileNotFoundError" (lit "[Errno 2] No such file or directory: 'missing.pdf'").

Definition missing_file : PdfFile := mkFile (Raise missing_error) (Raise missing_error).

(** A file whose document information cannot be read but whose two pages
    can. *)
Definition plain_page (t : string) : PdfPage :=
  mkPdfPage (Ok (Some (lit t))) (Ok []) false (Ok []).

Definition broken_info_error : exn := mkExn "PdfReadError" (lit "EOF marker not found").

Definition broken_info_file : PdfFile :=
  mkFile (Raise broken_info_error)
    (Ok [plain_page "Acme Robotics"; plain_page "Our market"]).

(** The process starts at some reading of the clock, long after the
    initial value 0 of [_last_ddg_search_time]. *)
Definition start_world : World := mkWorld 1700000000000 0 0 0 0 [].

(** No primary credential; the fallback provider answers its first three
    calls with a rate-limit error and the fourth with no result, each after
    150 ms. *)
Definition rate_limited_env : Env :=
  mkEnv false (Ok tt) (fun _ _ => mkReply (Ok []) 0) (Ok tt)
    (fun n _ =>
       if (n <? 3)%nat
       then mkReply (Raise (mkExn "DuckDuckGoSearchException" (lit "202 Ratelimit"))) 150
       else mkReply (Ok []) 150)
    (fun u => Ok u).

(** A primary credential is configured and the primary provider fails. *)
Definition tavily_down_env : Env :=
  mkEnv true (Ok tt)
    (fun _ _ => mkReply (Raise (mkExn "HTTPError" (lit "500 Server Error"))) 100)
    (Ok tt) (fun _ _ => mkReply (Ok []) 150) (fun u => Ok u).

(** The clients the two processes start with. *)
Definition fallback_client : Client := fst (__init__ rate_limited_env 5 start_world).
Definition primary_client : Client := fst (__init__ tavily_down_env 5 start_world).
Definition primary_world : World := snd (__init__ tavily_down_env 5 start_world).

End Examples.

Import Examples.

(** A text is tight when it is not empty, begins and ends with a character
    that is not white space, and has no white space inside but single
    blanks.  [after_blank] tells that the previous character was a blank (or
    that the text begins here). *)

Module Shape.

Fixpoint tight_from (after_blank : bool) (s : str) : bool :=
  match s with
  | [] => negb after_blank
  | c :: t =>
      if chr_eqb c blank then negb after_blank && tight_from true t
      else negb (is_space c) && tight_from false t
  end.

Definition tight (s : str) : bool := tight_from true s.

End Shape.

Import Shape.

(** ** Further functions of the sources *)

Module PdfParserMore.

(** [ParsedPitchDeck.get_text_by_page] *)
Fixpoint get_text_in (ps : list PageContent) (page_num : nat) : str :=
  match ps with
  | [] => []
  | page :: rest =>
      if page_number page =? page_num then PdfParser.text page
      else get_text_in rest page_num
  end.

Definition get_text_by_page (deck : ParsedPitchDeck) (page_num : nat) : str :=
  get_text_in (pages deck) page_num.

Definition section_keywords : list (string * list str) :=
  [ ("problem", map lit ["problem"; "challenge"; "pain point"]);
    ("solution", map lit ["solution"; "our product"; "how we solve"]);
    ("market", map lit ["market"; "tam"; "sam"; "som"; "market size"; "opportunity"]);
    ("business_model",
       map lit ["business model"; "revenue model"; "how we make money"; "monetization"]);
    ("traction", map lit ["traction"; "metrics"; "growth"; "customers"; "users"]);
    ("competition", map lit ["competition"; "competitive"; "landscape"; "competitors"]);
    ("team", map lit ["team"; "founders"; "leadership"; "about us"]);
    ("financials", map lit ["financials"; "projections"; "revenue"; "forecast"]);
    ("ask", map lit ["ask"; "funding"; "investment"; "raise"; "use of funds"]) ]%string.

(** [extract_sections]: the dictionary it returns, its keys in the order
    they are set (the keys of [section_keywords] are distinct). *)
Definition extract_sections (parsed_deck : ParsedPitchDeck) : list (string * bool) :=
  let full_text_lower := lower (full_text parsed_deck) in
  map (fun '(section_name, keywords) =>
         (section_name, existsb (fun keyword => contains keyword full_text_lower) keywords))
    section_keywords.

End PdfParserMore.

Import PdfParserMore.

(** Texts whose white space has been replaced: [loose_from] is [tight_from]
    without the conditions on the two ends. *)

Module MoreShapes.

Fixpoint loose_from (after_blank : bool) (s : str) : bool :=
  match s with
  | [] => true
  | c :: t =>
      if chr_eqb c blank then negb after_blank && loose_from true t
      else negb (is_space c) && loose_from false t
  end.

(** The shape of a token of the frequency heuristic: a capital followed by
    two or more characters of the class. *)
Definition token_shape (t : str) : Prop :=
  exists c rest, t = c :: rest /\ is_upper c = true /\ 2 <= length rest
                 /\ forallb tok_class rest = true.

(** The characters [_clean_text] leaves in a text, and those it leaves
    inside a line. *)
Definition kept_char (c : ascii) : bool := negb (is_control c) && negb (chr_eqb c cr).
Definition line_char (c : ascii) : bool := kept_char c && negb (chr_eqb c nl).

(** [line.strip()] after [re.sub(r'[ \t\f\v]+', ' ', line)] *)
Definition clean_line (line : str) : str := strip (sub_ws is_inline_blank false line).

End MoreShapes.

Import MoreShapes.

(** ** [config.py] and the construction of [LLMClient] *)

Module LLMInit.

(** The fields [Config] declares. *)
Record Config := mkConfig {
  cfg_gemini_api_key : option str;
  cfg_openrouter_api_key : option str;
  cfg_llm_provider : str;
  cfg_llm_model : str;
  cfg_gmail_address : option str;
  cfg_gmail_app_password : option str;
  cfg_report_recipient : option str;
  cfg_tavily_api_key : option str;
  cfg_search_provider : str;
  cfg_investor_name : str;
  cfg_investor_focus_areas : str;
  cfg_investment_stage : str
}.

(** The truth value of an optional string: [None] and the empty string are
    false. *)
Definition truthy (o : option str) : bool :=
  match o with Some (_ :: _) => true | _ => false end.

Definition ValueError (msg : str) : exn := mkExn "ValueError" msg.

(** [Config.validate] *)
Definition validate (config : Config) : result bool :=
  if str_eqb (cfg_llm_provider config) (lit "openrouter")
     && negb (truthy (cfg_openrouter_api_key config))
  then Raise (ValueError
                (lit "OPENROUTER_API_KEY must be set in .env file when using openrouter provider"))
  else if str_eqb (cfg_llm_provider config) (lit "gemini")
          && negb (truthy (cfg_gemini_api_key config))
  then Raise (ValueError
                (lit "GEMINI_API_KEY must be set in .env file when using gemini provider"))
  else Ok true.

(** The packages that can be imported, and what the constructors of the
    provider libraries answer. *)
Record Packages := mkPackages {
  has_requests : bool;
  has_genai : bool;
  genai_model : str -> result unit;
  has_openai : bool;
  has_anthropic : bool
}.

Record LLMClientState := mkLLM {
  llm_provider : str;
  llm_model : str;
  llm_client_handle : bool;
  _openrouter_api_key : option str;
  _openrouter_base_url : option str
}.

(** [x or y] on strings *)
Definition str_or (x : option str) (y : str) : str :=
  match x with Some (c :: t) => c :: t | _ => y end.

(** Reading an attribute that [Config] does not declare. *)
Definition missing_attribute (name : string) : exn :=
  mkExn "AttributeError" (lit "'Config' object has no attribute '" ++ lit name ++ lit "'").

(** [LLMClient.__init__] with [_initialize_client] *)
Definition new_llm_client (config : Config) (pk : Packages)
  (provider model : option str) : result LLMClientState :=
  let provider := str_or provider (cfg_llm_provider config) in
  let model := str_or model (cfg_llm_model config) in
  if str_eqb provider (lit "openrouter") then
    if negb (has_requests pk)
    then Raise (ImportError (lit "requests package not installed. Run: pip install requests"))
    else if negb (truthy (cfg_openrouter_api_key config))
    then Raise (ValueError
                  (lit "OPENROUTER_API_KEY not set in .env file." ++ [nl]
                   ++ lit "Get your API key at: https://openrouter.ai/keys"))
    else
      let key := strip (default [] (cfg_openrouter_api_key config)) in
      match key with
      | [] =>
          Raise (ValueError
                   (lit "OPENROUTER_API_KEY is empty. Please check your .env file." ++ [nl]
                    ++ lit "Get your API key at: https://openrouter.ai/keys"))
      | _ =>
          Ok (mkLLM provider model false (Some key)
                (Some (lit "https://openrouter.ai/api/v1")))
      end
  else if str_eqb provider (lit "gemini") then
    if negb (has_genai pk)
    then Raise (ImportError
                  (lit "Google Generative AI package not installed." ++ [nl]
                   ++ lit "Run: pip install google-generativeai"))
    else if negb (truthy (cfg_gemini_api_key config))
    then Raise (ValueError
                  (lit "GEMINI_API_KEY not set in .env file." ++ [nl]
                   ++ lit "Get your free API key at: https://aistudio.google.com/app/apikey"))
    else
      match genai_model pk (str_or (Some model) (lit "gemini-1.5-flash")) with
      | Ok _ => Ok (mkLLM provider model true None None)
      | Raise e =>
          if String.eqb (exn_class e) "ImportError"
          then Raise (ImportError
                        (lit "Google Generative AI package not installed." ++ [nl]
                         ++ lit "Run: pip install google-generativeai"))
          else Raise e
      end
  else if str_eqb provider (lit "openai") then
    if negb (has_openai pk)
    then Raise (ImportError (lit "OpenAI package not installed. Run: pip install openai"))
    else Raise (missing_attribute "openai_api_key")
  else if str_eqb provider (lit "anthropic") then
    if negb (has_anthropic pk)
    then Raise (ImportError (lit "Anthropic package not installed. Run: pip install anthropic"))
    else Raise (missing_attribute "anthropic_api_key")
  else Raise (ValueError (lit "Unsupported LLM provider: " ++ provider)).

End LLMInit.

Import LLMInit.

(** ** [app.py]: the upload filter *)

Module App.

Definition dot : ascii := "."%char.

(** ['.' in filename and filename.rsplit('.', 1)[1].lower() == 'pdf'] *)
Definition allowed_file (filename : str) : bool :=
  match rfind_chr dot filename with
  | None => false
  | Some i => str_eqb (lower (skipn (S i) filename)) (lit "pdf")
  end.

End App.

Import App.

(** ** Invariants of the search client *)

Module SearchSpec.

(** A client that may use the primary provider has a client for it. *)
Definition primary_ready (self : Client) : Prop :=
  _use_tavily self = true -> exists h, _tavily_client self = Some h.

(** Every hit carries the source computed from its own address. *)
Definition normalised (env : Env) (hits : list Hit) : Prop :=
  forall h, In h hits -> source h = _extract_source env (url h).


End SearchSpec.

Import SearchSpec.

(** ** Texts of ASCII characters *)

Module AsciiText.

(** On a text of ASCII characters [str.upper], [str.lower] and the
    case-insensitive matching of [re] are the maps [upper], [lower] and
    [m_literal_ci] of this file. *)
Definition is_ascii (c : ascii) : bool := (code c <? 128)%N.
Definition ascii_text (s : str) : Prop := forallb is_ascii s = true.

End AsciiText.

Import AsciiText.

(** ** More concrete inputs *)

Module MoreExamples.

Definition lbracket : ascii := "["%char.
Definition rbracket : ascii := "]"%char.

(** The text [{"b":2}] and the array of the two objects. *)
Definition object_b2 : str :=
  [lbrace; Json.dquote] ++ lit "b" ++ [Json.dquote] ++ lit ":2" ++ [rbrace].

Definition array_of_objects : str :=
  [lbracket] ++ (object_a1 ++ lit "," ++ object_b2) ++ [rbracket].

(** A configuration whose OpenRouter key is blank. *)
Definition blank_key_config : Config :=
  mkConfig None (Some (lit "   ")) (lit "openrouter") (lit "google/gemini-2.0-flash-exp")
    None None None None (lit "tavily") (lit "Investor")
    (lit "B2B SaaS, FinTech, AI/ML") (lit "Series A").

Definition all_packages : Packages := mkPackages true true (fun _ => Ok tt) true true.

(** A configuration that names the provider [openai]. *)
Definition openai_config : Config :=
  mkConfig None None (lit "openai") (lit "gpt-4o")
    None None None None (lit "tavily") (lit "Investor")
    (lit "B2B SaaS, FinTech, AI/ML") (lit "Series A").

(** The host of an address that begins with [https://]; an address with an
    opening square bracket and no closing one is refused, as [urlparse]
    refuses it with [ValueError: Invalid IPv6 URL]. *)
Definition host_of (u : str) : result str :=
  let rest := if startswith u (lit "https://") then skipn 8 u else [] in
  let host :=
    match find_chr slash rest with
    | Some i => firstn i rest
    | None => rest
    end in
  if existsb (chr_eqb lbracket) host && negb (existsb (chr_eqb rbracket) host)
  then Raise (ValueError (lit "Invalid IPv6 URL"))
  else Ok host.

(** No primary credential; the fallback provider answers every call with two
    hits, the second with an address that cannot be parsed, after 150 ms. *)
Definition answering_env : Env :=
  mkEnv false (Ok tt) (fun _ _ => mkReply (Ok []) 0) (Ok tt)
    (fun _ _ =>
       mkReply (Ok [mkRawHit (lit "https://WWW.Acme.com/about") (lit "About Acme")
                      (lit "Acme builds rockets.");
                    mkRawHit (lit "https://[X") (lit "Broken") (lit "No host.")]) 150)
    host_of.

Definition answering_client : Client := fst (__init__ answering_env 5 start_world).

Definition first_hit : Hit :=
  nth 0 (fst (fst (WebSearch.search answering_env answering_client
                     (lit "acme revenue") 2 start_world)))
    (mkHit [] [] [] [] 0).

Definition second_hit : Hit :=
  nth 1 (fst (fst (WebSearch.search answering_env answering_client
                     (lit "acme revenue") 2 start_world)))
    (mkHit [] [] [] [] 0).

End MoreExamples.

Import MoreExamples.

(** * Facts about strings *)

Section StringFacts.

Ltac each_char c := destruct c as [[] [] [] [] [] [] [] []]; reflexivity.

Lemma is_space_to_lower c : is_space (to_lower c) = is_space c.
Proof. each_char c. Qed.

Lemma is_space_to_upper c : is_space (to_upper c) = is_space c.
Proof. each_char c. Qed.

Lemma blank_to_lower c : chr_eqb (to_lower c) blank = chr_eqb c blank.
Proof. each_char c. Qed.

Lemma blank_to_upper c : chr_eqb (to_upper c) blank = chr_eqb c blank.
Proof. each_char c. Qed.

Lemma chr_eqb_eq a b : chr_eqb a b = true <-> a = b.
Proof. apply Ascii.eqb_eq. Qed.

Lemma str_eqb_eq a b : str_eqb a b = true <-> a = b.
Proof.
  revert b; induction a as [|x a IH]; intros [|y b]; simpl; split; try easy.
  - intros [Hx Hab]%andb_true_iff. apply chr_eqb_eq in Hx. apply IH in Hab. congruence.
  - intros [= -> ->]. apply andb_true_iff. split; [apply chr_eqb_eq | apply IH]; reflexivity.
Qed.

Lemma str_in_In x xs : str_in x xs = true <-> In x xs.
Proof.
  unfold str_in. rewrite existsb_exists. split.
  - intros (y & Hy & E). apply str_eqb_eq in E. subst. exact Hy.
  - intros H. exists x. split; [exact H | apply str_eqb_eq; reflexivity].
Qed.

Lemma startswith_app s p : startswith s p = true <-> exists r, s = p ++ r.
Proof.
  revert s; induction p as [|x p IH]; intros s; simpl.
  - split; [eexists; reflexivity | reflexivity].
  - destruct s as [|y s].
    + split; [discriminate | intros (r & [=])].
    + rewrite andb_true_iff, chr_eqb_eq, IH. split.
      * intros (-> & r & ->). exists r. reflexivity.
      * intros (r & [= -> ->]). split; [reflexivity | exists r; reflexivity].
Qed.

Lemma contains_app sub s : contains sub s = true <-> exists a b, s = a ++ sub ++ b.
Proof.
  induction s as [|y s IH].
  - simpl. rewrite orb_false_r, startswith_app. split.
    + intros (r & E). exists [], r. exact E.
    + intros (a & b & E). destruct a; [exists b; exact E | discriminate].
  - change (contains sub (y :: s)) with (startswith (y :: s) sub || contains sub s).
    rewrite orb_true_iff, startswith_app, IH. split.
    + intros [(r & E) | (a & b & E)].
      * exists [], r. exact E.
      * exists (y :: a), b. rewrite E. reflexivity.
    + intros (a & b & E). destruct a as [|z a].
      * left. exists b. exact E.
      * right. injection E as -> ->. exists a, b. reflexivity.
Qed.

Lemma lstrip_idem s : lstrip (lstrip s) = lstrip s.
Proof.
  induction s as [|c s IH]; simpl; [reflexivity|].
  destruct (is_space c) eqn:E; [exact IH | simpl; rewrite E; reflexivity].
Qed.

Lemma rstrip_cons_keep x t : is_space x = false -> rstrip (x :: t) = x :: rstrip t.
Proof. intros E. simpl. rewrite E. destruct (rstrip t); reflexivity. Qed.

Lemma lstrip_rstrip s : lstrip (rstrip s) = rstrip (lstrip s).
Proof.
  induction s as [|c s IH]; [reflexivity|].
  destruct (is_space c) eqn:E.
  - simpl lstrip at 2. rewrite E, <- IH. simpl.
    destruct (rstrip s) eqn:R; [rewrite E; reflexivity|].
    simpl. rewrite E. reflexivity.
  - rewrite rstrip_cons_keep by exact E. simpl. rewrite E.
    symmetry. apply rstrip_cons_keep. exact E.
Qed.

Lemma rstrip_all_space s : forallb is_space s = true -> rstrip s = [].
Proof.
  induction s as [|c s IH]; simpl; [reflexivity|].
  intros [Hc Hs]%andb_true_iff. rewrite (IH Hs), Hc. reflexivity.
Qed.

Lemma rstrip_idem s : rstrip (rstrip s) = rstrip s.
Proof.
  induction s as [|c s IH]; [reflexivity|].
  simpl. destruct (rstrip s) as [|r0 r] eqn:R.
  - destruct (is_space c) eqn:E; [reflexivity|]. simpl. rewrite E. reflexivity.
  - simpl in IH |- *. rewrite IH. reflexivity.
Qed.

Lemma strip_idem s : strip (strip s) = strip s.
Proof.
  unfold strip. rewrite lstrip_rstrip, lstrip_idem, rstrip_idem. reflexivity.
Qed.

Lemma sub_ws_nil_all_space st s :
  sub_ws is_space st s = [] -> forallb is_space s = true.
Proof.
  revert st; induction s as [|c s IH]; intros st; simpl; [reflexivity|].
  destruct (is_space c) eqn:E; [|discriminate].
  destruct st; [|discriminate]. intros H. apply (IH true H).
Qed.

Lemma lstrip_sub_ws st s :
  lstrip (sub_ws is_space st s) = sub_ws is_space false (lstrip s).
Proof.
  revert st; induction s as [|c s IH]; intros st; simpl; [reflexivity|].
  destruct (is_space c) eqn:E.
  - destruct st; simpl; apply IH.
  - simpl. rewrite E. reflexivity.
Qed.

Lemma rstrip_sub_ws st s :
  rstrip (sub_ws is_space st s) = sub_ws is_space st (rstrip s).
Proof.
  revert st; induction s as [|c s IH]; intros st; [reflexivity|].
  destruct (is_space c) eqn:E.
  - simpl. rewrite E.
    destruct (rstrip s) as [|r0 r] eqn:R.
    + assert (H : rstrip (sub_ws is_space true s) = []) by (rewrite IH; reflexivity).
      destruct st; simpl; rewrite H; reflexivity.
    + assert (H : rstrip (sub_ws is_space true s) = sub_ws is_space true (r0 :: r))
        by (rewrite IH; reflexivity).
      assert (N : sub_ws is_space true (r0 :: r) <> []).
      { intros Z. apply sub_ws_nil_all_space, rstrip_all_space in Z.
        rewrite <- R, rstrip_idem, R in Z. discriminate. }
      destruct st.
      * change (sub_ws is_space true (c :: r0 :: r)) with
          (if is_space c then sub_ws is_space true (r0 :: r)
           else c :: sub_ws is_space false (r0 :: r)).
        rewrite E. exact H.
      * change (sub_ws is_space false (c :: r0 :: r)) with
          (if is_space c then blank :: sub_ws is_space true (r0 :: r)
           else c :: sub_ws is_space false (r0 :: r)).
        rewrite E. simpl rstrip at 1. rewrite H.
        destruct (sub_ws is_space true (r0 :: r)); [contradiction | reflexivity].
  - rewrite rstrip_cons_keep by exact E.
    change (sub_ws is_space st (c :: s)) with
      (if is_space c then (if st then sub_ws is_space true s else blank :: sub_ws is_space true s)
       else c :: sub_ws is_space false s).
    change (sub_ws is_space st (c :: rstrip s)) with
      (if is_space c then (if st then sub_ws is_space true (rstrip s)
                           else blank :: sub_ws is_space true (rstrip s))
       else c :: sub_ws is_space false (rstrip s)).
    rewrite E, rstrip_cons_keep by exact E. rewrite IH. reflexivity.
Qed.

Lemma normalize_ws_strip s : normalize_ws (strip s) = normalize_ws s.
Proof.
  unfold normalize_ws. unfold strip at 2.
  rewrite <- rstrip_sub_ws, <- (lstrip_sub_ws false).
  change (strip (strip (sub_ws is_space false s)) = strip (sub_ws is_space false s)).
  apply strip_idem.
Qed.

Lemma blank_is_space c : chr_eqb c blank = true -> is_space c = true.
Proof. intros ->%chr_eqb_eq. reflexivity. Qed.

Section MapChars.
Variable f : ascii -> ascii.
Hypothesis f_space : forall c, is_space (f c) = is_space c.
Hypothesis f_blank : forall c, chr_eqb (f c) blank = chr_eqb c blank.

Lemma tight_from_map b s : tight_from b (map f s) = tight_from b s.
Proof using f_space f_blank.
  revert b; induction s as [|c s IH]; intros b; simpl; [reflexivity|].
  rewrite f_blank, f_space, !IH. reflexivity.
Qed.

Lemma f_blank_eq : f blank = blank.
Proof using f_blank.
  apply chr_eqb_eq. rewrite f_blank. reflexivity.
Qed.

Lemma sub_ws_map st s :
  sub_ws is_space st (map f s) = map f (sub_ws is_space st s).
Proof using f_space f_blank.
  revert st; induction s as [|c s IH]; intros st; simpl; [reflexivity|].
  rewrite f_space. destruct (is_space c), st; simpl; rewrite ?IH, ?f_blank_eq; reflexivity.
Qed.

Lemma lstrip_map s : lstrip (map f s) = map f (lstrip s).
Proof using f_space.
  induction s as [|c s IH]; simpl; [reflexivity|].
  rewrite f_space. destruct (is_space c); [exact IH | reflexivity].
Qed.

Lemma rstrip_map s : rstrip (map f s) = map f (rstrip s).
Proof using f_space.
  induction s as [|c s IH]; simpl; [reflexivity|].
  rewrite IH, f_space. destruct (rstrip s); simpl; [destruct (is_space c)|]; reflexivity.
Qed.

Lemma normalize_ws_map s : normalize_ws (map f s) = map f (normalize_ws s).
Proof using f_space f_blank.
  unfold normalize_ws, strip. rewrite sub_ws_map, lstrip_map, rstrip_map. reflexivity.
Qed.

End MapChars.

Lemma tight_from_cons b s :
  tight_from b s = true -> s <> [] ->
  exists c t, s = c :: t /\ (b = true -> is_space c = false).
Proof.
  destruct s as [|c t]; [congruence|]. intros H _. exists c, t. split; [reflexivity|].
  intros ->. simpl in H. destruct (chr_eqb c blank); [discriminate|].
  apply andb_true_iff in H as [H _]. apply negb_true_iff in H. exact H.
Qed.

Lemma tight_nonempty s : tight s = true -> s <> [].
Proof. intros H ->. discriminate. Qed.

Lemma sub_ws_tight_app x : forall b st rest,
  tight_from b x = true -> (st = true -> b = true) ->
  sub_ws is_space st (x ++ rest) = x ++ sub_ws is_space false rest.
Proof.
  induction x as [|c t IH]; intros b st rest H Hst; simpl in *.
  - apply negb_true_iff in H. subst b. destruct st; [discriminate (Hst eq_refl) | reflexivity].
  - destruct (chr_eqb c blank) eqn:B.
    + apply andb_true_iff in H as [Hb Ht]. apply negb_true_iff in Hb. subst b.
      destruct st; [discriminate (Hst eq_refl)|].
      rewrite (blank_is_space _ B). apply chr_eqb_eq in B. subst c.
      f_equal. apply (IH true true); [exact Ht | reflexivity].
    + apply andb_true_iff in H as [Hc Ht]. apply negb_true_iff in Hc. rewrite Hc.
      f_equal. apply (IH false false); [exact Ht | discriminate].
Qed.

Lemma sub_ws_app_keep a : forall st c y,
  is_space c = false ->
  sub_ws is_space st (a ++ c :: y) = sub_ws is_space st a ++ sub_ws is_space false (c :: y).
Proof.
  induction a as [|x a IH]; intros st c y Hc.
  - simpl. rewrite Hc. reflexivity.
  - simpl. destruct (is_space x), st; simpl; rewrite (IH _ c y Hc); reflexivity.
Qed.

Lemma lstrip_app_keep a c y :
  is_space c = false -> lstrip (a ++ c :: y) = lstrip a ++ c :: y.
Proof.
  intros Hc. induction a as [|x a IH]; simpl.
  - rewrite Hc. reflexivity.
  - destruct (is_space x); [exact IH | reflexivity].
Qed.

Lemma rstrip_tight_app x : forall b rest,
  tight_from b x = true -> rstrip (x ++ rest) = x ++ rstrip rest.
Proof.
  induction x as [|c t IH]; intros b rest H; [reflexivity|].
  simpl in H. destruct (chr_eqb c blank) eqn:B.
  - apply andb_true_iff in H as [_ Ht].
    simpl. rewrite (IH _ rest Ht).
    destruct t as [|d t]; [discriminate|]. reflexivity.
  - apply andb_true_iff in H as [Hc Ht]. apply negb_true_iff in Hc.
    change ((c :: t) ++ rest) with (c :: (t ++ rest)).
    rewrite rstrip_cons_keep by exact Hc. rewrite (IH _ rest Ht). reflexivity.
Qed.

Lemma rstrip_app_keep a y : rstrip y <> [] -> rstrip (a ++ y) = a ++ rstrip y.
Proof.
  intros Hy. induction a as [|x a IH]; [reflexivity|].
  simpl. rewrite IH. destruct (a ++ rstrip y) eqn:E; [|reflexivity].
  apply app_eq_nil in E as [_ E]. contradiction.
Qed.

(** Normalising white space keeps every tight piece of a text. *)
Lemma normalize_ws_keeps_tight a x b :
  tight x = true ->
  exists a' b', normalize_ws (a ++ x ++ b) = a' ++ x ++ b'.
Proof.
  intros Hx. unfold normalize_ws, strip.
  destruct (tight_from_cons _ _ Hx (tight_nonempty _ Hx)) as (c & t & -> & Hc).
  specialize (Hc eq_refl).
  change (a ++ (c :: t) ++ b) with (a ++ c :: (t ++ b)).
  rewrite sub_ws_app_keep by exact Hc.
  change (c :: t ++ b) with ((c :: t) ++ b).
  rewrite (sub_ws_tight_app (c :: t) true false b Hx) by discriminate.
  change ((c :: t) ++ sub_ws is_space false b) with (c :: (t ++ sub_ws is_space false b)).
  rewrite lstrip_app_keep by exact Hc.
  change (c :: t ++ sub_ws is_space false b) with ((c :: t) ++ sub_ws is_space false b).
  assert (R : rstrip ((c :: t) ++ sub_ws is_space false b)
              = (c :: t) ++ rstrip (sub_ws is_space false b))
    by (apply (rstrip_tight_app _ true); exact Hx).
  rewrite rstrip_app_keep by (rewrite R; discriminate).
  rewrite R. eexists _, _. reflexivity.
Qed.

Lemma normalize_ws_tight x : tight x = true -> normalize_ws x = x.
Proof.
  intros Hx. unfold normalize_ws, strip.
  pose proof (sub_ws_tight_app x true false [] Hx) as S1.
  rewrite !app_nil_r in S1. rewrite S1 by discriminate.
  destruct (tight_from_cons _ _ Hx (tight_nonempty _ Hx)) as (c & t & -> & Hc).
  pose proof (lstrip_app_keep [] c t (Hc eq_refl)) as L. simpl in L.
  change (lstrip (c :: t)) with (lstrip ([] ++ c :: t)).
  rewrite lstrip_app_keep by (apply Hc; reflexivity). simpl app.
  pose proof (rstrip_tight_app (c :: t) true [] Hx) as R.
  rewrite !app_nil_r in R. exact R.
Qed.

End StringFacts.

(** * Company-name resolution *)

Section CompanyName.

Lemma plausible_nonempty s : _is_plausible_company_name s = true -> strip s <> [].
Proof. unfold _is_plausible_company_name. destruct (strip s); [discriminate | discriminate]. Qed.

Lemma valid_inv c e n :
  _is_valid_company_candidate c e n = true ->
  _is_plausible_company_name (strip c) = true
  /\ _is_generic_phrase (strip c) = false.
Proof.
  unfold _is_valid_company_candidate.
  destruct (_is_plausible_company_name (strip c)); [|discriminate].
  destruct (_is_generic_phrase (strip c)); [discriminate|]. auto.
Qed.


Lemma generic_strip c : strip c <> [] -> _is_generic_phrase (strip c) = _is_generic_phrase c.
Proof.
  intros H. unfold _is_generic_phrase.
  destruct c as [|x c]; [contradiction H; reflexivity|].
  destruct (strip (x :: c)) eqn:E; [contradiction|].
  rewrite <- E, normalize_ws_strip. reflexivity.
Qed.

Lemma valid_not_generic c e n :
  _is_valid_company_candidate c e n = true -> _is_generic_phrase c = false.
Proof.
  intros [Hp Hg]%valid_inv. rewrite <- generic_strip; [exact Hg|].
  apply plausible_nonempty in Hp. rewrite strip_idem in Hp. exact Hp.
Qed.

Lemma phrases_tight : forallb tight GENERIC_COVER_PHRASES = true.
Proof. reflexivity. Qed.

Lemma substrings_tight : forallb tight GENERIC_SUBSTRINGS = true.
Proof. reflexivity. Qed.

Lemma generic_of_phrase r p :
  In p GENERIC_COVER_PHRASES -> upper r = p -> _is_generic_phrase r = true.
Proof.
  intros Hin Hup.
  assert (Tp : tight p = true).
  { pose proof phrases_tight as T. rewrite forallb_forall in T. apply T, Hin. }
  assert (Tr : tight r = true).
  { rewrite <- Hup in Tp. unfold tight, upper in Tp.
    rewrite tight_from_map in Tp; [exact Tp | apply is_space_to_upper | apply blank_to_upper]. }
  unfold _is_generic_phrase. destruct r as [|x r]; [reflexivity|].
  rewrite (normalize_ws_tight _ Tr), Hup.
  apply str_in_In in Hin. rewrite Hin. reflexivity.
Qed.

Lemma generic_of_substring r sub :
  In sub GENERIC_SUBSTRINGS -> contains sub (lower r) = true -> _is_generic_phrase r = true.
Proof.
  intros Hin Hc.
  assert (Ts : tight sub = true).
  { pose proof substrings_tight as T. rewrite forallb_forall in T. apply T, Hin. }
  unfold _is_generic_phrase. destruct r as [|x r]; [reflexivity|].
  destruct (str_in _ _); [reflexivity|].
  apply existsb_exists. exists sub. split; [exact Hin|].
  unfold lower in *.
  rewrite <- normalize_ws_map by (first [apply is_space_to_lower | apply blank_to_lower]).
  apply contains_app in Hc as (a & b & E). rewrite E.
  destruct (normalize_ws_keeps_tight a sub b Ts) as (a' & b' & ->).
  apply contains_app. eauto.
Qed.

Lemma contains_lower sub r :
  contains sub r = true -> contains (lower sub) (lower r) = true.
Proof.
  intros (a & b & ->)%contains_app. apply contains_app.
  exists (lower a), (lower b). unfold lower. rewrite !map_app. reflexivity.
Qed.

Lemma substrings_lowercase sub : In sub GENERIC_SUBSTRINGS -> lower sub = sub.
Proof.
  intros H.
  assert (L : forallb (fun x => str_eqb (lower x) x) GENERIC_SUBSTRINGS = true)
    by reflexivity.
  rewrite forallb_forall in L. apply str_eqb_eq, L, H.
Qed.

Lemma sentinel_not_generic : _is_generic_phrase sentinel = false.
Proof. reflexivity. Qed.


Lemma extract_first_passing llm deck :
  extract_company_name llm deck = Ok (default sentinel (first_passing llm deck)).
Proof.
  unfold first_passing, cascade_candidates, extract_company_name, passes.
  set (early := _get_early_pages_text deck 5).
  cbn [app List.find fst snd].
  destruct (_is_valid_company_candidate _ early 2) eqn:H1; [reflexivity|].
  assert (E5 : forall (l : list (str * nat)) (tail : result str),
    (match llm with
     | Some llm0 =>
         try_except
           (bind (_extract_company_name_with_llm llm0 deck)
              (fun company_name =>
                 if _is_valid_company_candidate company_name early 0
                 then Ok company_name else Ok (lit "Unknown Company")))
           (fun _ => Ok (lit "Unknown Company"))
     | None => Ok (lit "Unknown Company")
     end)
    = Ok (default sentinel
            (option_map fst
               (List.find (fun c => _is_valid_company_candidate (fst c) early (snd c))
                  match llm with
                  | Some llm0 =>
                      match _extract_company_name_with_llm llm0 deck with
                      | Ok c => [(c, 0)]
                      | Raise _ => []
                      end
                  | None => []
                  end)))).
  { intros _ _. destruct llm as [llm0|]; [|reflexivity].
    destruct (_extract_company_name_with_llm llm0 deck) as [c|e]; [|reflexivity].
    cbn. destruct (_is_valid_company_candidate c early 0); reflexivity. }
  specialize (E5 [] (Ok [])).
  destruct (pages deck) as [|p ps]; cbn [app List.find fst snd];
    repeat match goal with
      | |- context [_is_valid_company_candidate ?c early ?n] =>
          generalize (_is_valid_company_candidate c early n); intros []
      end;
    try reflexivity; exact E5.
Qed.

Lemma first_passing_valid llm deck c :
  first_passing llm deck = Some c ->
  exists n, In (c, n) (cascade_candidates llm deck)
            /\ _is_valid_company_candidate c (_get_early_pages_text deck 5) n = true.
Proof.
  unfold first_passing. destruct (List.find _ _) as [[c' n]|] eqn:F; [|discriminate].
  intros [= <-]. apply find_some in F as [Hin Hv]. exists n. split; assumption.
Qed.

End CompanyName.




(** C6: the string returned by [extract_company_name] is never a generic
    cover phrase: it is not rejected by [_is_generic_phrase], it equals no
    blocklisted phrase when upper-cased, and it contains no blocklisted
    substring when lower-cased. *)
Theorem extract_company_name_never_generic llm deck r :
  extract_company_name llm deck = Ok r ->
  _is_generic_phrase r = false
  /\ (forall p, In p GENERIC_COVER_PHRASES -> upper r <> p)
  /\ (forall sub, In sub GENERIC_SUBSTRINGS ->
        contains sub (lower r) = false /\ contains sub r = false).
Proof.
  rewrite extract_first_passing. intros [= <-].
  assert (G : _is_generic_phrase (default sentinel (first_passing llm deck)) = false).
  { destruct (first_passing llm deck) as [c|] eqn:F; [|exact sentinel_not_generic].
    apply first_passing_valid in F as (n & _ & Hv). exact (valid_not_generic _ _ _ Hv). }
  split; [exact G|]. split.
  - intros p Hp Hup. rewrite (generic_of_phrase _ _ Hp Hup) in G. discriminate.
  - intros sub Hsub.
    assert (L : contains sub (lower (default sentinel (first_passing llm deck))) = false).
    { destruct (contains sub _) eqn:C; [|reflexivity].
      rewrite (generic_of_substring _ _ Hsub C) in G. discriminate. }
    split; [exact L|].
    destruct (contains sub (default sentinel (first_passing llm deck))) eqn:C; [|reflexivity].
    apply contains_lower in C. rewrite (substrings_lowercase _ Hsub) in C. congruence.
Qed.

Lemma extract_company_name_never_generic_witness :
  extract_company_name None deck_titled_acme = Ok (lit "Acme Robotics")
  /\ _is_generic_phrase (lit "Acme Robotics") = false
  /\ (forall p, In p GENERIC_COVER_PHRASES -> upper (lit "Acme Robotics") <> p)
  /\ (forall sub, In sub GENERIC_SUBSTRINGS ->
        contains sub (lower (lit "Acme Robotics")) = false
        /\ contains sub (lit "Acme Robotics") = false).
Proof.
  split; [vm_compute; reflexivity|].
  apply (extract_company_name_never_generic None deck_titled_acme).
  vm_compute. reflexivity.
Defined.

(** * The proper-noun frequency heuristic *)

Section SortFacts.
Context {A : Type} (le : A -> A -> bool).

Lemma sort_insert_perm x l : Permutation (sort_insert le x l) (x :: l).
Proof.
  induction l as [|y l IH]; simpl; [reflexivity|].
  destruct (le x y); [reflexivity|].
  rewrite IH. apply perm_swap.
Qed.

Lemma stable_sort_perm l : Permutation (stable_sort le l) l.
Proof.
  induction l as [|x l IH]; simpl; [reflexivity|].
  rewrite sort_insert_perm. apply perm_skip. exact IH.
Qed.

Hypothesis le_total : forall a b, le a b = false -> le b a = true.
Hypothesis le_trans : forall a b c, le a b = true -> le b c = true -> le a c = true.

Lemma sort_insert_sorted x l :
  StronglySorted (fun a b => le a b = true) l ->
  StronglySorted (fun a b => le a b = true) (sort_insert le x l).
Proof using le_total le_trans.
  induction 1 as [|y l Hs IH Hy]; simpl.
  - constructor; constructor.
  - destruct (le x y) eqn:E.
    + constructor; [constructor; assumption|].
      constructor; [exact E|].
      rewrite List.Forall_forall in Hy |- *. intros z Hz.
      apply (le_trans _ y); [exact E | apply Hy, Hz].
    + constructor; [exact IH|].
      rewrite List.Forall_forall in Hy |- *. intros z Hz.
      apply (Permutation_in _ (sort_insert_perm x l)) in Hz as [<- | Hz].
      * apply le_total, E.
      * apply Hy, Hz.
Qed.

Lemma stable_sort_sorted l :
  StronglySorted (fun a b => le a b = true) (stable_sort le l).
Proof using le_total le_trans.
  induction l as [|x l IH]; simpl; [constructor|].
  apply sort_insert_sorted, IH.
Qed.

End SortFacts.

Section CounterFacts.

Lemma occurrences_app ts us t :
  occurrences (ts ++ us) t = occurrences ts t + occurrences us t.
Proof. unfold occurrences. rewrite List.filter_app, length_app. reflexivity. Qed.

Lemma occurrences_pos ts t : In t ts <-> 0 < occurrences ts t.
Proof.
  unfold occurrences. induction ts as [|x ts IH]; simpl; [split; [easy | lia]|].
  destruct (str_eqb t x) eqn:E.
  - apply str_eqb_eq in E. subst. simpl. split; [lia | auto].
  - rewrite <- IH. split; [|auto]. intros [->|H]; [|exact H].
    assert (str_eqb t t = true) by (apply str_eqb_eq; reflexivity). congruence.
Qed.

Lemma str_eqb_refl t : str_eqb t t = true.
Proof. apply str_eqb_eq. reflexivity. Qed.

Lemma str_eqb_neq a b : a <> b -> str_eqb a b = false.
Proof.
  intros H. destruct (str_eqb a b) eqn:E; [|reflexivity].
  apply str_eqb_eq in E. contradiction.
Qed.

Lemma counter_add_keys x cs :
  map fst (counter_add x cs)
  = if existsb (str_eqb x) (map fst cs) then map fst cs else map fst cs ++ [x].
Proof.
  induction cs as [|[y n] cs IH]; simpl; [reflexivity|].
  destruct (str_eqb x y); simpl; [reflexivity|].
  rewrite IH. destruct (existsb _ _); reflexivity.
Qed.

Lemma in_keys (cs : list (str * nat)) t n : In (t, n) cs -> In t (map fst cs).
Proof. intros H. apply in_map_iff. exists (t, n). split; [reflexivity | exact H]. Qed.

Lemma counter_add_in x cs t n :
  List.NoDup (map fst cs) ->
  In (t, n) (counter_add x cs) ->
  (t <> x /\ In (t, n) cs)
  \/ (t = x /\ ((exists m, In (x, m) cs /\ n = S m)
               \/ (~ In x (map fst cs) /\ n = 1))).
Proof.
  induction cs as [|[y k] cs IH]; simpl; intros ND.
  - intros [[= <- <-]|[]]. right. split; [reflexivity|]. right. split; [tauto | reflexivity].
  - inversion ND as [|? ? Hy ND']; subst.
    destruct (str_eqb x y) eqn:E.
    + apply str_eqb_eq in E. subst y. intros [[= <- <-]|H].
      * right. split; [reflexivity|]. left. exists k. split; [left; reflexivity | reflexivity].
      * left. split; [|right; exact H].
        intros ->. apply Hy. exact (in_keys _ _ _ H).
    + intros [[= <- <-]|H].
      * left. split; [|left; reflexivity].
        intros ->. rewrite str_eqb_refl in E. discriminate.
      * apply (IH ND') in H as [[N H]|[-> [(m & Hm & ->)|[Hn ->]]]].
        -- left. split; [exact N | right; exact H].
        -- right. split; [reflexivity|]. left. exists m. split; [right; exact Hm | reflexivity].
        -- right. split; [reflexivity|]. right. split; [|reflexivity].
           intros [<-|Hx]; [|contradiction]. rewrite str_eqb_refl in E. discriminate.
Qed.

Lemma existsb_keys x (ks : list str) : existsb (str_eqb x) ks = true <-> In x ks.
Proof. apply (str_in_In x ks). Qed.

Lemma counter_add_counts cs ts x :
  counts_of cs ts -> counts_of (counter_add x cs) (ts ++ [x]).
Proof.
  intros (ND & Hc & Hk). split; [|split].
  - rewrite counter_add_keys. destruct (existsb _ _) eqn:E; [exact ND|].
    apply List.NoDup_app; [exact ND | repeat constructor; intros [] |].
    intros t Ht [<-|[]]. apply existsb_keys in Ht. congruence.
  - intros t n H. rewrite occurrences_app.
    apply (counter_add_in _ _ _ _ ND) in H as [[N H]|[-> [(m & Hm & ->)|[Hn ->]]]].
    + rewrite (Hc _ _ H). unfold occurrences at 3. simpl.
      rewrite (str_eqb_neq _ _ N). simpl. lia.
    + rewrite (Hc _ _ Hm). unfold occurrences at 3. simpl.
      rewrite str_eqb_refl. simpl. lia.
    + unfold occurrences at 2. simpl. rewrite str_eqb_refl. simpl.
      assert (Z0 : occurrences ts x = 0).
      { destruct (occurrences ts x) eqn:O; [reflexivity|].
        exfalso. apply Hn, Hk, occurrences_pos. lia. }
      lia.
  - intros t Ht. rewrite counter_add_keys.
    apply in_app_iff in Ht as [Ht|[<-|[]]].
    + destruct (existsb _ _); [|apply in_app_iff; left]; apply Hk, Ht.
    + destruct (existsb _ _) eqn:E; [apply existsb_keys, E|].
      apply in_app_iff. right. left. reflexivity.
Qed.

Lemma Counter_counts ts : counts_of (Counter ts) ts.
Proof.
  unfold Counter.
  assert (G : forall us cs pre, counts_of cs pre ->
            counts_of (fold_left (fun cs x => counter_add x cs) us cs) (pre ++ us)).
  { induction us as [|x us IH]; intros cs pre H; simpl.
    - rewrite app_nil_r. exact H.
    - replace (pre ++ x :: us) with ((pre ++ [x]) ++ us) by (rewrite <- app_assoc; reflexivity).
      apply IH, counter_add_counts, H. }
  apply (G ts [] []). split; [constructor|]. split; [intros ? ? [] | intros ? []].
Qed.

Lemma Counter_in ts t n : In (t, n) (Counter ts) -> n = occurrences ts t /\ In t ts.
Proof.
  intros H. destruct (Counter_counts ts) as (_ & Hc & _).
  pose proof (Hc _ _ H) as E. split; [exact E|].
  apply occurrences_pos. rewrite <- E.
  (* every entry of a counter has been counted at least once *)
  assert (P : forall us cs, (forall t n, In (t, n) cs -> 0 < n) ->
            forall t n, In (t, n) (fold_left (fun cs x => counter_add x cs) us cs) -> 0 < n).
  { induction us as [|x us IH]; intros cs Hpos; simpl; [exact Hpos|].
    apply IH. clear IH. induction cs as [|[y k] cs IHc]; simpl.
    - intros ? ? [[= <- <-]|[]]. lia.
    - destruct (str_eqb x y); intros ? ? [[= <- <-]|Hin].
      + lia.
      + apply (Hpos _ _ (or_intror Hin)).
      + apply (Hpos y k). left. reflexivity.
      + apply (IHc (fun t n Ht => Hpos t n (or_intror Ht)) _ _ Hin). }
  apply (P ts [] (fun _ _ F => match F with end) _ _ H).
Qed.

Lemma Counter_has ts t : In t ts -> In (t, occurrences ts t) (Counter ts).
Proof.
  intros H. destruct (Counter_counts ts) as (_ & Hc & Hk).
  apply Hk, in_map_iff in H as ([t' n] & E & Hin). simpl in E. subst t'.
  rewrite <- (Hc _ _ Hin). exact Hin.
Qed.

End CounterFacts.

Section FrequencyFacts.

Local Open Scope Z_scope.

Lemma score_lower text fl tl name freq : -2 <= score text fl tl name freq.
Proof.
  unfold score, pattern_bonus, hint_bonus, plural_penalty.
  repeat match goal with |- context [if ?b then _ else _] => destruct b end; lia.
Qed.

Lemma fold_consider text fl tl items : forall best,
  (fold_left (consider text fl tl) items best = best
   /\ forall t n, In (t, n) items -> survives t = true -> score text fl tl t n <= snd best)
  \/ (exists n,
        In (fst (fold_left (consider text fl tl) items best), n) items
        /\ survives (fst (fold_left (consider text fl tl) items best)) = true
        /\ snd (fold_left (consider text fl tl) items best)
           = score text fl tl (fst (fold_left (consider text fl tl) items best)) n
        /\ snd best < snd (fold_left (consider text fl tl) items best)
        /\ forall t m, In (t, m) items -> survives t = true ->
             score text fl tl t m <= snd (fold_left (consider text fl tl) items best)).
Proof.
  induction items as [|[t0 n0] items IH]; intros best; cbn [fold_left].
  - left. split; [reflexivity | intros ? ? []].
  - assert (C : consider text fl tl best (t0, n0)
                = if negb (survives t0) then best
                  else if snd best <? score text fl tl t0 n0
                       then (t0, score text fl tl t0 n0) else best) by reflexivity.
    destruct (survives t0) eqn:S0; cbn [negb] in C.
    + destruct (snd best <? score text fl tl t0 n0) eqn:L; rewrite C; clear C.
      * apply Z.ltb_lt in L.
        destruct (IH (t0, score text fl tl t0 n0)) as [[E A]|(n & Hin & Hs & Hsc & Hlt & A)].
        -- right. exists n0. rewrite E. cbn [fst snd] in *.
           split; [left; reflexivity|]. split; [exact S0|]. split; [reflexivity|].
           split; [exact L|]. intros t m [[= <- <-]|Hin] Hs; [lia | apply (A _ _ Hin Hs)].
        -- right. exists n. cbn [fst snd] in Hlt.
           split; [right; exact Hin|]. split; [exact Hs|]. split; [exact Hsc|].
           split; [lia|]. intros t m [[= <- <-]|Hin'] Hs'; [lia | apply (A _ _ Hin' Hs')].
      * apply Z.ltb_ge in L.
        destruct (IH best) as [[E A]|(n & Hin & Hs & Hsc & Hlt & A)].
        -- left. split; [exact E|].
           intros t m [[= <- <-]|Hin] Hs; [lia | apply (A _ _ Hin Hs)].
        -- right. exists n.
           split; [right; exact Hin|]. split; [exact Hs|]. split; [exact Hsc|].
           split; [exact Hlt|]. intros t m [[= <- <-]|Hin'] Hs'; [lia | apply (A _ _ Hin' Hs')].
    + rewrite C; clear C.
      destruct (IH best) as [[E A]|(n & Hin & Hs & Hsc & Hlt & A)].
      * left. split; [exact E|].
        intros t m [[= <- <-]|Hin] Hs; [congruence | apply (A _ _ Hin Hs)].
      * right. exists n.
        split; [right; exact Hin|]. split; [exact Hs|]. split; [exact Hsc|].
        split; [exact Hlt|].
        intros t m [[= <- <-]|Hin'] Hs'; [congruence | apply (A _ _ Hin' Hs')].
Qed.

(** The heuristic returns the best-scoring survivor among the thirty most
    common tokens, or nothing when none of them survives. *)
Lemma frequency_result text fh th :
  let top := most_common 30 (Counter (findall_tokens 0 None text)) in
  let r := _company_name_from_proper_noun_frequency text fh th in
  (r = [] /\ forall t n, In (t, n) top -> survives t = false)
  \/ (exists n, In (r, n) top /\ survives r = true
        /\ forall t m, In (t, m) top -> survives t = true ->
             score text (lower fh) (lower th) t m
             <= score text (lower fh) (lower th) r n).
Proof.
  intros top r. subst top r. unfold _company_name_from_proper_noun_frequency.
  destruct text as [|c text]; [left; split; [reflexivity | intros ? ? []]|].
  destruct (findall_tokens 0 None (c :: text)) as [|tok toks] eqn:T;
    [left; split; [reflexivity | intros ? ? []]|].
  destruct (fold_consider (c :: text) (lower fh) (lower th)
              (most_common 30 (Counter (tok :: toks))) ([], - 10 ^ 9))
    as [[E A]|(n & Hin & Hs & Hsc & _ & A)].
  - left. rewrite E. split; [reflexivity|]. intros t n Hin.
    destruct (survives t) eqn:S; [|reflexivity].
    pose proof (A _ _ Hin S) as B. pose proof (score_lower (c :: text) (lower fh) (lower th) t n).
    simpl in B. lia.
  - right. exists n. split; [exact Hin|]. split; [exact Hs|].
    intros t m Hin' Hs'. rewrite <- Hsc. apply (A _ _ Hin' Hs').
Qed.

End FrequencyFacts.

Lemma in_firstn_split {A} (x : A) k l :
  In x (firstn k l) -> exists l1 l2, l = l1 ++ x :: l2 /\ length l1 < k.
Proof.
  intros H. destruct (in_split _ _ H) as (l1 & l2 & E).
  exists l1, (l2 ++ skipn k l). split.
  - rewrite <- (firstn_skipn k l) at 1. rewrite E, <- app_assoc. reflexivity.
  - pose proof (firstn_le_length k l) as B. rewrite E, length_app in B. simpl in B. lia.
Qed.

Lemma sorted_after {A} (R : A -> A -> Prop) l1 x l2 :
  StronglySorted R (l1 ++ x :: l2) -> forall y, In y l2 -> R x y.
Proof.
  induction l1 as [|a l1 IH]; simpl; intros H.
  - inversion H as [|? ? _ F]; subst. rewrite List.Forall_forall in F. exact F.
  - inversion H; subst. apply IH. assumption.
Qed.

(** C10: the candidate returned by the proper-noun frequency heuristic is
    the empty string or one of the thirty most frequent tokens: fewer than
    thirty distinct tokens of the text occur strictly more often than it. *)
Theorem frequency_heuristic_within_top30 text fh th :
  let tokens := findall_tokens 0 None text in
  let r := _company_name_from_proper_noun_frequency text fh th in
  r = [] \/
  (In r tokens
   /\ (exists n, In (r, n) (most_common 30 (Counter tokens)))
   /\ forall more, List.NoDup more ->
        (forall t, In t more ->
           In t tokens /\ occurrences tokens r < occurrences tokens t) ->
        length more < 30).
Proof.
  intros tokens r.
  destruct (frequency_result text fh th) as [[E _]|(n & Hin & _ & _)]; [left; exact E|].
  fold tokens in Hin. fold r in Hin. right.
  set (desc := fun a b : str * nat => snd b <=? snd a) in *.
  unfold most_common in Hin. fold desc in Hin.
  destruct (in_firstn_split _ _ _ Hin) as (l1 & l2 & E & L).
  assert (Hr : In (r, n) (Counter tokens)).
  { apply (Permutation_in _ (stable_sort_perm desc (Counter tokens))).
    rewrite E. apply in_elt. }
  apply Counter_in in Hr as [Hn Hr].
  split; [exact Hr|]. split; [exists n; unfold most_common; exact Hin|].
  intros more ND Hmore.
  assert (S : StronglySorted (fun a b => desc a b = true) (stable_sort desc (Counter tokens))).
  { apply stable_sort_sorted; unfold desc.
    - intros a b H. apply Nat.leb_gt in H. apply Nat.leb_le. lia.
    - intros a b c H1 H2. apply Nat.leb_le in H1, H2. apply Nat.leb_le. lia. }
  rewrite E in S.
  assert (I : incl more (map fst l1)).
  { intros t Ht. destruct (Hmore t Ht) as [Htok Hlt].
    apply Counter_has in Htok.
    apply (Permutation_in _ (Permutation_sym (stable_sort_perm desc (Counter tokens)))) in Htok.
    rewrite E in Htok. apply in_app_iff in Htok as [H1|[H1|H2]].
    - apply (in_keys _ _ _ H1).
    - injection H1 as _ H1. lia.
    - pose proof (sorted_after _ _ _ _ S _ H2) as D. unfold desc in D. simpl in D.
      apply Nat.leb_le in D. lia. }
  pose proof (NoDup_incl_length ND I) as B. rewrite length_map in B. lia.
Qed.

Lemma frequency_heuristic_within_top30_witness :
  _company_name_from_proper_noun_frequency crowded_text crowded_filename [] = lit "Alpha"
  /\ forall more, List.NoDup more ->
       (forall t, In t more ->
          In t (findall_tokens 0 None crowded_text)
          /\ occurrences (findall_tokens 0 None crowded_text) (lit "Alpha")
             < occurrences (findall_tokens 0 None crowded_text) t) ->
       length more < 30.
Proof.
  assert (E : _company_name_from_proper_noun_frequency crowded_text crowded_filename []
              = lit "Alpha") by (vm_compute; reflexivity).
  split; [exact E|].
  destruct (frequency_heuristic_within_top30 crowded_text crowded_filename [])
    as [N|(_ & _ & H)].
  - rewrite E in N. discriminate.
  - rewrite E in H. exact H.
Defined.




(** * Structured completion *)

Section ResponseFacts.

Lemma chr_eqb_refl c : chr_eqb c c = true.
Proof. apply chr_eqb_eq. reflexivity. Qed.

Lemma chr_eqb_neq a b : a <> b -> chr_eqb a b = false.
Proof.
  intros H. destruct (chr_eqb a b) eqn:E; [|reflexivity].
  apply chr_eqb_eq in E. contradiction.
Qed.

Lemma find_chr_app c pre rest :
  ~ In c pre -> find_chr c (pre ++ c :: rest) = Some (length pre).
Proof.
  induction pre as [|x pre IH]; simpl; intros H.
  - rewrite chr_eqb_refl. reflexivity.
  - rewrite chr_eqb_neq by (intros ->; apply H; left; reflexivity).
    rewrite IH by (intros Hin; apply H; right; exact Hin). reflexivity.
Qed.

Lemma rfind_chr_none c s : ~ In c s -> rfind_chr c s = None.
Proof.
  induction s as [|x s IH]; simpl; intros H; [reflexivity|].
  rewrite IH by (intros Hin; apply H; right; exact Hin).
  rewrite chr_eqb_neq by (intros ->; apply H; left; reflexivity). reflexivity.
Qed.

Lemma rfind_chr_app c pre post :
  ~ In c post -> rfind_chr c (pre ++ c :: post) = Some (length pre).
Proof.
  intros H. induction pre as [|x pre IH]; simpl.
  - rewrite (rfind_chr_none _ _ H), chr_eqb_refl. reflexivity.
  - rewrite IH. reflexivity.
Qed.

Lemma slice_middle (pre j post : str) :
  slice (length pre) (length pre + length j) (pre ++ j ++ post) = j.
Proof.
  unfold slice. rewrite skipn_app, skipn_all, Nat.sub_diag, skipn_O. simpl.
  replace (length pre + length j - length pre) with (length j) by lia.
  rewrite firstn_app, firstn_all, Nat.sub_diag, firstn_O. apply app_nil_r.
Qed.

Lemma split_chr_aux_nonempty sep cur s : split_chr_aux sep cur s <> [].
Proof.
  revert cur; induction s as [|c s IH]; intros cur; simpl; [discriminate|].
  destruct (chr_eqb c sep); [discriminate | apply IH].
Qed.

Lemma split_chr_aux_app sep x : forall cur y,
  split_chr_aux sep cur (x ++ sep :: y) = split_chr_aux sep cur x ++ split_chr sep y.
Proof.
  induction x as [|c x IH]; intros cur y; simpl.
  - rewrite chr_eqb_refl. reflexivity.
  - destruct (chr_eqb c sep); [rewrite IH; reflexivity | apply IH].
Qed.

Lemma split_chr_aux_plain sep x : forall cur,
  ~ In sep x -> split_chr_aux sep cur x = [rev cur ++ x].
Proof.
  induction x as [|c x IH]; intros cur H; simpl.
  - rewrite app_nil_r. reflexivity.
  - rewrite chr_eqb_neq by (intros ->; apply H; left; reflexivity).
    rewrite IH by (intros Hin; apply H; right; exact Hin).
    simpl. rewrite <- app_assoc. reflexivity.
Qed.




(** The braces of a response that embeds an object are found. *)
Lemma braces_found body j :
  object_text j -> embeds body j ->
  match find_chr lbrace body, rfind_chr rbrace body with
  | Some start, Some last_brace =>
      let end_ := last_brace + 1 in
      if start <? end_ then slice start end_ body else body
  | _, _ => body
  end = j.
Proof.
  intros (mid & ->) (pre & post & -> & Hpre & Hpost).
  assert (F : find_chr lbrace (pre ++ (lbrace :: mid ++ [rbrace]) ++ post)
              = Some (length pre)).
  { change (pre ++ (lbrace :: mid ++ [rbrace]) ++ post)
      with (pre ++ lbrace :: ((mid ++ [rbrace]) ++ post)).
    apply find_chr_app, Hpre. }
  assert (R : rfind_chr rbrace (pre ++ (lbrace :: mid ++ [rbrace]) ++ post)
              = Some (length (pre ++ lbrace :: mid))).
  { replace (pre ++ (lbrace :: mid ++ [rbrace]) ++ post)
      with ((pre ++ lbrace :: mid) ++ rbrace :: post)
      by (rewrite <- !app_assoc; simpl; rewrite <- app_assoc; reflexivity).
    apply rfind_chr_app, Hpost. }
  rewrite F, R. cbv zeta.
  rewrite length_app. cbn [length].
  assert (L : (length pre <? length pre + S (length mid) + 1) = true)
    by (apply Nat.ltb_lt; lia).
  rewrite L.
  replace (length pre + S (length mid) + 1)
    with (length pre + length (lbrace :: mid ++ [rbrace]))
    by (cbn [length]; rewrite length_app; cbn [length]; lia).
  apply slice_middle.
Qed.



Lemma clean_response_plain raw j :
  object_text j -> startswith (strip raw) fence = false -> embeds (strip raw) j ->
  clean_response raw = j.
Proof.
  intros Hj Hf He. unfold clean_response. rewrite Hf. apply braces_found; assumption.
Qed.


End ResponseFacts.



(** C5 (amended): when the cleaned answer of the model does not parse,
    [complete_with_json] raises the error of [json.loads] itself, unchanged. *)
Theorem complete_with_json_propagates_parser_error
  (value : Type) (json_loads : str -> result value)
  (complete : str -> option str -> result str) prompt system_prompt raw e :
  complete (prompt ++ [nl; nl] ++ json_instruction) system_prompt = Ok raw ->
  json_loads (clean_response raw) = Raise e ->
  complete_with_json json_loads complete prompt system_prompt = Raise e.
Proof.
  intros Hc He. unfold complete_with_json. rewrite Hc. exact He.
Qed.

Lemma complete_with_json_propagates_parser_error_witness :
  complete_with_json Json.loads (answering (lit "oops")) (lit "q") None
  = Raise (Json.JSONDecodeError "Expecting value").
Proof.
  apply (complete_with_json_propagates_parser_error Json.json Json.loads
           (answering (lit "oops")) (lit "q") None (lit "oops")).
  - reflexivity.
  - vm_compute. reflexivity.
Defined.

(** C5, as stated, fails: on the answer [oops] the cleaned text does not
    parse and the error that comes out is not a [MalformedStructuredOutput]. *)
Lemma complete_with_json_bare_parser_error :
  (exists e, Json.loads (clean_response (lit "oops")) = Raise e)
  /\ ~ (exists msg,
          complete_with_json Json.loads (answering (lit "oops")) (lit "q") None
          = Raise (mkExn "MalformedStructuredOutput" msg)).
Proof.
  split.
  - eexists. vm_compute. reflexivity.
  - intros (msg & H). vm_compute in H. discriminate.
Qed.

(** * Ingestion *)

Section ParseFacts.

Lemma parse_pages_readable raw : forall i acc md,
  List.Forall readable raw ->
  exists pages' md',
    parse_pages i raw acc md = Ok (acc ++ pages', md')
    /\ map page_number pages' = seq (i + 1) (length raw)
    /\ map PdfParser.text pages' = map page_text raw
    /\ md' !! "error" = md !! "error".
Proof.
  induction raw as [|p raw IH]; intros i acc md H.
  - exists [], md. rewrite app_nil_r. repeat split.
  - inversion H as [|? ? [t Ht] Hraw]; subst.
    cbn [parse_pages]. rewrite Ht. cbn [bind].
    match goal with
    | |- context [parse_pages (S i) raw ?acc' ?md'] =>
        destruct (IH (S i) acc' md' Hraw) as (ps & md2 & E & Hn & Ht' & Hm)
    end.
    eexists (_ :: ps), md2. rewrite E. split; [|split; [|split]].
    + rewrite <- app_assoc. reflexivity.
    + cbn [map page_number length seq]. f_equal.
      rewrite Hn. replace (S i + 1) with (S (i + 1)) by lia. reflexivity.
    + cbn [map PdfParser.text]. rewrite Ht'. unfold page_text. rewrite Ht. reflexivity.
    + rewrite Hm. destruct (i =? 0); [|reflexivity].
      destruct (_company_name_from_largest_text p); [|reflexivity].
      apply lookup_insert_ne. discriminate.
Qed.

End ParseFacts.

(** C9 (amended): when the file cannot be opened, [parse] fails with the
    error raised by [pdfplumber.open], unchanged; when only the document
    information cannot be read, it records the error under the key [error]
    and still returns every page, numbered from 1. *)
Theorem parse_failure_modes pdf_path file :
  (forall e, pdf_open file = Raise e -> parse pdf_path file = Raise e)
  /\ (forall e raw,
        pdf_reader file = Raise e -> pdf_open file = Ok raw ->
        List.Forall readable raw ->
        exists deck,
          parse pdf_path file = Ok deck
          /\ metadata deck !! "error" = Some (exn_msg e)
          /\ total_pages deck = length raw
          /\ map page_number (pages deck) = seq 1 (length raw)
          /\ map PdfParser.text (pages deck) = map page_text raw).
Proof.
  split.
  - intros e H. unfold parse. rewrite H. reflexivity.
  - intros e raw Hr Ho Hraw. unfold parse. rewrite Hr, Ho. cbn [bind].
    destruct (parse_pages_readable raw 0 [] {[ "error" := exn_msg e ]} Hraw)
      as (ps & md & E & Hn & Ht & Hm).
    rewrite E. cbn [bind app]. eexists. split; [reflexivity|].
    cbn [metadata total_pages pages].
    split; [rewrite Hm; apply lookup_singleton_eq|].
    split; [rewrite <- (length_map page_number), Hn, length_seq; reflexivity|].
    split; [exact Hn | exact Ht].
Qed.

Lemma parse_failure_modes_witness :
  exists deck,
    parse (lit "decks/acme.pdf") broken_info_file = Ok deck
    /\ metadata deck !! "error" = Some (lit "EOF marker not found")
    /\ total_pages deck = 2
    /\ map page_number (pages deck) = [1; 2]
    /\ map PdfParser.text (pages deck) = [lit "Acme Robotics"; lit "Our market"].
Proof.
  destruct (proj2 (parse_failure_modes (lit "decks/acme.pdf") broken_info_file)
              broken_info_error
              [plain_page "Acme Robotics"; plain_page "Our market"])
    as (deck & E & H).
  - reflexivity.
  - reflexivity.
  - repeat constructor; eexists; reflexivity.
  - exists deck. split; [exact E | exact H].
Defined.

(** C9, as stated, fails: for a path that cannot be opened [parse] raises
    the [FileNotFoundError] of the library, not an [UnreadableDocument]. *)
Lemma parse_missing_file_not_unreadable :
  parse (lit "missing.pdf") missing_file = Raise missing_error
  /\ ~ (exists msg,
          parse (lit "missing.pdf") missing_file
          = Raise (mkExn "UnreadableDocument" msg)).
Proof.
  split; [reflexivity|]. intros (msg & H). vm_compute in H. discriminate.
Qed.

(** * Evidence search *)

Section SearchFacts.

Local Open Scope Z_scope.

Lemma tavily_call_count_app t e :
  tavily_call_count (t ++ [e])
  = (tavily_call_count t + match e with TavilyCall _ _ => 1 | _ => 0 end)%nat.
Proof.
  unfold tavily_call_count. rewrite List.filter_app, length_app.
  destruct e; reflexivity.
Qed.

Lemma same_primary_refl self w : same_primary self w self w.
Proof. split; reflexivity. Qed.

Lemma same_primary_trans s1 w1 s2 w2 s3 w3 :
  same_primary s1 w1 s2 w2 -> same_primary s2 w2 s3 w3 -> same_primary s1 w1 s3 w3.
Proof. intros [A B] [C D]. split; congruence. Qed.

Lemma same_primary_sleep self w d : same_primary self w self (sleep d w).
Proof.
  split; [reflexivity|]. unfold sleep. cbn [trace].
  rewrite tavily_call_count_app. lia.
Qed.

Lemma get_ddg_client_primary env self w r self' w' :
  _get_ddg_client env self w = (r, self', w') -> same_primary self w self' w'.
Proof.
  unfold _get_ddg_client.
  destruct (_ddg self); [intros [= <- <- <-]; apply same_primary_refl|].
  destruct (ddgs_new env) as [u|e].
  - intros [= <- <- <-]. split; reflexivity.
  - destruct (String.eqb _ _); intros [= <- <- <-]; apply same_primary_refl.
Qed.

Lemma call_ddg_primary env h q self w :
  same_primary self w self (snd (call_ddg env h q w)).
Proof.
  split; [reflexivity|]. unfold call_ddg. cbn [snd trace].
  rewrite tavily_call_count_app. lia.
Qed.

Lemma ddg_try_primary env q attempt self w r self' w' :
  ddg_try env q attempt self w = (r, self', w') -> same_primary self w self' w'.
Proof.
  unfold ddg_try.
  set (w1 := if _ <? _min_ddg_delay then _ else w).
  set (w2 := if (0 <? attempt)%nat then _ else w1).
  assert (P2 : same_primary self w self w2).
  { apply (same_primary_trans _ _ self w1).
    - subst w1. destruct (_ <? _); [apply same_primary_sleep | apply same_primary_refl].
    - subst w2. destruct (0 <? attempt)%nat; [apply same_primary_sleep | apply same_primary_refl]. }
  destruct (_get_ddg_client env self w2) as [[g self3] w3] eqn:G.
  pose proof (get_ddg_client_primary _ _ _ _ _ _ G) as P3.
  destruct g as [h|e]; [|intros [= <- <- <-]; exact (same_primary_trans _ _ _ _ _ _ P2 P3)].
  pose proof (call_ddg_primary env h q self3 w3) as P4.
  destruct (call_ddg env h q w3) as [reply w4]. cbn [snd] in P4.
  pose proof (same_primary_trans _ _ _ _ _ _ P2 (same_primary_trans _ _ _ _ _ _ P3 P4)) as P.
  destruct (outcome reply); intros [= <- <- <-]; [|exact P].
  apply (same_primary_trans _ _ _ _ _ _ P).
  apply (same_primary_trans _ _ self3 (set_last_ddg_search_time w4));
    [split; reflexivity | apply same_primary_sleep].
Qed.

Lemma ddg_except_primary rc attempt e self w r self' w' :
  ddg_except rc attempt e self w = (r, self', w') -> same_primary self w self' w'.
Proof.
  unfold ddg_except.
  destruct (_ && _); [|destruct (is_connection_issue _)]; intros [= <- <- <-];
    try apply same_primary_refl;
    (split; [reflexivity | apply (same_primary_sleep self)]).
Qed.

Lemma ddg_attempt_primary env q rc attempt self w r self' w' :
  ddg_attempt env q rc attempt self w = (r, self', w') -> same_primary self w self' w'.
Proof.
  unfold ddg_attempt.
  destruct (ddg_try env q attempt self w) as [[b self1] w1] eqn:T.
  pose proof (ddg_try_primary _ _ _ _ _ _ _ _ T) as P1.
  destruct b as [hits|e]; [intros [= <- <- <-]; exact P1|].
  intros X. apply ddg_except_primary in X. exact (same_primary_trans _ _ _ _ _ _ P1 X).
Qed.

Lemma ddg_loop_primary env q rc left : forall attempt self w r self' w',
  ddg_loop env q rc attempt left self w = (r, self', w') -> same_primary self w self' w'.
Proof.
  induction left as [|left IH]; intros attempt self w r self' w'; cbn [ddg_loop].
  - intros [= <- <- <-]. apply same_primary_refl.
  - destruct (ddg_attempt env q rc attempt self w) as [[o self1] w1] eqn:A.
    pose proof (ddg_attempt_primary _ _ _ _ _ _ _ _ _ A) as P1.
    destruct o as [hits|]; [intros [= <- <- <-]; exact P1|].
    intros L. apply IH in L. exact (same_primary_trans _ _ _ _ _ _ P1 L).
Qed.

Lemma search_without_primary env self q rc w :
  _use_tavily self = false ->
  WebSearch.search env self q rc w = _search_duckduckgo env self q rc w.
Proof. intros H. unfold WebSearch.search. rewrite H. reflexivity. Qed.

Lemma session_without_primary env queries : forall self w,
  _use_tavily self = false ->
  _use_tavily (fst (session env self queries w)) = false
  /\ tavily_call_count (trace (snd (session env self queries w)))
     = tavily_call_count (trace w).
Proof.
  induction queries as [|[q rc] queries IH]; intros self w H; cbn [session].
  - split; [exact H | reflexivity].
  - rewrite (search_without_primary _ _ _ _ _ H). unfold _search_duckduckgo.
    destruct (ddg_loop env q rc 0 (rc + 1) self w) as [[r self1] w1] eqn:L.
    apply ddg_loop_primary in L as [U C].
    destruct (IH self1 w1) as [U' C']; [congruence|].
    split; [exact U' | congruence].
Qed.

Lemma search_tavily_failure_disables env self q rc w e self_t w_t :
  _use_tavily self = true -> tavily_api_key env = true ->
  _search_tavily env self q w = (Raise e, self_t, w_t) ->
  _use_tavily (snd (fst (WebSearch.search env self q rc w))) = false.
Proof.
  intros U K T. unfold WebSearch.search. rewrite U, K, T. cbn [andb].
  unfold _search_duckduckgo.
  destruct (ddg_loop env q rc 0 (rc + 1) (set_use_tavily false self_t) w_t)
    as [[r self1] w1] eqn:L.
  apply ddg_loop_primary in L as [U1 _]. cbn [fst snd]. rewrite U1. reflexivity.
Qed.

End SearchFacts.

(** C4: once a primary (Tavily) search of a client has raised, the client
    has the primary switched off, no later search of its session calls the
    primary again, and each later search is the fallback search. *)
Theorem tavily_not_retried_after_failure env self query retry_count w e self_t w_t :
  _use_tavily self = true -> tavily_api_key env = true ->
  _search_tavily env self query w = (Raise e, self_t, w_t) ->
  let self1 := snd (fst (WebSearch.search env self query retry_count w)) in
  let w1 := snd (WebSearch.search env self query retry_count w) in
  _use_tavily self1 = false
  /\ (forall later,
        _use_tavily (fst (session env self1 later w1)) = false
        /\ tavily_call_count (trace (snd (session env self1 later w1)))
           = tavily_call_count (trace w1))
  /\ (forall self' q rc w', _use_tavily self' = false ->
        WebSearch.search env self' q rc w' = _search_duckduckgo env self' q rc w').
Proof.
  intros U K T self1 w1.
  assert (U1 : _use_tavily self1 = false)
    by (apply (search_tavily_failure_disables env self query retry_count w e self_t w_t);
        assumption).
  split; [exact U1|]. split.
  - intros later. apply session_without_primary. exact U1.
  - intros self' q rc w' H. apply search_without_primary. exact H.
Qed.

Lemma tavily_not_retried_after_failure_witness :
  let first := WebSearch.search tavily_down_env primary_client (lit "acme revenue") 2
                 primary_world in
  tavily_call_count (trace (snd first)) = 1%nat
  /\ tavily_call_count
       (trace (snd (session tavily_down_env (snd (fst first))
                      [(lit "acme funding", 2%nat); (lit "acme founders", 2%nat)]
                      (snd first)))) = 1%nat.
Proof.
  intros first. split; [vm_compute; reflexivity|].
  assert (E : tavily_call_count (trace (snd first)) = 1%nat) by (vm_compute; reflexivity).
  rewrite <- E.
  eapply (tavily_not_retried_after_failure tavily_down_env primary_client
            (lit "acme revenue") 2 primary_world).
  - reflexivity.
  - reflexivity.
  - vm_compute. reflexivity.
Defined.

Section RetryFacts.






End RetryFacts.



Section LimiterFacts.

Local Open Scope Z_scope.

Lemma calls_since_refl b w : calls_since b w w.
Proof. exists []. rewrite app_nil_r. split; [reflexivity | intros ? ? ? []]. Qed.

Lemma calls_since_trans b w1 w2 w3 :
  calls_since b w1 w2 -> calls_since b w2 w3 -> calls_since b w1 w3.
Proof.
  intros (e1 & E1 & H1) (e2 & E2 & H2). exists (e1 ++ e2).
  rewrite E2, E1, <- app_assoc. split; [reflexivity|].
  intros a h q [H|H]%in_app_iff; eauto.
Qed.

Lemma calls_since_sleep b d w : calls_since b w (sleep d w).
Proof.
  eexists. split; [reflexivity|]. intros a h q [H|[]]. discriminate.
Qed.

(** What the limiter does ensure: a fallback call is issued no sooner than
    [_min_ddg_delay] after the last search that succeeded. *)
Lemma ddg_try_after_last_success env q attempt self w r self' w' :
  ddg_try env q attempt self w = (r, self', w') ->
  calls_since (_last_ddg_search_time w + _min_ddg_delay) w w'.
Proof.
  unfold ddg_try.
  set (b := _last_ddg_search_time w + _min_ddg_delay).
  set (w1 := if _ <? _min_ddg_delay then _ else w).
  set (w2 := if (0 <? attempt)%nat then _ else w1).
  assert (C1 : calls_since b w w1 /\ b <= clock w1).
  { subst w1 b. destruct (_ <? _) eqn:L.
    - split; [apply calls_since_sleep|]. cbn [sleep clock]. lia.
    - split; [apply calls_since_refl|]. apply Z.ltb_ge in L. lia. }
  assert (C2 : calls_since b w w2 /\ b <= clock w2).
  { destruct C1 as [S1 B1]. subst w2. destruct (0 <? attempt)%nat.
    - split; [exact (calls_since_trans _ _ _ _ S1 (calls_since_sleep _ _ _))|].
      cbn [sleep clock]. lia.
    - split; assumption. }
  destruct C2 as [S2 B2].
  assert (K : forall h selfk wk, calls_since b w wk -> b <= clock wk ->
    (let '(reply, w0) := call_ddg env h q wk in
     match outcome reply with
     | Ok results =>
         (Ok (map (process env (clock w0)) results), selfk,
          sleep 500 (set_last_ddg_search_time w0))
     | Raise e => (Raise e, selfk, w0)
     end) = (r, self', w') -> calls_since b w w').
  { intros h selfk wk Sk Bk. unfold call_ddg.
    set (wc := mkWorld _ _ _ _ _ _).
    assert (Sc : calls_since b w wc).
    { apply (calls_since_trans _ _ wk); [exact Sk|].
      eexists. split; [reflexivity|]. intros a h' q' [[= <- _ _]|[]]. exact Bk. }
    destruct (outcome _); intros [= <- <- <-]; [|exact Sc].
    apply (calls_since_trans _ _ _ _ Sc).
    eexists. cbn [sleep set_last_ddg_search_time trace]. split; [reflexivity|].
    intros t0 h' q' [H|[]]. discriminate. }
  unfold _get_ddg_client. destruct (_ddg self) as [h|].
  - apply K; assumption.
  - destruct (ddgs_new env) as [u|e].
    + apply K; [|exact B2]. destruct S2 as (evs & E & H). exists evs. split; assumption.
    + destruct (String.eqb _ _); intros [= <- <- <-]; exact S2.
Qed.

End LimiterFacts.

(** C2 on the code: a search whose three attempts are rate-limited returns
    without touching [_last_ddg_search_time] and without waiting, so the
    next search calls the fallback provider 150 ms after the previous call. *)
Lemma fallback_calls_after_failure_too_close :
  ddg_call_times
    (trace (snd (session rate_limited_env fallback_client
                   [(lit "acme revenue", 2); (lit "acme funding", 2)] start_world)))
  = [1700000000000; 1700000008150; 1700000021300; 1700000021450]%Z
  /\ (1700000021450 - 1700000021300 < _min_ddg_delay)%Z.
Proof. split; vm_compute; reflexivity. Qed.

(** * Further properties of the validation gate *)

Section GateFacts.

Lemma to_lower_to_upper c : to_lower (to_upper c) = to_lower c.
Proof. destruct c as [[] [] [] [] [] [] [] []]; reflexivity. Qed.

Lemma to_upper_to_lower c : to_upper (to_lower c) = to_upper c.
Proof. destruct c as [[] [] [] [] [] [] [] []]; reflexivity. Qed.

Lemma m_literal_ci_upper l : forall prev s,
  m_literal_ci (upper l) prev s = m_literal_ci l prev s.
Proof.
  induction l as [|x l IH]; intros prev s; [reflexivity|].
  cbn [upper map m_literal_ci]. destruct s as [|c s]; [reflexivity|].
  rewrite to_lower_to_upper. destruct (chr_eqb _ _); [apply IH | reflexivity].
Qed.

Lemma m_literal_ci_length l : forall prev s p' rest,
  m_literal_ci l prev s = Some (p', rest) -> length s = length l + length rest.
Proof.
  induction l as [|x l IH]; intros prev s p' rest; cbn [m_literal_ci].
  - intros [= _ <-]. reflexivity.
  - destruct s as [|c s]; [discriminate|].
    destruct (chr_eqb _ _); [|discriminate].
    intros H. apply IH in H. cbn [length]. lia.
Qed.

Lemma re_whole_word_length needle prev s p' rest :
  re_whole_word needle prev s = Some (p', rest) ->
  length s = length needle + length rest.
Proof.
  unfold re_whole_word, m_seq, m_boundary.
  destruct (at_boundary prev s); [|discriminate].
  destruct (m_literal_ci needle prev s) as [[p1 r1]|] eqn:L; [|discriminate].
  destruct (at_boundary p1 r1); [|discriminate].
  intros [= _ <-]. exact (m_literal_ci_length _ _ _ _ _ L).
Qed.

Lemma findall_count_ext (m m' : matcher) :
  (forall prev s, m prev s = m' prev s) ->
  forall s skip prev, findall_count m skip prev s = findall_count m' skip prev s.
Proof.
  intros E. induction s as [|c s IH]; intros skip prev; [reflexivity|].
  cbn [findall_count]. destruct skip; [|apply IH].
  rewrite <- E. destruct (m prev (c :: s)) as [[p r]|]; rewrite ?IH; reflexivity.
Qed.

(** Matches that each take [k] characters do not overlap. *)
Lemma findall_count_bound (m : matcher) k :
  (forall prev s p' rest, m prev s = Some (p', rest) -> length s = k + length rest) ->
  0 < k ->
  forall s skip prev, k * findall_count m skip prev s <= length s - skip.
Proof.
  intros Hm Hk. induction s as [|c s IH]; intros skip prev; cbn [findall_count].
  - lia.
  - destruct skip as [|j].
    + destruct (m prev (c :: s)) as [[p r]|] eqn:M.
      * apply Hm in M. specialize (IH (length (c :: s) - length r - 1) (Some c)).
        cbn [length] in *. lia.
      * specialize (IH 0 (Some c)). cbn [length]. lia.
    + specialize (IH j (Some c)). cbn [length]. lia.
Qed.

End GateFacts.

(** X1: the word-boundary count of a needle takes non-overlapping matches,
    so the count times the length of the needle never exceeds the length of
    the text; an empty text or an empty needle counts 0. *)
Theorem count_occurrences_bound haystack needle :
  length needle * _count_occurrences haystack needle <= length haystack
  /\ _count_occurrences [] needle = 0
  /\ _count_occurrences haystack [] = 0.
Proof.
  split; [|split; [reflexivity | destruct haystack; reflexivity]].
  unfold _count_occurrences. destruct haystack as [|c h]; [lia|].
  destruct needle as [|x n]; [cbn; lia|].
  pose proof (findall_count_bound (re_whole_word (x :: n)) (length (x :: n))
                (re_whole_word_length (x :: n)) ltac:(cbn; lia) (c :: h) 0 None) as B.
  lia.
Qed.

Lemma is_word_to_upper c : is_word (to_upper c) = is_word c.
Proof. destruct c as [[] [] [] [] [] [] [] []]; reflexivity. Qed.

Lemma at_boundary_upper prev s :
  at_boundary (option_map to_upper prev) (upper s) = at_boundary prev s.
Proof.
  unfold at_boundary. f_equal.
  - destruct prev; [apply is_word_to_upper | reflexivity].
  - destruct s; [reflexivity | apply is_word_to_upper].
Qed.

Lemma m_literal_ci_haystack l : forall prev s,
  m_literal_ci l (option_map to_upper prev) (upper s)
  = match m_literal_ci l prev s with
    | Some (p, r) => Some (option_map to_upper p, upper r)
    | None => None
    end.
Proof.
  induction l as [|x l IH]; intros prev s; cbn [m_literal_ci]; [reflexivity|].
  destruct s as [|c s]; [reflexivity|]. cbn [upper map]. rewrite to_lower_to_upper.
  destruct (chr_eqb _ _); [|reflexivity]. apply (IH (Some c)).
Qed.

Lemma re_whole_word_haystack needle prev s :
  re_whole_word needle (option_map to_upper prev) (upper s)
  = match re_whole_word needle prev s with
    | Some (p, r) => Some (option_map to_upper p, upper r)
    | None => None
    end.
Proof.
  unfold re_whole_word, m_seq, m_boundary. rewrite at_boundary_upper.
  destruct (at_boundary prev s); [|reflexivity].
  rewrite m_literal_ci_haystack.
  destruct (m_literal_ci needle prev s) as [[p r]|]; [|reflexivity].
  rewrite at_boundary_upper. destruct (at_boundary p r); reflexivity.
Qed.

Lemma findall_count_upper (m : matcher) :
  (forall prev s,
     m (option_map to_upper prev) (upper s)
     = match m prev s with
       | Some (p, r) => Some (option_map to_upper p, upper r)
       | None => None
       end) ->
  forall s skip prev,
    findall_count m skip (option_map to_upper prev) (upper s)
    = findall_count m skip prev s.
Proof.
  intros Hm. induction s as [|c s IH]; intros skip prev; [reflexivity|].
  cbn [upper map findall_count]. fold (upper s).
  destruct skip as [|j]; [|apply (IH j (Some c))].
  change (to_upper c :: upper s) with (upper (c :: s)). rewrite Hm.
  destruct (m prev (c :: s)) as [[p r]|].
  - unfold upper at 1 2. rewrite !length_map. cbn [length].
    f_equal. apply (IH _ (Some c)).
  - apply (IH 0 (Some c)).
Qed.

(** X2: for a text and a needle of ASCII characters, the count ignores
    letter case, of the needle and of the text.  (Beyond ASCII [str.upper]
    can change the length of a text, and the count with it.) *)
Theorem count_occurrences_case haystack needle :
  ascii_text haystack -> ascii_text needle ->
  _count_occurrences haystack (upper needle) = _count_occurrences haystack needle
  /\ _count_occurrences (upper haystack) needle = _count_occurrences haystack needle.
Proof.
  intros _ _. split.
  - unfold _count_occurrences. destruct haystack as [|c h]; [reflexivity|].
    destruct needle as [|x n]; [reflexivity|].
    change (upper (x :: n)) with (to_upper x :: upper n). cbv iota.
    change (to_upper x :: upper n) with (upper (x :: n)).
    apply findall_count_ext. intros prev s.
    unfold re_whole_word, m_seq. destruct (m_boundary prev s) as [[p r]|]; [|reflexivity].
    rewrite m_literal_ci_upper. reflexivity.
  - unfold _count_occurrences. destruct haystack as [|c h]; [reflexivity|].
    change (upper (c :: h)) with (to_upper c :: upper h). cbv iota.
    destruct needle as [|x n]; [reflexivity|].
    change (to_upper c :: upper h) with (upper (c :: h)).
    apply (findall_count_upper _ (re_whole_word_haystack (x :: n)) (c :: h) 0 None).
Qed.

Lemma count_occurrences_case_witness :
  _count_occurrences (lit "Acme builds. ACME sells.") (upper (lit "acme")) = 2
  /\ _count_occurrences (upper (lit "Acme builds. ACME sells.")) (lit "acme") = 2.
Proof.
  destruct (count_occurrences_case (lit "Acme builds. ACME sells.") (lit "acme"))
    as [N H]; [reflexivity | reflexivity |].
  rewrite N, H. split; vm_compute; reflexivity.
Defined.

(** X3: the validation gate is monotone in the number of occurrences it
    asks for, and blind to white space around the candidate. *)
Theorem valid_candidate_monotone candidate early_text n m :
  _is_valid_company_candidate candidate early_text n = true ->
  m <= n ->
  _is_valid_company_candidate candidate early_text m = true
  /\ _is_valid_company_candidate (strip candidate) early_text n = true.
Proof.
  intros H L. split.
  - revert H. unfold _is_valid_company_candidate.
    destruct (negb _); [discriminate|]. destruct (_is_generic_phrase _); [discriminate|].
    destruct (0 <? m) eqn:Pm; [|reflexivity].
    apply Nat.ltb_lt in Pm.
    assert (Pn : (0 <? n) = true) by (apply Nat.ltb_lt; lia). rewrite Pn.
    intros C. apply Nat.leb_le in C. apply Nat.leb_le. lia.
  - unfold _is_valid_company_candidate in *. rewrite strip_idem. exact H.
Qed.

Lemma valid_candidate_monotone_witness :
  _is_valid_company_candidate (lit "  Acme ") acme_text 1 = true
  /\ _is_valid_company_candidate (strip (lit "  Acme ")) acme_text 3 = true.
Proof.
  apply (valid_candidate_monotone (lit "  Acme ") acme_text 3 1).
  - vm_compute. reflexivity.
  - lia.
Defined.

(** * White-space normalisation and the generic-phrase check *)

Section NormalizeFacts.

Lemma loose_sub_ws s : forall st, loose_from st (sub_ws is_space st s) = true.
Proof.
  induction s as [|c s IH]; intros st; cbn [sub_ws]; [reflexivity|].
  destruct (is_space c) eqn:E.
  - destruct st; [apply IH|]. cbn [loose_from]. rewrite chr_eqb_refl. apply IH.
  - cbn [loose_from]. destruct (chr_eqb c blank) eqn:B.
    + apply blank_is_space in B. congruence.
    + rewrite E. apply IH.
Qed.

Lemma loose_lstrip s : forall b, loose_from b s = true -> loose_from true (lstrip s) = true.
Proof.
  induction s as [|c s IH]; intros b H; [reflexivity|].
  cbn [loose_from] in H. cbn [lstrip].
  destruct (chr_eqb c blank) eqn:B.
  - rewrite (blank_is_space _ B). apply andb_true_iff in H as [_ H]. apply (IH _ H).
  - apply andb_true_iff in H as [Hc H]. apply negb_true_iff in Hc. rewrite Hc.
    cbn [loose_from]. rewrite B, Hc. exact H.
Qed.

Lemma loose_rstrip s : forall b,
  loose_from b s = true -> rstrip s = [] \/ tight_from b (rstrip s) = true.
Proof.
  induction s as [|c s IH]; intros b H; [left; reflexivity|].
  cbn [loose_from] in H. cbn [rstrip].
  destruct (chr_eqb c blank) eqn:B.
  - apply andb_true_iff in H as [Hb H]. rewrite (blank_is_space _ B).
    destruct (IH _ H) as [E|T].
    + rewrite E. left. reflexivity.
    + destruct (rstrip s) as [|r0 r] eqn:R; [discriminate|].
      right. cbn [tight_from]. rewrite B, Hb. exact T.
  - apply andb_true_iff in H as [Hc H]. right.
    destruct (IH _ H) as [E|T].
    + rewrite E. pose proof Hc as Hc'. apply negb_true_iff in Hc'. rewrite Hc'.
      cbn [tight_from]. rewrite B, Hc. reflexivity.
    + destruct (rstrip s) as [|r0 r] eqn:R.
      * pose proof Hc as Hc'. apply negb_true_iff in Hc'. rewrite Hc'.
        cbn [tight_from]. rewrite B, Hc. reflexivity.
      * cbn [tight_from]. rewrite B, Hc. exact T.
Qed.

Lemma normalize_ws_shape s : normalize_ws s = [] \/ tight (normalize_ws s) = true.
Proof.
  unfold normalize_ws, strip, tight. apply loose_rstrip.
  apply (loose_lstrip _ false), loose_sub_ws.
Qed.

Lemma upper_idem s : upper (upper s) = upper s.
Proof.
  unfold upper. rewrite map_map. apply map_ext. intros c.
  destruct c as [[] [] [] [] [] [] [] []]; reflexivity.
Qed.

Lemma lower_upper s : lower (upper s) = lower s.
Proof. unfold lower, upper. rewrite map_map. apply map_ext, to_lower_to_upper. Qed.

Lemma upper_lower s : upper (lower s) = upper s.
Proof. unfold lower, upper. rewrite map_map. apply map_ext, to_upper_to_lower. Qed.

Lemma lower_idem s : lower (lower s) = lower s.
Proof.
  unfold lower. rewrite map_map. apply map_ext. intros c.
  destruct c as [[] [] [] [] [] [] [] []]; reflexivity.
Qed.

Lemma all_space_normalize s : forallb is_space s = true -> normalize_ws s = [].
Proof.
  intros H. unfold normalize_ws, strip.
  assert (L : forall st, lstrip (sub_ws is_space st s) = []).
  { induction s as [|c s IH]; intros st; [reflexivity|].
    cbn [forallb] in H. apply andb_true_iff in H as [Hc Hs].
    cbn [sub_ws]. rewrite Hc. destruct st; cbn [lstrip]; apply (IH Hs). }
  rewrite L. reflexivity.
Qed.

Lemma generic_map (f : ascii -> ascii) s :
  (forall c, is_space (f c) = is_space c) ->
  (forall c, chr_eqb (f c) blank = chr_eqb c blank) ->
  (forall x, upper (map f x) = upper x) ->
  (forall x, lower (map f x) = lower x) ->
  _is_generic_phrase (map f s) = _is_generic_phrase s.
Proof.
  intros Fs Fb Fu Fl. unfold _is_generic_phrase.
  destruct s as [|c s]; [reflexivity|]. cbn [map].
  change (f c :: map f s) with (map f (c :: s)).
  rewrite normalize_ws_map by assumption. rewrite Fu, Fl. reflexivity.
Qed.

End NormalizeFacts.

(** X4: the white-space normalisation used on candidates gives the empty
    text or a text that begins and ends with a visible character and has
    single blanks only; normalising twice changes nothing, and the largest
    text recorded for the cover is of that shape. *)
Theorem normalize_ws_canonical s :
  (normalize_ws s = [] \/ tight (normalize_ws s) = true)
  /\ normalize_ws (normalize_ws s) = normalize_ws s
  /\ (forall page guess,
        _company_name_from_largest_text page = Some guess ->
        tight guess = true /\ strip guess = guess).
Proof.
  split; [apply normalize_ws_shape|]. split.
  - destruct (normalize_ws_shape s) as [E|T]; [rewrite E; reflexivity|].
    apply normalize_ws_tight, T.
  - intros page guess. unfold _company_name_from_largest_text.
    destruct (extract_words page) as [words|e]; [|discriminate].
    destruct (List.filter _ words) as [|w0 rest]; [discriminate|].
    destruct (Qle_bool _ 0); [discriminate|].
    cbv zeta.
    match goal with
    | |- context [normalize_ws ?x] =>
        destruct (normalize_ws_shape x) as [E|T]; [rewrite E; intros H; discriminate H|];
        destruct (normalize_ws x) as [|g0 g] eqn:N; [intros H; discriminate H|]
    end.
    intros [= <-]. split; [exact T|].
    rewrite <- (normalize_ws_tight _ T) at 2.
    unfold normalize_ws. rewrite <- (normalize_ws_tight _ T) at 1.
    unfold normalize_ws. apply strip_idem.
Qed.

(** X5: the generic-phrase check does not depend, for a text of ASCII
    characters, on letter case nor, for a text with visible content, on how
    its white space is written; a non-empty text made of white space only is
    not reported as generic, although the empty text is. *)
Theorem generic_phrase_insensitive s :
  (ascii_text s ->
   _is_generic_phrase (upper s) = _is_generic_phrase s
   /\ _is_generic_phrase (lower s) = _is_generic_phrase s)
  /\ (normalize_ws s <> [] -> _is_generic_phrase (normalize_ws s) = _is_generic_phrase s)
  /\ (s <> [] -> forallb is_space s = true -> _is_generic_phrase s = false)
  /\ _is_generic_phrase [] = true.
Proof.
  split; [intros _; split|split; [|split; [|reflexivity]]].
  - apply generic_map;
      [apply is_space_to_upper | apply blank_to_upper | apply upper_idem | apply lower_upper].
  - apply generic_map;
      [apply is_space_to_lower | apply blank_to_lower | apply upper_lower | apply lower_idem].
  - intros N. unfold _is_generic_phrase.
    destruct s as [|c s]; [contradiction N; reflexivity|].
    destruct (normalize_ws (c :: s)) as [|g0 g] eqn:E; [contradiction|].
    rewrite <- E.
    assert (I : normalize_ws (normalize_ws (c :: s)) = normalize_ws (c :: s)).
    { destruct (normalize_ws_shape (c :: s)) as [Z|T]; [congruence|].
      apply normalize_ws_tight, T. }
    rewrite I. reflexivity.
  - intros N A. unfold _is_generic_phrase. destruct s as [|c s]; [contradiction|].
    rewrite (all_space_normalize _ A). reflexivity.
Qed.

Lemma generic_phrase_insensitive_witness :
  _is_generic_phrase (normalize_ws (lit " Pitch   Deck ")) = _is_generic_phrase (lit " Pitch   Deck ")
  /\ _is_generic_phrase (lit "   ") = false
  /\ _is_generic_phrase (upper (lit " Pitch   Deck ")) = true.
Proof.
  destruct (generic_phrase_insensitive (lit " Pitch   Deck ")) as (U & W & _).
  destruct (generic_phrase_insensitive (lit "   ")) as (_ & _ & B & _).
  split; [|split].
  - apply W. vm_compute. discriminate.
  - apply B; [discriminate | reflexivity].
  - rewrite (proj1 (U eq_refl)). reflexivity.
Defined.

(** * The cover-page and frequency heuristics *)

Section HeuristicFacts.

Lemma cover_key_le_spec a b :
  cover_key_le a b = true
  <-> length (split_ws a) < length (split_ws b)
      \/ (length (split_ws a) = length (split_ws b) /\ length a <= length b).
Proof.
  unfold cover_key_le.
  rewrite orb_true_iff, andb_true_iff, Nat.ltb_lt, Nat.eqb_eq, Nat.leb_le. reflexivity.
Qed.

Lemma cover_key_le_total a b : cover_key_le a b = false -> cover_key_le b a = true.
Proof.
  intros H. apply cover_key_le_spec.
  destruct (cover_key_le_spec a b) as [_ K].
  destruct (Nat.lt_trichotomy (length (split_ws a)) (length (split_ws b))) as [L|[E|G]].
  - rewrite K in H by (left; exact L). discriminate.
  - destruct (Nat.le_gt_cases (length a) (length b)) as [L|G].
    + rewrite K in H by (right; split; assumption). discriminate.
    + right. split; [congruence | lia].
  - left. exact G.
Qed.

Lemma cover_key_le_trans a b c :
  cover_key_le a b = true -> cover_key_le b c = true -> cover_key_le a c = true.
Proof. rewrite !cover_key_le_spec. lia. Qed.

Lemma cover_key_le_refl a : cover_key_le a a = true.
Proof. apply cover_key_le_spec. right. split; [reflexivity | lia]. Qed.

Lemma strip_no_space s : forallb (fun c => negb (is_space c)) s = true -> strip s = s.
Proof.
  intros H. unfold strip.
  assert (L : lstrip s = s).
  { destruct s as [|c s]; [reflexivity|]. cbn [forallb] in H.
    apply andb_true_iff in H as [Hc _]. apply negb_true_iff in Hc.
    cbn [lstrip]. rewrite Hc. reflexivity. }
  rewrite L. clear L. induction s as [|c s IH]; [reflexivity|].
  cbn [forallb] in H. apply andb_true_iff in H as [Hc Hs]. apply negb_true_iff in Hc.
  rewrite rstrip_cons_keep by exact Hc. rewrite (IH Hs). reflexivity.
Qed.

Lemma tok_class_not_space c : tok_class c = true -> is_space c = false.
Proof. destruct c as [[] [] [] [] [] [] [] []]; intros H; try reflexivity; discriminate H. Qed.

Lemma is_upper_not_space c : is_upper c = true -> is_space c = false.
Proof. destruct c as [[] [] [] [] [] [] [] []]; intros H; try reflexivity; discriminate H. Qed.

Lemma tok_tail_spec t : forall prev n k,
  tok_tail prev t n = Some k ->
  2 <= k /\ n <= k /\ k - n <= length t /\ forallb tok_class (firstn (k - n) t) = true.
Proof.
  induction t as [|c t IH]; intros prev n k; cbn [tok_tail].
  - destruct (_ && _) eqn:S; [|discriminate]. intros [= <-].
    apply andb_true_iff in S as [S _]. apply Nat.leb_le in S.
    rewrite Nat.sub_diag. repeat split; [lia | lia | cbn; lia].
  - assert (Stop : (if (2 <=? n) && at_boundary (Some prev) (c :: t) then Some n else None)
                   = Some k ->
                   2 <= k /\ n <= k /\ k - n <= length (c :: t)
                   /\ forallb tok_class (firstn (k - n) (c :: t)) = true).
    { destruct (_ && _) eqn:S; [|discriminate]. intros [= <-].
      apply andb_true_iff in S as [S _]. apply Nat.leb_le in S.
      rewrite Nat.sub_diag. repeat split; [lia | lia | cbn; lia]. }
    destruct (tok_class c) eqn:C; [|exact Stop].
    destruct (tok_tail c t (S n)) as [k'|] eqn:T; [|exact Stop].
    intros [= <-]. apply IH in T as (K2 & Kn & Kl & Kc).
    split; [exact K2|]. split; [lia|]. split; [cbn [length]; lia|].
    replace (k' - n) with (S (k' - S n)) by lia.
    cbn [firstn forallb]. rewrite C. exact Kc.
Qed.

Lemma re_token_len_shape prev s n :
  re_token_len prev s = Some n -> token_shape (firstn n s).
Proof.
  unfold re_token_len. destruct (at_boundary prev s); [|discriminate].
  destruct s as [|c t]; [discriminate|].
  destruct (is_upper c) eqn:U; [|discriminate].
  destruct (tok_tail c t 0) as [k|] eqn:T; [|discriminate].
  intros [= <-]. apply tok_tail_spec in T as (K2 & _ & Kl & Kc).
  rewrite Nat.sub_0_r in Kl, Kc.
  exists c, (firstn k t). split; [reflexivity|]. split; [exact U|].
  split; [rewrite length_firstn; lia | exact Kc].
Qed.

Lemma findall_tokens_shape s : forall skip prev t,
  In t (findall_tokens skip prev s) -> token_shape t.
Proof.
  induction s as [|c s IH]; intros skip prev t; cbn [findall_tokens]; [intros []|].
  destruct skip as [|j]; [|apply IH].
  destruct (re_token_len prev (c :: s)) as [n|] eqn:R; [|apply IH].
  intros [<-|H]; [exact (re_token_len_shape _ _ _ R) | exact (IH _ _ _ H)].
Qed.

Lemma token_shape_stripped t : token_shape t -> strip t = t.
Proof.
  intros (c & rest & -> & U & _ & C). apply strip_no_space.
  cbn [forallb]. rewrite (is_upper_not_space _ U). cbn [negb andb].
  rewrite forallb_forall in C |- *. intros x Hx.
  rewrite (tok_class_not_space _ (C x Hx)). reflexivity.
Qed.

End HeuristicFacts.

(** X6: the cover-page heuristic returns a stripped line among the first
    fifteen non-empty lines of the page that is at most 80 characters long,
    not generic, not a date and at most 8 words long, and no other such line
    has fewer words, or as many words and fewer characters; it returns the
    empty text exactly when no line qualifies. *)
Theorem cover_text_candidate first_page_text :
  let r := _company_name_from_cover_text first_page_text in
  let lines :=
    firstn 15 (List.filter nonempty (map strip (split_chr nl first_page_text))) in
  let keep line :=
    negb (80 <? length line) && negb (_is_generic_phrase line)
    && negb (is_date_like line) && negb (8 <? length (split_ws line)) in
  (r = [] /\ forall line, In line lines -> keep line = false)
  \/ (In r lines /\ r <> [] /\ strip r = r
      /\ length r <= 80 /\ _is_generic_phrase r = false /\ is_date_like r = false
      /\ length (split_ws r) <= 8
      /\ forall line, In line lines -> keep line = true -> cover_key_le r line = true).
Proof.
  intros r lines keep. subst r. unfold _company_name_from_cover_text.
  destruct first_page_text as [|c0 t0]; [left; split; [reflexivity | intros ? []]|].
  fold lines. fold keep.
  set (cands := List.filter keep lines).
  pose proof (stable_sort_perm cover_key_le cands) as P.
  pose proof (stable_sort_sorted cover_key_le cover_key_le_total cover_key_le_trans cands) as S.
  destruct (stable_sort cover_key_le cands) as [|c rest] eqn:E.
  - left. split; [reflexivity|]. intros line Hl.
    destruct (keep line) eqn:K; [|reflexivity].
    assert (In line cands) by (apply filter_In; split; assumption).
    apply Permutation_nil in P. rewrite P in H. destruct H.
  - right.
    assert (Hc : In c cands) by (apply (Permutation_in _ P); left; reflexivity).
    apply filter_In in Hc as [Hl Hk].
    assert (St : strip c = c).
    { unfold lines in Hl.
      assert (Hf : In c (List.filter nonempty (map strip (split_chr nl (c0 :: t0))))).
      { destruct (in_split _ _ Hl) as (l1 & l2 & Ef).
        rewrite <- (firstn_skipn 15 (List.filter _ _)), Ef. rewrite <- app_assoc.
        apply in_elt. }
      apply filter_In in Hf as [Hf _]. apply in_map_iff in Hf as (x & <- & _).
      apply strip_idem. }
    rewrite St.
    assert (Ne : c <> []).
    { unfold lines in Hl.
      destruct (in_split _ _ Hl) as (l1 & l2 & Ef).
      assert (Hf : In c (List.filter nonempty (map strip (split_chr nl (c0 :: t0))))).
      { rewrite <- (firstn_skipn 15 (List.filter _ _)), Ef. rewrite <- app_assoc.
        apply in_elt. }
      apply filter_In in Hf as [_ Hn]. intros ->. discriminate. }
    unfold keep in Hk. apply andb_true_iff in Hk as [Hk K4].
    apply andb_true_iff in Hk as [Hk K3]. apply andb_true_iff in Hk as [K1 K2].
    apply negb_true_iff in K1, K2, K3, K4.
    apply Nat.ltb_ge in K1, K4.
    repeat split; try assumption.
    intros line Hline Kl.
    assert (Hin : In line (c :: rest)).
    { apply (Permutation_in _ (Permutation_sym P)). apply filter_In. split; assumption. }
    destruct Hin as [<-|Hin]; [apply cover_key_le_refl|].
    inversion S as [|? ? _ F]; subst. rewrite List.Forall_forall in F. apply F, Hin.
Qed.

(** X7: the proper-noun frequency heuristic returns the empty text or a
    token of the text: a capital followed by at least two characters of the
    token class, without white space, that is not blacklisted, is plausible
    and is not generic. *)
Theorem frequency_heuristic_result_is_token text filename_hint title_hint :
  let r := _company_name_from_proper_noun_frequency text filename_hint title_hint in
  r = []
  \/ (In r (findall_tokens 0 None text) /\ token_shape r /\ strip r = r
      /\ ~ In r blacklist /\ _is_plausible_company_name r = true
      /\ _is_generic_phrase r = false).
Proof.
  intros r. subst r.
  destruct (frequency_result text filename_hint title_hint) as [[E _]|(n & Hin & Hs & _)];
    [left; exact E|].
  right. unfold most_common in Hin.
  apply in_firstn_split in Hin as (l1 & l2 & E & _).
  pose proof (in_elt (_company_name_from_proper_noun_frequency text filename_hint title_hint, n)
                l1 l2) as Hin.
  rewrite <- E in Hin. apply (Permutation_in _ (stable_sort_perm _ _)) in Hin.
  apply Counter_in in Hin as [_ Ht].
  pose proof (findall_tokens_shape _ _ _ _ Ht) as Sh.
  split; [exact Ht|]. split; [exact Sh|]. split; [exact (token_shape_stripped _ Sh)|].
  unfold survives in Hs. apply andb_true_iff in Hs as [Hs G].
  apply andb_true_iff in Hs as [B Pl]. apply negb_true_iff in B, G.
  split; [|split; assumption].
  intros Hb. apply str_in_In in Hb. congruence.
Qed.

(** * Ingestion, page lookup and sections *)

Section ParseMoreFacts.

Lemma parse_pages_ok_readable raw : forall i acc md ps md',
  parse_pages i raw acc md = Ok (ps, md') -> List.Forall readable raw.
Proof.
  induction raw as [|p raw IH]; intros i acc md ps md' H; [constructor|].
  cbn [parse_pages] in H. destruct (extract_text p) as [t|e] eqn:T; [|discriminate].
  cbn [bind] in H. constructor; [exists t; exact T | exact (IH _ _ _ _ _ H)].
Qed.

Lemma parse_pages_guess raw : forall i acc md ps md' (k : string),
  parse_pages i raw acc md = Ok (ps, md') ->
  md' !! k
  = if negb (String.eqb k "company_name_guess") then md !! k
    else match i, raw with
         | 0, p :: _ =>
             match _company_name_from_largest_text p with
             | Some guess => Some guess
             | None => md !! k
             end
         | _, _ => md !! k
         end.
Proof.
  induction raw as [|p raw IH]; intros i acc md ps md' k H.
  - cbn [parse_pages] in H. injection H as _ <-.
    destruct (negb _); [reflexivity|]. destruct i; reflexivity.
  - cbn [parse_pages] in H. destruct (extract_text p) as [t|e]; [|discriminate].
    cbn [bind] in H. apply (IH _ _ _ _ _ k) in H. rewrite H. clear H.
    destruct (String.eqb k "company_name_guess") eqn:K; cbn [negb].
    + apply String.eqb_eq in K. subst k.
      destruct i as [|i]; cbn [Nat.eqb].
      * destruct raw; destruct (_company_name_from_largest_text p);
          try reflexivity; apply lookup_insert_eq.
      * destruct raw; reflexivity.
    + apply String.eqb_neq in K.
      destruct (i =? 0); [|reflexivity].
      destruct (_company_name_from_largest_text p); [|reflexivity].
      apply lookup_insert_ne. congruence.
Qed.

Lemma get_text_in_seq ps : forall a,
  map page_number ps = seq a (length ps) ->
  (forall k p, nth_error ps k = Some p -> get_text_in ps (a + k) = PdfParser.text p)
  /\ (forall n, n < a \/ a + length ps <= n -> get_text_in ps n = []).
Proof.
  induction ps as [|p ps IH]; intros a H.
  - split; [intros [|k] q Hq; discriminate Hq | reflexivity].
  - cbn [map length seq] in H. injection H as Hp Hps.
    destruct (IH (S a) Hps) as [I1 I2]. split.
    + intros [|k] q Hq; cbn [nth_error get_text_in] in *.
      * injection Hq as <-. rewrite Nat.add_0_r, Hp, Nat.eqb_refl. reflexivity.
      * rewrite Hp. replace (a =? a + S k) with false by (symmetry; apply Nat.eqb_neq; lia).
        replace (a + S k) with (S a + k) by lia. apply I1, Hq.
    + intros n Hn. cbn [get_text_in length] in *. rewrite Hp.
      replace (a =? n) with false by (symmetry; apply Nat.eqb_neq; lia).
      apply I2. lia.
Qed.

Lemma last_cons_nonempty {A} (x : A) l d : l <> [] -> List.last (x :: l) d = List.last l d.
Proof. destruct l; [congruence | reflexivity]. Qed.

Lemma split_chr_aux_last sep s : forall cur,
  ~ In sep cur ->
  ~ In sep (List.last (split_chr_aux sep cur s) [])
  /\ exists dir,
       rev cur ++ s = dir ++ List.last (split_chr_aux sep cur s) []
       /\ (dir = [] \/ exists d, dir = d ++ [sep]).
Proof.
  induction s as [|c s IH]; intros cur Hc.
  - cbn [split_chr_aux List.last]. split.
    + rewrite <- in_rev. exact Hc.
    + exists []. rewrite app_nil_r. split; [reflexivity | left; reflexivity].
  - cbn [split_chr_aux]. destruct (chr_eqb c sep) eqn:E.
    + apply chr_eqb_eq in E. subst c.
      destruct (IH [] (fun F => F)) as (N & dir & Ed & Hd).
      rewrite last_cons_nonempty by apply split_chr_aux_nonempty.
      split; [exact N|].
      exists ((rev cur ++ [sep]) ++ dir). split.
      * cbn [rev app] in Ed. rewrite <- !app_assoc. cbn [app]. f_equal. f_equal. exact Ed.
      * right. destruct Hd as [->|(d & ->)].
        -- exists (rev cur). rewrite app_nil_r. reflexivity.
        -- exists ((rev cur ++ [sep]) ++ d). rewrite <- !app_assoc. reflexivity.
    + assert (Hc' : ~ In sep (c :: cur)).
      { intros [->|F]; [rewrite chr_eqb_refl in E; discriminate | exact (Hc F)]. }
      destruct (IH (c :: cur) Hc') as (N & dir & Ed & Hd).
      split; [exact N|]. exists dir. split; [|exact Hd].
      cbn [rev] in Ed. rewrite <- app_assoc in Ed. exact Ed.
Qed.

Lemma contains_trans k a b :
  contains k a = true -> contains a b = true -> contains k b = true.
Proof.
  intros (x & y & ->)%contains_app (u & v & ->)%contains_app.
  apply contains_app. exists (u ++ x), (y ++ v). rewrite <- !app_assoc. reflexivity.
Qed.

End ParseMoreFacts.

(** X8: after a successful [parse], [get_text_by_page] with the number of
    a page gives the cleaned text of that page, and the empty text for 0 and
    for any number beyond the last page; [total_pages] counts the pages and
    [full_text] joins their texts with blank lines. *)
Theorem parse_get_text_by_page pdf_path file deck :
  parse pdf_path file = Ok deck ->
  exists raw,
    pdf_open file = Ok raw
    /\ total_pages deck = length raw
    /\ (forall k page, nth_error raw k = Some page ->
          get_text_by_page deck (S k) = page_text page)
    /\ get_text_by_page deck 0 = []
    /\ (forall n, length raw < n -> get_text_by_page deck n = [])
    /\ full_text deck = join [nl; nl] (map page_text raw).
Proof.
  unfold parse. destruct (pdf_open file) as [raw|e]; [|discriminate]. cbn [bind].
  set (md := match pdf_reader file with Ok (Some _) => _ | Ok None => _ | Raise _ => _ end).
  destruct (parse_pages 0 raw [] md) as [[ps md']|e] eqn:P; [|discriminate].
  cbn [bind]. intros [= <-]. exists raw. split; [reflexivity|].
  pose proof (parse_pages_ok_readable _ _ _ _ _ _ P) as R.
  destruct (parse_pages_readable raw 0 [] md R) as (ps' & md2 & E & Hn & Ht & _).
  rewrite P in E. injection E as -> _. cbn [app] in *.
  cbn [total_pages pages full_text get_text_by_page].
  assert (Len : length ps' = length raw)
    by (rewrite <- (length_map page_number), Hn, length_seq; reflexivity).
  rewrite <- Len in Hn. destruct (get_text_in_seq ps' 1 Hn) as [G1 G2].
  split; [exact Len|]. split; [|split; [|split]].
  - intros k page Hk.
    assert (Hp : nth_error (map page_text raw) k = Some (page_text page))
      by (rewrite nth_error_map, Hk; reflexivity).
    rewrite <- Ht, nth_error_map in Hp.
    destruct (nth_error ps' k) as [q|] eqn:Q; [|discriminate].
    injection Hp as <-. apply (G1 k q Q).
  - apply G2. left. lia.
  - intros n Hn'. apply G2. right. lia.
  - rewrite Ht. reflexivity.
Qed.

Lemma parse_get_text_by_page_witness :
  exists deck,
    parse (lit "decks/acme.pdf") broken_info_file = Ok deck
    /\ get_text_by_page deck 2 = lit "Our market"
    /\ get_text_by_page deck 3 = [].
Proof.
  destruct (parse (lit "decks/acme.pdf") broken_info_file) as [deck|e] eqn:P;
    [|vm_compute in P; discriminate P].
  exists deck. split; [reflexivity|].
  destruct (parse_get_text_by_page _ _ _ P) as (raw & Ho & _ & G & _ & Gout & _).
  vm_compute in Ho. injection Ho as <-.
  split; [apply (G 1 (plain_page "Our market")); reflexivity | apply Gout; cbn; lia].
Defined.

(** X9: the file name recorded by [parse] is the part of the path after
    its last slash: it has no slash, and the path is a directory part, empty
    or ending with a slash, followed by it. *)
Theorem parse_filename pdf_path file deck :
  parse pdf_path file = Ok deck ->
  ~ In slash (filename deck)
  /\ exists dir,
       pdf_path = dir ++ filename deck /\ (dir = [] \/ exists d, dir = d ++ [slash]).
Proof.
  unfold parse. destruct (pdf_open file) as [raw|e]; [|discriminate]. cbn [bind].
  destruct (parse_pages 0 raw [] _) as [[ps md']|e]; [|discriminate].
  cbn [bind]. intros [= <-]. cbn [filename].
  exact (split_chr_aux_last slash pdf_path [] (fun F => F)).
Qed.

Lemma parse_filename_witness :
  exists deck,
    parse (lit "decks/acme.pdf") broken_info_file = Ok deck
    /\ ~ In slash (filename deck).
Proof.
  destruct (parse (lit "decks/acme.pdf") broken_info_file) as [deck|e] eqn:P;
    [|vm_compute in P; discriminate P].
  exists deck. split; [reflexivity|].
  exact (proj1 (parse_filename _ _ _ P)).
Defined.

(** X10: the metadata of a parsed document hold an [error] entry exactly
    when reading the document information raised, a [title] entry (stripped)
    exactly when the information was read, and a [company_name_guess] entry
    exactly when the first page has a largest text. *)
Theorem parse_metadata pdf_path file deck :
  parse pdf_path file = Ok deck ->
  metadata deck !! "error"
  = match pdf_reader file with Raise e => Some (exn_msg e) | _ => None end
  /\ metadata deck !! "title"
     = match pdf_reader file with
       | Ok (Some info) => Some (strip (default [] (info_title info)))
       | _ => None
       end
  /\ metadata deck !! "company_name_guess"
     = match pdf_open file with
       | Ok (page :: _) => _company_name_from_largest_text page
       | _ => None
       end.
Proof.
  unfold parse. destruct (pdf_open file) as [raw|e]; [|discriminate]. cbn [bind].
  set (md := match pdf_reader file with Ok (Some _) => _ | Ok None => _ | Raise _ => _ end).
  destruct (parse_pages 0 raw [] md) as [[ps md']|e] eqn:P; [|discriminate].
  cbn [bind]. intros [= <-]. cbn [metadata].
  rewrite !(parse_pages_guess _ _ _ _ _ _ _ P). cbn [String.eqb negb].
  replace (String.eqb "error" "company_name_guess") with false by reflexivity.
  replace (String.eqb "title" "company_name_guess") with false by reflexivity.
  replace (String.eqb "company_name_guess" "company_name_guess") with true by reflexivity.
  cbn [negb].
  assert (G : md !! "company_name_guess" = None)
    by (subst md; destruct (pdf_reader file) as [[info|]|e]; reflexivity).
  split; [|split].
  - subst md. destruct (pdf_reader file) as [[info|]|e]; reflexivity.
  - subst md. destruct (pdf_reader file) as [[info|]|e]; reflexivity.
  - destruct raw as [|page raw]; [exact G|].
    destruct (_company_name_from_largest_text page); [reflexivity | exact G].
Qed.

Lemma parse_metadata_witness :
  exists deck,
    parse (lit "decks/acme.pdf") broken_info_file = Ok deck
    /\ metadata deck !! "error" = Some (lit "EOF marker not found")
    /\ metadata deck !! "title" = None.
Proof.
  destruct (parse (lit "decks/acme.pdf") broken_info_file) as [deck|e] eqn:P;
    [|vm_compute in P; discriminate P].
  exists deck. split; [reflexivity|].
  destruct (parse_metadata _ _ _ P) as (E & T & _). split; [exact E | exact T].
Defined.

(** X11: [extract_sections] always reports the same nine sections; it looks
    at the lower-cased full text only, so for a full text of ASCII
    characters letter case does not matter, and a section found in a text is
    found in every text whose lower-cased form contains its lower-cased
    form. *)
Theorem extract_sections_substring deck :
  map fst (extract_sections deck)
  = ["problem"; "solution"; "market"; "business_model"; "traction"; "competition";
     "team"; "financials"; "ask"]%string
  /\ (ascii_text (full_text deck) ->
      extract_sections
        (mkDeck (filename deck) (total_pages deck) (pages deck) (metadata deck)
           (upper (full_text deck)))
      = extract_sections deck)
  /\ (forall bigger name,
        contains (lower (full_text deck)) (lower (full_text bigger)) = true ->
        In (name, true) (extract_sections deck) ->
        In (name, true) (extract_sections bigger)).
Proof.
  split; [reflexivity|]. split.
  - intros _. unfold extract_sections. cbn [full_text]. rewrite lower_upper. reflexivity.
  - intros bigger name Hc. unfold extract_sections.
    rewrite !in_map_iff. intros ([n kws] & E & Hin). injection E as -> E.
    exists (name, kws). split; [|exact Hin]. f_equal.
    apply existsb_exists in E as (k & Hk & Ck).
    apply existsb_exists. exists k. split; [exact Hk|].
    exact (contains_trans _ _ _ Ck Hc).
Qed.

(** * Text cleaning *)

Section CleanFacts.

Lemma line_char_blank c : line_char c = true -> is_inline_blank c = is_space c.
Proof. destruct c as [[] [] [] [] [] [] [] []]; intros H; try reflexivity; discriminate H. Qed.

Lemma line_char_kept c : line_char c = true -> kept_char c = true.
Proof. unfold line_char. intros [H _]%andb_true_iff. exact H. Qed.

Lemma sub_ws_same (p q : ascii -> bool) x :
  (forall c, In c x -> p c = q c) -> forall st, sub_ws p st x = sub_ws q st x.
Proof.
  induction x as [|c x IH]; intros H st; [reflexivity|].
  cbn [sub_ws]. rewrite (H c) by (left; reflexivity).
  assert (H' : forall d, In d x -> p d = q d) by (intros d Hd; apply H; right; exact Hd).
  destruct (q c), st; rewrite ?(IH H'); reflexivity.
Qed.

Section Keeps.
Variable P : ascii -> Prop.

Lemma sub_ws_keeps p x : P blank -> (forall c, In c x -> P c) ->
  forall st c, In c (sub_ws p st x) -> P c.
Proof using Type.
  intros Pb. induction x as [|d x IH]; intros H st c; [intros []|].
  assert (H' : forall e, In e x -> P e) by (intros e He; apply H; right; exact He).
  cbn [sub_ws]. destruct (p d), st; cbn [In]; intros Hc.
  - exact (IH H' _ _ Hc).
  - destruct Hc as [<-|Hc]; [exact Pb | exact (IH H' _ _ Hc)].
  - destruct Hc as [<-|Hc]; [apply H; left; reflexivity | exact (IH H' _ _ Hc)].
  - destruct Hc as [<-|Hc]; [apply H; left; reflexivity | exact (IH H' _ _ Hc)].
Qed.

Lemma lstrip_keeps x c : In c (lstrip x) -> In c x.
Proof using Type.
  induction x as [|d x IH]; [intros []|]. cbn [lstrip].
  destruct (is_space d); [intros H; right; exact (IH H) | exact (fun H => H)].
Qed.

Lemma rstrip_keeps x c : In c (rstrip x) -> In c x.
Proof using Type.
  induction x as [|d x IH]; [intros []|]. cbn [rstrip].
  destruct (rstrip x) as [|r0 r].
  - destruct (is_space d); [intros [] | intros [<-|[]]; left; reflexivity].
  - intros [<-|H]; [left; reflexivity | right; exact (IH H)].
Qed.

End Keeps.

Lemma strip_tight l : tight l = true -> strip l = l.
Proof.
  intros T. rewrite <- (normalize_ws_tight _ T) at 2.
  unfold normalize_ws.
  pose proof (sub_ws_tight_app l true false [] T) as S1.
  rewrite !app_nil_r in S1. rewrite S1 by discriminate. reflexivity.
Qed.

(** What one line becomes: nothing, or a tight line of line characters. *)
Lemma clean_line_shape x :
  (forall c, In c x -> line_char c = true) ->
  clean_line x = [] \/ (tight (clean_line x) = true
                        /\ forall c, In c (clean_line x) -> line_char c = true).
Proof.
  intros H. unfold clean_line.
  rewrite (sub_ws_same is_inline_blank is_space x)
    by (intros c Hc; apply line_char_blank, H, Hc).
  change (strip (sub_ws is_space false x)) with (normalize_ws x).
  destruct (normalize_ws_shape x) as [E|T]; [left; exact E|]. right.
  split; [exact T|]. intros c Hc. unfold normalize_ws, strip in Hc.
  apply rstrip_keeps, lstrip_keeps in Hc.
  revert Hc. apply (sub_ws_keeps (fun c => line_char c = true)); [reflexivity | exact H].
Qed.

Lemma clean_line_fixed l :
  tight l = true -> (forall c, In c l -> line_char c = true) -> clean_line l = l.
Proof.
  intros T H. unfold clean_line.
  rewrite (sub_ws_same is_inline_blank is_space l)
    by (intros c Hc; apply line_char_blank, H, Hc).
  apply (normalize_ws_tight _ T).
Qed.

Lemma replace_crlf_fixed s : ~ In cr s -> replace_crlf s = s.
Proof.
  induction s as [|c s IH]; intros H; [reflexivity|].
  cbn [replace_crlf]. destruct s as [|d t]; [reflexivity|].
  rewrite (chr_eqb_neq c cr) by (intros ->; apply H; left; reflexivity).
  cbn [andb]. f_equal. apply IH. intros F. apply H. right. exact F.
Qed.

Lemma replace_cr_fixed s : ~ In cr s -> replace_cr s = s.
Proof.
  induction s as [|c s IH]; intros H; [reflexivity|].
  cbn [replace_cr map]. rewrite (chr_eqb_neq c cr) by (intros ->; apply H; left; reflexivity).
  f_equal. apply IH. intros F. apply H. right. exact F.
Qed.

Lemma replace_cr_no_cr s : ~ In cr (replace_cr s).
Proof.
  unfold replace_cr. rewrite in_map_iff. intros (c & E & _).
  destruct (chr_eqb c cr) eqn:B; [discriminate E|].
  subst c. rewrite chr_eqb_refl in B. discriminate.
Qed.

Lemma filter_fixed {A} (f : A -> bool) l :
  (forall x, In x l -> f x = true) -> List.filter f l = l.
Proof.
  induction l as [|a l IH]; intros H; [reflexivity|].
  cbn [List.filter]. rewrite (H a) by (left; reflexivity).
  f_equal. apply IH. intros x Hx. apply H. right. exact Hx.
Qed.

(** The pieces of a text between separators hold the characters of the
    text, the separator apart. *)
Lemma split_chr_aux_chars (P : ascii -> Prop) sep s : forall cur,
  (forall c, In c cur -> P c) -> (forall c, In c s -> c <> sep -> P c) ->
  forall piece, In piece (split_chr_aux sep cur s) -> forall c, In c piece -> P c.
Proof.
  induction s as [|d s IH]; intros cur Hcur Hs piece; cbn [split_chr_aux].
  - intros [<-|[]] c Hc. apply Hcur, in_rev, Hc.
  - assert (Hs' : forall c, In c s -> c <> sep -> P c)
      by (intros c Hc; apply Hs; right; exact Hc).
    destruct (chr_eqb d sep) eqn:E.
    + intros [<-|Hp] c Hc; [apply Hcur, in_rev, Hc|].
      exact (IH [] (fun _ F => match F with end) Hs' piece Hp c Hc).
    + apply IH; [|exact Hs'].
      intros c [<-|Hc]; [|exact (Hcur c Hc)].
      apply Hs; [left; reflexivity|]. intros ->. rewrite chr_eqb_refl in E. discriminate.
Qed.

(** A list of cleaned lines: each one tight and made of line characters. *)
Lemma join_lines_chars (L : list str) c :
  (forall l, In l L -> forall d, In d l -> line_char d = true) ->
  In c (join [nl] L) -> kept_char c = true.
Proof.
  induction L as [|l L IH]; intros H; [intros []|].
  destruct L as [|l' L'].
  - cbn [join]. intros Hc. apply line_char_kept, (H l); [left; reflexivity | exact Hc].
  - change (join [nl] (l :: l' :: L')) with (l ++ [nl] ++ join [nl] (l' :: L')).
    rewrite !in_app_iff. intros [Hc|[[<-|[]]|Hc]].
    + apply line_char_kept, (H l); [left; reflexivity | exact Hc].
    + reflexivity.
    + apply IH; [|exact Hc]. intros l0 Hl0. apply H. right. exact Hl0.
Qed.

Lemma split_join_lines (L : list str) :
  L <> [] -> (forall l, In l L -> ~ In nl l) -> split_chr nl (join [nl] L) = L.
Proof.
  induction L as [|l L IH]; intros N H; [contradiction|].
  destruct L as [|l' L'].
  - cbn [join]. unfold split_chr. rewrite split_chr_aux_plain by (apply H; left; reflexivity).
    reflexivity.
  - change (join [nl] (l :: l' :: L')) with (l ++ nl :: join [nl] (l' :: L')).
    unfold split_chr. rewrite split_chr_aux_app.
    rewrite split_chr_aux_plain by (apply H; left; reflexivity).
    rewrite IH; [reflexivity | discriminate |].
    intros l0 Hl0. apply H. right. exact Hl0.
Qed.

Lemma strip_join_lines (L : list str) :
  (forall l, In l L -> tight l = true) -> strip (join [nl] L) = join [nl] L.
Proof.
  intros H. destruct L as [|l L]; [reflexivity|].
  assert (R : forall M : list str, M <> [] -> (forall m, In m M -> tight m = true) ->
              rstrip (join [nl] M) = join [nl] M /\ join [nl] M <> []).
  { induction M as [|m M IH]; intros NM HM; [contradiction|].
    assert (Tm : tight m = true) by (apply HM; left; reflexivity).
    destruct M as [|m' M'].
    - cbn [join]. split; [|apply tight_nonempty, Tm].
      pose proof (rstrip_tight_app m true [] Tm) as Q. rewrite !app_nil_r in Q. exact Q.
    - change (join [nl] (m :: m' :: M')) with (m ++ [nl] ++ join [nl] (m' :: M')).
      rewrite app_assoc.
      destruct (IH ltac:(discriminate) (fun x Hx => HM x (or_intror Hx))) as [RI NI].
      split.
      + rewrite rstrip_app_keep by (rewrite RI; exact NI). rewrite RI. reflexivity.
      + intros Z. apply app_eq_nil in Z as [_ Z]. contradiction. }
  unfold strip.
  assert (Tl : tight l = true) by (apply H; left; reflexivity).
  destruct (tight_from_cons _ _ Tl (tight_nonempty _ Tl)) as (c & t & -> & Hc).
  assert (Lk : lstrip (join [nl] ((c :: t) :: L)) = join [nl] ((c :: t) :: L)).
  { destruct L; cbn [join app lstrip]; rewrite (Hc eq_refl); reflexivity. }
  transitivity (rstrip (join [nl] ((c :: t) :: L))); [f_equal; exact Lk|].
  apply R; [discriminate | exact H].
Qed.

(** The cleaned lines of a text. *)
Lemma clean_text_lines text :
  exists L : list str,
    _clean_text text = join [nl] L
    /\ (forall l, In l L -> tight l = true /\ forall c, In c l -> line_char c = true).
Proof.
  unfold _clean_text.
  set (t1 := List.filter (fun c => negb (is_control c)) (replace_cr (replace_crlf text))).
  set (L := List.filter nonempty
              (map (fun line => strip (sub_ws is_inline_blank false line))
                 (split_chr nl t1))).
  assert (K1 : forall c, In c t1 -> kept_char c = true).
  { intros c Hc. subst t1. apply filter_In in Hc as [Hc Nc].
    unfold kept_char. rewrite Nc. cbn [andb].
    rewrite chr_eqb_neq; [reflexivity|]. intros ->. exact (replace_cr_no_cr _ Hc). }
  assert (HL : forall l, In l L ->
            tight l = true /\ forall c, In c l -> line_char c = true).
  { intros l Hl. subst L. apply filter_In in Hl as [Hl Nl].
    apply in_map_iff in Hl as (x & <- & Hx).
    fold (clean_line x) in Nl |- *.
    assert (Hxc : forall c, In c x -> line_char c = true).
    { apply (split_chr_aux_chars (fun c => line_char c = true) nl t1 []
               (fun _ F => match F with end)); [|exact Hx].
      intros c Hc Nc. unfold line_char. rewrite (K1 c Hc).
      rewrite (chr_eqb_neq _ _ Nc). reflexivity. }
    destruct (clean_line_shape x Hxc) as [E|R]; [rewrite E in Nl; discriminate | exact R]. }
  exists L. split; [|exact HL].
  apply strip_join_lines. intros l Hl. apply (HL l Hl).
Qed.

End CleanFacts.

(** X12: [_clean_text] is idempotent, and its result has no control
    character, no carriage return, no white space at either end, and no
    empty line. *)
Theorem clean_text_idempotent text :
  _clean_text (_clean_text text) = _clean_text text
  /\ (forall c, In c (_clean_text text) -> is_control c = false /\ c <> cr)
  /\ strip (_clean_text text) = _clean_text text
  /\ (_clean_text text <> [] ->
      forall line, In line (split_chr nl (_clean_text text)) -> line <> []).
Proof.
  destruct (clean_text_lines text) as (L & E & HL). rewrite E.
  assert (Hc : forall l, In l L -> forall d, In d l -> line_char d = true)
    by (intros l Hl; apply (HL l Hl)).
  assert (Ht : forall l, In l L -> tight l = true) by (intros l Hl; apply (HL l Hl)).
  assert (Hn : forall l, In l L -> ~ In nl l).
  { intros l Hl F. pose proof (Hc l Hl nl F) as X. discriminate X. }
  assert (K : forall c, In c (join [nl] L) -> kept_char c = true)
    by (intros c; apply join_lines_chars, Hc).
  assert (Kc : ~ In cr (join [nl] L)).
  { intros F. pose proof (K cr F) as X. discriminate X. }
  split; [|split; [|split]].
  - destruct L as [|l0 L0]; [reflexivity|].
    unfold _clean_text.
    rewrite (replace_crlf_fixed _ Kc), (replace_cr_fixed _ Kc).
    rewrite (filter_fixed (fun c => negb (is_control c)) (join [nl] (l0 :: L0))).
    2:{ intros c Hk. apply K in Hk. unfold kept_char in Hk.
        apply andb_true_iff in Hk as [Hk _]. exact Hk. }
    rewrite (split_join_lines (l0 :: L0)) by (first [discriminate | exact Hn]).
    rewrite (map_ext_in _ (fun l => l)).
    2:{ intros l Hl. apply (clean_line_fixed l (Ht l Hl) (Hc l Hl)). }
    rewrite map_id, filter_fixed.
    2:{ intros l Hl. pose proof (tight_nonempty _ (Ht l Hl)). destruct l; [contradiction | reflexivity]. }
    apply strip_join_lines, Ht.
  - intros c Hk. apply K in Hk. unfold kept_char in Hk.
    apply andb_true_iff in Hk as [H1 H2]. apply negb_true_iff in H1, H2.
    split; [exact H1|]. intros ->. rewrite chr_eqb_refl in H2. discriminate.
  - apply strip_join_lines, Ht.
  - intros N line Hl. destruct L as [|l0 L0]; [contradiction N; reflexivity|].
    rewrite (split_join_lines (l0 :: L0)) in Hl by (first [discriminate | exact Hn]).
    apply tight_nonempty, Ht, Hl.
Qed.

Lemma clean_text_idempotent_witness :
  _clean_text (_clean_text (lit "  Acme   Robotics 
 
Series A	deck  "))
  = _clean_text (lit "  Acme   Robotics 
 
Series A	deck  ")
  /\ strip (_clean_text (lit "  Acme   Robotics 
 
Series A	deck  "))
     = _clean_text (lit "  Acme   Robotics 
 
Series A	deck  ").
Proof.
  split.
  - exact (proj1 (clean_text_idempotent _)).
  - exact (proj1 (proj2 (proj2 (clean_text_idempotent _)))).
Defined.

(** * More on the cleaning of model answers *)

Section CleanResponseFacts.

Lemma find_chr_some c s : forall i,
  find_chr c s = Some i ->
  exists pre post, s = pre ++ c :: post /\ length pre = i /\ ~ In c pre.
Proof.
  induction s as [|x s IH]; intros i; cbn [find_chr]; [discriminate|].
  destruct (chr_eqb x c) eqn:E.
  - intros [= <-]. apply chr_eqb_eq in E. subst x.
    exists [], s. repeat split. intros [].
  - destruct (find_chr c s) as [j|]; [|discriminate].
    cbn [option_map]. intros [= <-].
    destruct (IH j eq_refl) as (pre & post & -> & L & N).
    exists (x :: pre), post. split; [reflexivity|]. split; [cbn; lia|].
    intros [->|F]; [rewrite chr_eqb_refl in E; discriminate | exact (N F)].
Qed.

Lemma rfind_chr_in c s : In c s -> exists j, rfind_chr c s = Some j.
Proof.
  induction s as [|x s IH]; [intros []|]. cbn [rfind_chr].
  destruct (rfind_chr c s) as [k|]; [eexists; reflexivity|].
  intros [->|H]; [rewrite chr_eqb_refl; eexists; reflexivity|].
  destruct (IH H) as (j & Hj). discriminate Hj.
Qed.

Lemma rfind_chr_some c s : forall j,
  rfind_chr c s = Some j ->
  exists pre post, s = pre ++ c :: post /\ length pre = j /\ ~ In c post.
Proof.
  induction s as [|x s IH]; intros j; cbn [rfind_chr]; [discriminate|].
  destruct (rfind_chr c s) as [k|] eqn:R.
  - intros [= <-]. destruct (IH k eq_refl) as (pre & post & -> & L & N).
    exists (x :: pre), post. split; [reflexivity|]. split; [cbn; lia | exact N].
  - destruct (chr_eqb x c) eqn:E; [|discriminate].
    intros [= <-]. apply chr_eqb_eq in E. subst x.
    exists [], s. repeat split.
    intros F. destruct (rfind_chr_in _ _ F) as (j & Hj). congruence.
Qed.

Lemma find_chr_in c s : In c s -> exists i, find_chr c s = Some i.
Proof.
  induction s as [|x s IH]; [intros []|]. cbn [find_chr].
  destruct (chr_eqb x c) eqn:E; [eexists; reflexivity|].
  intros [->|H]; [rewrite chr_eqb_refl in E; discriminate|].
  destruct (IH H) as (i & ->). eexists. reflexivity.
Qed.

Lemma strip_ends (c d : ascii) (mid : str) :
  is_space c = false -> is_space d = false ->
  strip (c :: mid ++ [d]) = c :: mid ++ [d].
Proof.
  intros Hc Hd. unfold strip. cbn [lstrip]. rewrite Hc.
  change (c :: mid ++ [d]) with ((c :: mid) ++ [d]).
  rewrite rstrip_app_keep; cbn [rstrip]; rewrite Hd; [reflexivity | discriminate].
Qed.

Lemma object_text_fixed j : object_text j -> clean_response j = j.
Proof.
  intros Hj. pose proof Hj as (mid & ->).
  apply clean_response_plain; [exact Hj | |].
  - rewrite strip_ends by reflexivity. reflexivity.
  - rewrite strip_ends by reflexivity. exists [], []. rewrite app_nil_r.
    split; [reflexivity|]. split; intros [].
Qed.

(** What the search for the braces gives on a text. *)
Lemma braces_cut u :
  let c := match find_chr lbrace u, rfind_chr rbrace u with
           | Some start, Some last_brace =>
               if start <? last_brace + 1 then slice start (last_brace + 1) u else u
           | _, _ => u
           end in
  object_text c \/ (c = u /\ forall pre mid post, u <> pre ++ lbrace :: mid ++ rbrace :: post).
Proof.
  cbv zeta.
  destruct (find_chr lbrace u) as [a|] eqn:F.
  2:{ right. split; [reflexivity|]. intros pre mid post E.
      destruct (find_chr_in lbrace u) as (i & Hi); [|congruence].
      rewrite E. apply in_elt. }
  destruct (rfind_chr rbrace u) as [b|] eqn:R.
  2:{ right. split; [reflexivity|]. intros pre mid post E.
      destruct (rfind_chr_in rbrace u) as (j & Hj); [|congruence].
      rewrite E. apply in_or_app. right. right. apply in_elt. }
  destruct (find_chr_some _ _ _ F) as (p1 & q1 & E1 & L1 & N1).
  destruct (rfind_chr_some _ _ _ R) as (p2 & q2 & E2 & L2 & N2).
  destruct (a <? b + 1) eqn:Lt.
  - left. apply Nat.ltb_lt in Lt.
    assert (E : p1 ++ lbrace :: q1 = p2 ++ rbrace :: q2) by congruence.
    apply app_eq_app in E as (l & [[Ea Eb]|[Ea Eb]]).
    + (* the first opening brace would come after the last closing brace *)
      destruct l as [|x l].
      * rewrite app_nil_r in Ea. cbn [app] in Eb. discriminate Eb.
      * exfalso. rewrite Ea, length_app in L1. cbn [length] in L1. lia.
    + destruct l as [|x l]; [cbn [app] in Eb; discriminate Eb|].
      cbn [app] in Eb. injection Eb as <- Eq.
      exists l. rewrite E2, Ea, <- L1.
      replace (b + 1) with (length p1 + length (lbrace :: l ++ [rbrace])).
      2:{ rewrite <- L2, Ea, length_app. cbn [length]. rewrite length_app. cbn [length]. lia. }
      replace ((p1 ++ lbrace :: l) ++ rbrace :: q2)
        with (p1 ++ (lbrace :: l ++ [rbrace]) ++ q2)
        by (cbn [app]; rewrite <- !app_assoc; reflexivity).
      apply slice_middle.
  - right. split; [reflexivity|]. intros pre mid post E.
    apply Nat.ltb_ge in Lt.
    (* the first opening brace is at or before [pre], the last closing one after *)
    assert (A : a <= length pre).
    { assert (E1' : pre ++ lbrace :: mid ++ rbrace :: post = p1 ++ lbrace :: q1)
        by congruence.
      apply app_eq_app in E1' as (l & [[Ea Eb]|[Ea Eb]]).
      - rewrite <- L1, Ea, length_app. lia.
      - destruct l as [|x l].
        + rewrite app_nil_r in Ea. rewrite <- L1, Ea. lia.
        + cbn [app] in Eb. injection Eb as <- Eq. exfalso. apply N1.
          rewrite Ea. apply in_elt. }
    assert (B : length pre + 1 + length mid <= b).
    { rewrite <- L2.
      assert (E' : (pre ++ lbrace :: mid) ++ rbrace :: post = p2 ++ rbrace :: q2)
        by (rewrite <- app_assoc; cbn [app]; congruence).
      apply app_eq_app in E' as (l & [[Ea Eb]|[Ea Eb]]).
      - destruct l as [|x l].
        + rewrite app_nil_r in Ea. rewrite <- Ea, length_app. cbn [length]. lia.
        + cbn [app] in Eb. injection Eb as <- Eq. exfalso. apply N2.
          rewrite Eq. apply in_elt.
      - rewrite Ea, length_app, length_app. cbn [length]. lia. }
    lia.
Qed.

End CleanResponseFacts.

(** X13: what [complete_with_json] hands to [json.loads] is either an
    object text (from an opening to a closing brace), which cleaning again
    leaves as it is, or the unfenced answer, and then the answer has no
    opening brace followed by a closing one. *)
Theorem clean_response_object_or_untouched response :
  (object_text (clean_response response)
   /\ clean_response (clean_response response) = clean_response response)
  \/ (forall pre mid post,
        clean_response response <> pre ++ lbrace :: mid ++ rbrace :: post).
Proof.
  assert (C : exists u,
            clean_response response
            = match find_chr lbrace u, rfind_chr rbrace u with
              | Some start, Some last_brace =>
                  if start <? last_brace + 1 then slice start (last_brace + 1) u else u
              | _, _ => u
              end) by (eexists; reflexivity).
  destruct C as (u & C). rewrite C.
  destruct (braces_cut u) as [O|[E N]].
  - left. split; [exact O|]. apply object_text_fixed, O.
  - right. cbv zeta in E. rewrite E. exact N.
Qed.

(** X14: text outside the outermost braces is dropped: a JSON array whose
    first and last elements are objects reaches [json.loads] without its
    brackets. *)
Theorem clean_response_drops_brackets j :
  object_text j ->
  clean_response ([lbracket] ++ j ++ [rbracket]) = j
  /\ clean_response ([lbracket] ++ j ++ [rbracket]) <> [lbracket] ++ j ++ [rbracket].
Proof.
  intros Hj.
  assert (S : strip ([lbracket] ++ j ++ [rbracket]) = [lbracket] ++ j ++ [rbracket])
    by (apply (strip_ends lbracket rbracket j); reflexivity).
  assert (C : clean_response ([lbracket] ++ j ++ [rbracket]) = j).
  { apply clean_response_plain; [exact Hj | rewrite S; reflexivity |].
    rewrite S. exists [lbracket], [rbracket]. split; [reflexivity|].
    split; cbn; intuition discriminate. }
  split; [exact C|]. rewrite C. intros E.
  apply (f_equal (@length ascii)) in E. cbn [app length] in E.
  rewrite length_app in E. cbn [length] in E. lia.
Qed.

Lemma clean_response_drops_brackets_witness :
  clean_response array_of_objects = object_a1 ++ lit "," ++ object_b2
  /\ (exists v, Json.loads array_of_objects = Ok v)
  /\ complete_with_json Json.loads (answering array_of_objects) (lit "q") None
     = Raise (Json.JSONDecodeError "Extra data").
Proof.
  split; [|split; [eexists; vm_compute; reflexivity | vm_compute; reflexivity]].
  apply (clean_response_drops_brackets (object_a1 ++ lit "," ++ object_b2)).
  exists (removelast (tl (object_a1 ++ lit "," ++ object_b2))). vm_compute. reflexivity.
Defined.

(** * Configuration and construction of the model client *)

(** X15: [LLMClient] can only be constructed for one of the four providers
    it names, with the package of the provider installed; for OpenRouter the
    key it keeps is the configured key stripped and is not empty, for Gemini
    the configured key is not empty; any other provider name is refused with
    a [ValueError]. *)
Theorem llm_client_construction config pk provider model :
  let p := str_or provider (cfg_llm_provider config) in
  (forall client,
     new_llm_client config pk provider model = Ok client ->
     llm_provider client = p
     /\ llm_model client = str_or model (cfg_llm_model config)
     /\ ((p = lit "openrouter" /\ has_requests pk = true
          /\ exists key, _openrouter_api_key client = Some key /\ key <> []
                         /\ key = strip (default [] (cfg_openrouter_api_key config)))
         \/ (p = lit "gemini" /\ has_genai pk = true
             /\ truthy (cfg_gemini_api_key config) = true)))
  /\ (~ In p (map lit ["openrouter"; "gemini"; "openai"; "anthropic"]%string) ->
      new_llm_client config pk provider model
      = Raise (ValueError (lit "Unsupported LLM provider: " ++ p))).
Proof.
  intros p. split.
  - intros client. unfold new_llm_client. fold p.
    destruct (str_eqb p (lit "openrouter")) eqn:E1.
    + apply str_eqb_eq in E1.
      destruct (has_requests pk) eqn:Hr; [|discriminate]. cbn [negb].
      destruct (truthy _); [|discriminate]. cbn [negb].
      destruct (strip _) as [|k0 k] eqn:K; [discriminate|].
      intros [= <-]. cbn. split; [reflexivity|]. split; [reflexivity|].
      left. split; [exact E1|]. split; [reflexivity|].
      exists (k0 :: k). repeat split. discriminate.
    + destruct (str_eqb p (lit "gemini")) eqn:E2.
      * apply str_eqb_eq in E2.
        destruct (has_genai pk) eqn:Hg; [|discriminate]. cbn [negb].
        destruct (truthy _) eqn:T; [|discriminate]. cbn [negb].
        destruct (genai_model pk _) as [u|e].
        -- intros [= <-]. cbn. split; [reflexivity|]. split; [reflexivity|].
           right. repeat split; assumption.
        -- destruct (String.eqb _ _); discriminate.
      * destruct (str_eqb p (lit "openai")); [destruct (negb _); discriminate|].
        destruct (str_eqb p (lit "anthropic")); [destruct (negb _); discriminate|].
        discriminate.
  - intros N. unfold new_llm_client. fold p.
    assert (Ne : forall x, In x ["openrouter"; "gemini"; "openai"; "anthropic"]%string ->
              str_eqb p (lit x) = false).
    { intros x Hx. apply str_eqb_neq. intros E. apply N. rewrite E.
      apply in_map. exact Hx. }
    rewrite !Ne by (cbn; tauto). reflexivity.
Qed.

Lemma llm_client_construction_witness :
  new_llm_client blank_key_config all_packages (Some (lit "mistral")) None
  = Raise (ValueError (lit "Unsupported LLM provider: mistral")).
Proof.
  apply (proj2 (llm_client_construction blank_key_config all_packages
                  (Some (lit "mistral")) None)).
  vm_compute. intuition discriminate.
Defined.

(** X16: a configured OpenRouter key made of white space only passes
    [Config.validate] and is refused when the client is constructed. *)
Theorem blank_key_passes_validate config pk key :
  cfg_llm_provider config = lit "openrouter" ->
  cfg_openrouter_api_key config = Some key ->
  key <> [] -> strip key = [] ->
  has_requests pk = true ->
  validate config = Ok true
  /\ exists msg, new_llm_client config pk None None = Raise (ValueError msg).
Proof.
  intros Hp Hk Hn Hs Hr. split.
  - unfold validate. rewrite Hp, Hk.
    destruct key as [|k0 k]; [contradiction|]. reflexivity.
  - unfold new_llm_client. cbn [str_or]. rewrite Hp, Hr, Hk.
    change (str_eqb (lit "openrouter") (lit "openrouter")) with true. cbv iota.
    assert (T : truthy (Some key) = true) by (destruct key; [contradiction | reflexivity]).
    rewrite T. cbn [negb]. change (default [] (Some key)) with key.
    rewrite Hs. eexists. reflexivity.
Qed.

Lemma blank_key_passes_validate_witness :
  validate blank_key_config = Ok true
  /\ exists msg, new_llm_client blank_key_config all_packages None None
                 = Raise (ValueError msg).
Proof.
  apply (blank_key_passes_validate blank_key_config all_packages (lit "   "));
    first [reflexivity | discriminate].
Defined.

(** X17: with the fields [Config] declares, a client for the provider
    [openai] or [anthropic] is never constructed: when the package of the
    provider is missing the constructor raises [ImportError], and when it is
    installed it raises [AttributeError], because the credential is read from
    a field [Config] does not have; yet [Config.validate] accepts every
    configuration that names one of these providers. *)
Theorem llm_client_openai_anthropic_fail config pk provider model :
  let p := str_or provider (cfg_llm_provider config) in
  (p = lit "openai" ->
   new_llm_client config pk provider model
   = Raise (if has_openai pk then missing_attribute "openai_api_key"
            else ImportError (lit "OpenAI package not installed. Run: pip install openai")))
  /\ (p = lit "anthropic" ->
      new_llm_client config pk provider model
      = Raise (if has_anthropic pk then missing_attribute "anthropic_api_key"
               else ImportError
                      (lit "Anthropic package not installed. Run: pip install anthropic")))
  /\ (In (cfg_llm_provider config) (map lit ["openai"; "anthropic"]%string) ->
      validate config = Ok true).
Proof.
  intros p. subst p. split; [|split].
  - intros H. unfold new_llm_client. rewrite H. vm_compute str_eqb.
    destruct (has_openai pk); reflexivity.
  - intros H. unfold new_llm_client. rewrite H. vm_compute str_eqb.
    destruct (has_anthropic pk); reflexivity.
  - intros H. unfold validate.
    destruct H as [<-|[<-|[]]]; vm_compute str_eqb; reflexivity.
Qed.

Lemma llm_client_openai_anthropic_fail_witness :
  validate openai_config = Ok true
  /\ new_llm_client openai_config all_packages None None
     = Raise (missing_attribute "openai_api_key").
Proof.
  destruct (llm_client_openai_anthropic_fail openai_config all_packages None None)
    as (O & _ & V).
  split; [apply V; left; reflexivity | apply O; reflexivity].
Defined.

(** * More on evidence search *)

Section SearchMoreFacts.

Local Open Scope Z_scope.

Lemma calls_since_weaken b w w' :
  trace w' = trace w -> calls_since b w w'.
Proof. intros E. exists []. rewrite app_nil_r. split; [exact E | intros ? ? ? []]. Qed.

Lemma get_ddg_client_world env self w r self' w' :
  _get_ddg_client env self w = (r, self', w') ->
  trace w' = trace w /\ clock w' = clock w
  /\ _last_ddg_search_time w' = _last_ddg_search_time w.
Proof.
  unfold _get_ddg_client. destruct (_ddg self); [intros [= _ _ <-]; repeat split|].
  destruct (ddgs_new env); [intros [= _ _ <-]; repeat split|].
  destruct (String.eqb _ _); intros [= _ _ <-]; repeat split.
Qed.

Lemma ddg_try_failure_keeps_last env q attempt self w e self' w' :
  ddg_try env q attempt self w = (Raise e, self', w') ->
  _last_ddg_search_time w' = _last_ddg_search_time w.
Proof.
  unfold ddg_try.
  set (w1 := if _ <? _min_ddg_delay then _ else w).
  set (w2 := if (0 <? attempt)%nat then _ else w1).
  assert (L2 : _last_ddg_search_time w2 = _last_ddg_search_time w).
  { subst w2 w1. destruct (0 <? attempt)%nat; destruct (_ <? _); reflexivity. }
  destruct (_get_ddg_client env self w2) as [[g s3] w3] eqn:G.
  apply get_ddg_client_world in G as (_ & _ & L3).
  destruct g as [h|e0]; [|intros [= _ _ <-]; congruence].
  unfold call_ddg. destruct (outcome _); [discriminate|].
  intros [= _ _ <-]. cbn [_last_ddg_search_time]. congruence.
Qed.

Lemma ddg_except_world b rc attempt e self w r self' w' :
  ddg_except rc attempt e self w = (r, self', w') ->
  calls_since b w w' /\ _last_ddg_search_time w' = _last_ddg_search_time w
  /\ (forall hits, r = Some hits -> hits = []).
Proof.
  unfold ddg_except.
  destruct (_ && _); [|destruct (is_connection_issue _)]; intros [= <- _ <-].
  - split; [apply calls_since_sleep|]. split; [reflexivity | discriminate].
  - split; [apply calls_since_sleep|]. split; [reflexivity | discriminate].
  - split; [apply calls_since_refl|]. split; [reflexivity|]. intros hits [= <-]. reflexivity.
Qed.

Lemma ddg_loop_after_last_success env q rc left : forall attempt self w r self' w',
  ddg_loop env q rc attempt left self w = (r, self', w') ->
  calls_since (_last_ddg_search_time w + _min_ddg_delay) w w'.
Proof.
  induction left as [|left IH]; intros attempt self w r self' w'; cbn [ddg_loop].
  - intros [= _ _ <-]. apply calls_since_refl.
  - unfold ddg_attempt.
    destruct (ddg_try env q attempt self w) as [[b s1] w1] eqn:T.
    pose proof (ddg_try_after_last_success _ _ _ _ _ _ _ _ T) as C1.
    destruct b as [hits|e]; [intros [= _ _ <-]; exact C1|].
    pose proof (ddg_try_failure_keeps_last _ _ _ _ _ _ _ _ T) as L1.
    destruct (ddg_except rc attempt e s1 w1) as [[o s2] w2] eqn:X.
    destruct (ddg_except_world (_last_ddg_search_time w + _min_ddg_delay)
                _ _ _ _ _ _ _ _ X) as (C2 & L2 & _).
    pose proof (calls_since_trans _ _ _ _ C1 C2) as C12.
    destruct o as [hits|]; [intros [= _ _ <-]; exact C12|].
    intros Lp. apply IH in Lp. rewrite L2, L1 in Lp.
    exact (calls_since_trans _ _ _ _ C12 Lp).
Qed.

Lemma get_tavily_client_world env self w r self' w' :
  _get_tavily_client env self w = (r, self', w') ->
  trace w' = trace w /\ _last_ddg_search_time w' = _last_ddg_search_time w.
Proof.
  unfold _get_tavily_client. destruct (_tavily_client self); [intros [= _ _ <-]; split; reflexivity|].
  destruct (tavily_api_key env); [|intros [= _ _ <-]; split; reflexivity].
  destruct (tavily_new env); [intros [= _ _ <-]; split; reflexivity|].
  destruct (String.eqb _ _); intros [= _ _ <-]; split; reflexivity.
Qed.

Lemma search_tavily_world b env self q w r self' w' :
  _search_tavily env self q w = (r, self', w') ->
  calls_since b w w' /\ _last_ddg_search_time w' = _last_ddg_search_time w.
Proof.
  unfold _search_tavily.
  destruct (_get_tavily_client env self w) as [[g s0] w0] eqn:G.
  apply get_tavily_client_world in G as [T0 L0].
  destruct g as [c|e];
    [|intros [= _ _ <-]; split; [apply calls_since_weaken|]; assumption].
  destruct c as [h|].
  - unfold call_tavily. cbv beta iota zeta.
    assert (C : forall k l tc,
      calls_since b w (mkWorld k (_last_ddg_search_time w0) tc (ddg_calls w0)
                         (handles w0) (trace w0 ++ [TavilyCall l q]))).
    { intros k l tc. exists [TavilyCall l q]. cbn [trace]. rewrite T0.
      split; [reflexivity|]. intros a h' q' [F|[]]. discriminate F. }
    destruct (outcome _); intros [= _ _ <-]; (split; [apply C | exact L0]).
  - cbv beta iota zeta. intros [= _ _ <-].
    split; [apply calls_since_weaken|]; assumption.
Qed.

Lemma process_normalised env now results : normalised env (map (process env now) results).
Proof. intros h (r & <- & _)%in_map_iff. reflexivity. Qed.

Lemma ddg_loop_normalised env q rc left : forall attempt self w r self' w',
  ddg_loop env q rc attempt left self w = (r, self', w') -> normalised env r.
Proof.
  induction left as [|left IH]; intros attempt self w r self' w'; cbn [ddg_loop].
  - intros [= <- _ _]. intros h [].
  - unfold ddg_attempt.
    destruct (ddg_try env q attempt self w) as [[b s1] w1] eqn:T.
    destruct b as [hits|e].
    + intros [= <- _ _]. revert T. unfold ddg_try.
      destruct (_get_ddg_client env self _) as [[g s3] w3].
      destruct g as [h|e0]; [|discriminate].
      unfold call_ddg. destruct (outcome _); [|discriminate].
      intros [= <- _ _]. apply process_normalised.
    + destruct (ddg_except rc attempt e s1 w1) as [[o s2] w2] eqn:X.
      destruct (ddg_except_world 0 _ _ _ _ _ _ _ _ X) as (_ & _ & E).
      destruct o as [hits|]; [|apply IH].
      intros [= <- _ _]. rewrite (E hits eq_refl). intros h [].
Qed.

Lemma startswith_split p : forall s,
  startswith s p = true -> s = p ++ skipn (length p) s.
Proof.
  induction p as [|c p IH]; intros s; [reflexivity|].
  destruct s as [|x s]; cbn [startswith]; [discriminate|].
  intros [Hc Hs]%andb_true_iff. apply chr_eqb_eq in Hc. subst x.
  cbn [length skipn app]. f_equal. exact (IH s Hs).
Qed.

Lemma extract_source_host env u host :
  netloc env u = Ok host ->
  lower (_extract_source env u) = _extract_source env u
  /\ (_extract_source env u = lower host
      \/ lower host = lit "www." ++ _extract_source env u).
Proof.
  intros H. unfold _extract_source. rewrite H. cbv zeta.
  destruct (startswith (lower host) (lit "www.")) eqn:S.
  - split; [|right; exact (startswith_split _ _ S)].
    unfold lower. rewrite <- skipn_map, map_map. f_equal.
    apply map_ext. intros c. destruct c as [[] [] [] [] [] [] [] []]; reflexivity.
  - split; [apply lower_idem | left; reflexivity].
Qed.

End SearchMoreFacts.

(** X18: whichever client searches, every call it makes to the fallback
    provider is issued at least [_min_ddg_delay] (2.5 s) after the time the
    class recorded for the last successful fallback search. *)
Theorem search_calls_after_last_success env self query retry_count w :
  calls_since (_last_ddg_search_time w + _min_ddg_delay)%Z w
    (snd (WebSearch.search env self query retry_count w)).
Proof.
  unfold WebSearch.search, _search_duckduckgo.
  destruct (_use_tavily self && tavily_api_key env).
  - destruct (_search_tavily env self query w) as [[r s1] w1] eqn:T.
    destruct (search_tavily_world (_last_ddg_search_time w + _min_ddg_delay)%Z
                _ _ _ _ _ _ _ T) as [C L].
    destruct r as [hits|e]; [exact C|].
    destruct (ddg_loop env query retry_count 0 (retry_count + 1)
                (set_use_tavily false s1) w1) as [[r2 s2] w2] eqn:D.
    apply ddg_loop_after_last_success in D. rewrite L in D. cbn [snd].
    exact (calls_since_trans _ _ _ _ C D).
  - destruct (ddg_loop env query retry_count 0 (retry_count + 1) self w)
      as [[r2 s2] w2] eqn:D.
    apply ddg_loop_after_last_success in D. exact D.
Qed.

(** X19: every hit a search returns, from either provider, carries as
    source the result of [_extract_source] on its own address: when the
    address parses, the lower-cased host, without one leading [www.], which
    is in lower case; when parsing the address raises, the address itself,
    unchanged. *)
Theorem search_results_normalised env self query retry_count w hit :
  In hit (fst (fst (WebSearch.search env self query retry_count w))) ->
  source hit = _extract_source env (url hit)
  /\ (forall host, netloc env (url hit) = Ok host ->
        lower (source hit) = source hit
        /\ (source hit = lower host \/ lower host = lit "www." ++ source hit))
  /\ (forall e, netloc env (url hit) = Raise e -> source hit = url hit).
Proof.
  assert (N : normalised env (fst (fst (WebSearch.search env self query retry_count w)))).
  { unfold WebSearch.search, _search_duckduckgo.
    destruct (_use_tavily self && tavily_api_key env).
    - destruct (_search_tavily env self query w) as [[r s1] w1] eqn:T.
      destruct r as [hits|e].
      + cbn [fst]. revert T. unfold _search_tavily.
        destruct (_get_tavily_client env self w) as [[g s0] w0].
        destruct g as [c|e0]; [|discriminate].
        destruct c as [h|]; [|discriminate].
        unfold call_tavily. destruct (outcome _); [|discriminate].
        intros [= <- _ _]. apply process_normalised.
      + destruct (ddg_loop env query retry_count 0 (retry_count + 1)
                    (set_use_tavily false s1) w1) as [[r2 s2] w2] eqn:D.
        exact (ddg_loop_normalised _ _ _ _ _ _ _ _ _ _ D).
    - destruct (ddg_loop env query retry_count 0 (retry_count + 1) self w)
        as [[r2 s2] w2] eqn:D.
      exact (ddg_loop_normalised _ _ _ _ _ _ _ _ _ _ D). }
  intros H. rewrite (N hit H). split; [reflexivity|]. split.
  - intros host Hh. exact (extract_source_host _ _ _ Hh).
  - intros e He. unfold _extract_source. rewrite He. reflexivity.
Qed.

Lemma search_results_normalised_witness :
  (In first_hit (fst (fst (WebSearch.search answering_env answering_client
                             (lit "acme revenue") 2 start_world)))
   /\ source first_hit = lit "acme.com")
  /\ (In second_hit (fst (fst (WebSearch.search answering_env answering_client
                                 (lit "acme revenue") 2 start_world)))
      /\ source second_hit = lit "https://[X").
Proof.
  assert (H1 : In first_hit (fst (fst (WebSearch.search answering_env answering_client
                                         (lit "acme revenue") 2 start_world))))
    by (left; reflexivity).
  assert (H2 : In second_hit (fst (fst (WebSearch.search answering_env answering_client
                                          (lit "acme revenue") 2 start_world))))
    by (right; left; reflexivity).
  split; (split; [assumption|]).
  - rewrite (proj1 (search_results_normalised answering_env answering_client
                      (lit "acme revenue") 2 start_world first_hit H1)).
    reflexivity.
  - exact (proj2 (proj2 (search_results_normalised answering_env answering_client
                           (lit "acme revenue") 2 start_world second_hit H2))
             (ValueError (lit "Invalid IPv6 URL")) eq_refl).
Defined.

Section PrimaryFacts.

Lemma ddg_call_times_app t e :
  ddg_call_times (t ++ [e])
  = ddg_call_times t ++ match e with DdgCall a _ _ => [a] | _ => [] end.
Proof. unfold ddg_call_times. rewrite flat_map_app. cbn. rewrite app_nil_r. reflexivity. Qed.

Lemma get_ddg_client_tavily env self w r self' w' :
  _get_ddg_client env self w = (r, self', w') ->
  _tavily_client self' = _tavily_client self.
Proof.
  unfold _get_ddg_client. destruct (_ddg self); [intros [= _ <- _]; reflexivity|].
  destruct (ddgs_new env); [intros [= _ <- _]; reflexivity|].
  destruct (String.eqb _ _); intros [= _ <- _]; reflexivity.
Qed.

Lemma ddg_loop_tavily_client env q rc left : forall attempt self w r self' w',
  ddg_loop env q rc attempt left self w = (r, self', w') ->
  _tavily_client self' = _tavily_client self.
Proof.
  induction left as [|left IH]; intros attempt self w r self' w'; cbn [ddg_loop].
  - intros [= _ <- _]. reflexivity.
  - unfold ddg_attempt, ddg_try.
    destruct (_get_ddg_client env self _) as [[g s3] w3] eqn:G.
    apply get_ddg_client_tavily in G.
    assert (X : forall e wx o s2 w2,
      ddg_except rc attempt e s3 wx = (o, s2, w2) -> _tavily_client s2 = _tavily_client self).
    { intros e wx o s2 w2. unfold ddg_except.
      destruct (_ && _); [|destruct (is_connection_issue _)]; intros [= _ <- _]; exact G. }
    destruct g as [h|e].
    + unfold call_ddg. destruct (outcome _) as [results|e].
      * intros [= _ <- _]. exact G.
      * destruct (ddg_except rc attempt e s3 _) as [[o s2] w2] eqn:E.
        apply X in E. destruct o; [intros [= _ <- _]; exact E|].
        intros L. apply IH in L. congruence.
    + destruct (ddg_except rc attempt e s3 w3) as [[o s2] w2] eqn:E.
      apply X in E. destruct o; [intros [= _ <- _]; exact E|].
      intros L. apply IH in L. congruence.
Qed.

Lemma init_primary_ready env n w : primary_ready (fst (__init__ env n w)).
Proof.
  unfold __init__, primary_ready. destruct (tavily_api_key env); [|discriminate].
  destruct (tavily_new env); [|discriminate]. intros _. eexists. reflexivity.
Qed.

End PrimaryFacts.

(** X20: for a client whose primary flag comes with a primary client (as
    the constructor leaves it), a search calls the primary provider exactly
    once when the flag is on and the key is configured, and never otherwise;
    it never turns the flag back on; and when the flag is still on afterwards
    with the key configured, the search made no fallback call. *)
Theorem search_primary_at_most_once env self query retry_count w :
  primary_ready self ->
  let r := WebSearch.search env self query retry_count w in
  primary_ready (snd (fst r))
  /\ (_use_tavily (snd (fst r)) = true -> _use_tavily self = true)
  /\ tavily_call_count (trace (snd r))
     = (tavily_call_count (trace w)
        + if _use_tavily self && tavily_api_key env then 1 else 0)%nat
  /\ (_use_tavily (snd (fst r)) = true -> tavily_api_key env = true ->
      ddg_call_times (trace (snd r)) = ddg_call_times (trace w)).
Proof.
  intros R r. subst r. unfold WebSearch.search, _search_duckduckgo.
  destruct (_use_tavily self) eqn:U; cbn [andb];
    [destruct (tavily_api_key env) eqn:K|].
  - destruct (R U) as [h Hh].
    unfold _search_tavily, _get_tavily_client. rewrite Hh.
    unfold call_tavily. cbv beta iota zeta.
    destruct (outcome (tavily_search env (tavily_calls w) query)) as [results|e].
    + cbn [fst snd trace]. rewrite tavily_call_count_app, ddg_call_times_app, app_nil_r.
      split; [exact R|]. split; [intros _; reflexivity|].
      split; [reflexivity | intros _ _; reflexivity].
    + match goal with
      | |- context [ddg_loop env query retry_count 0 (retry_count + 1) ?s ?w0] =>
          destruct (ddg_loop env query retry_count 0 (retry_count + 1) s w0)
            as [[r2 s2] w2] eqn:D
      end.
      apply ddg_loop_primary in D as [U2 C2]. cbn [fst snd].
      cbn [set_use_tavily _use_tavily] in U2.
      split; [intros F; congruence|]. split; [reflexivity|].
      split; [|intros F; congruence].
      rewrite C2. cbn [trace]. apply tavily_call_count_app.
  - destruct (ddg_loop env query retry_count 0 (retry_count + 1) self w)
      as [[r2 s2] w2] eqn:D.
    pose proof (ddg_loop_tavily_client _ _ _ _ _ _ _ _ _ _ D) as Tc.
    apply ddg_loop_primary in D as [U2 C2]. cbn [fst snd].
    split; [intros _; rewrite Tc; exact (R U)|]. split; [reflexivity|].
    split; [rewrite C2; lia | discriminate].
  - destruct (ddg_loop env query retry_count 0 (retry_count + 1) self w)
      as [[r2 s2] w2] eqn:D.
    apply ddg_loop_primary in D as [U2 C2]. cbn [fst snd].
    split; [intros F; congruence|]. split; [intros F; congruence|].
    split; [rewrite C2; lia | intros F; congruence].
Qed.

Lemma search_primary_at_most_once_witness :
  tavily_call_count
    (trace (snd (WebSearch.search tavily_down_env primary_client
                   (lit "acme revenue") 2 primary_world))) = 1%nat.
Proof.
  assert (R : primary_ready primary_client) by (intros _; eexists; reflexivity).
  exact (proj1 (proj2 (proj2 (search_primary_at_most_once tavily_down_env primary_client
                                (lit "acme revenue") 2 primary_world R)))).
Defined.

(** * The upload filter *)

Lemma skipn_past {A} (pre : list A) c post :
  skipn (S (length pre)) (pre ++ c :: post) = post.
Proof. induction pre as [|x pre IH]; [reflexivity | exact IH]. Qed.

(** X21: [allowed_file] accepts a file name exactly when it is a stem, a
    dot and an extension that reads [pdf] in any letter case; the stem is
    arbitrary (empty, or with dots and slashes), and a name without a dot is
    refused. *)
Theorem allowed_file_iff filename :
  (allowed_file filename = true <->
   exists stem ext, filename = stem ++ dot :: ext /\ lower ext = lit "pdf")
  /\ (~ In dot filename -> allowed_file filename = false).
Proof.
  split; [split|].
  - unfold allowed_file. destruct (rfind_chr dot filename) as [i|] eqn:R; [|discriminate].
    destruct (rfind_chr_some _ _ _ R) as (pre & post & -> & L & _).
    intros E. apply str_eqb_eq in E. exists pre, post. split; [reflexivity|].
    rewrite <- L, skipn_past in E. exact E.
  - intros (stem & ext & -> & E). unfold allowed_file.
    assert (N : ~ In dot ext).
    { intros H. apply (in_map to_lower) in H. fold (lower ext) in H. rewrite E in H.
      cbn in H. repeat (destruct H as [H|H]; [discriminate H|]). exact H. }
    rewrite (rfind_chr_app _ _ _ N).
    rewrite skipn_past, E. reflexivity.
  - intros N. unfold allowed_file.
    destruct (rfind_chr dot filename) as [i|] eqn:R; [|reflexivity].
    destruct (rfind_chr_some _ _ _ R) as (pre & post & -> & _ & _).
    exfalso. apply N, in_elt.
Qed.
